(** * The live voice session of [ChatWidget.tsx]

    A shallow embedding of the voice-session part of
    [src/Components/ChatWidget.tsx]: the React state and the refs of the
    component, the browser objects its handlers talk to (timers, audio
    contexts, the live transport, script processors), and every handler of
    the session (start, stop, the transport callbacks, the microphone
    callback, the timers), written in a small state-and-exception monad.

    Numbers.  [Date.now()] yields whole milliseconds and is modelled in [Z].
    Microphone samples are IEEE binary64 values (every [Float32Array] entry
    is one) and [calculateRMS] is computed with Rocq's primitive floats, the
    arithmetic of a JavaScript [number].  Times on the output audio clock
    ([ctx.currentTime], [audioBuffer.duration], [nextStartTimeRef]) are
    binary64 values in seconds as well: [Math.max] and the addition that
    moves the playback cursor are those of IEEE 754, rounding included. *)

From Stdlib Require Import ZArith QArith Qminmax Lia Lqa List Bool String Floats.
From Stdlib Require Import RelationClasses.
Import ListNotations.

Local Open Scope Z_scope.

(* ================================================================== *)
(** ** Data of [types.ts]                                              *)
(* ================================================================== *)

Inductive Role := user | model | system.

Record Citation := { title : string; uri : string }.

Record ChatMessage := {
  id : string;
  role : Role;
  text : string;
  timestamp : Z;
  sources : option (list Citation)
}.

Definition Role_eqb (a b : Role) : bool :=
  match a, b with
  | user, user | model, model | system, system => true
  | _, _ => false
  end.

(** The part of [BusinessConfig] the session reads outside of the prompt
    text. *)
Record BusinessConfig := { sitemapUrl : option string }.

(** JavaScript truthiness of an optional string. *)
Definition truthy (s : option string) : bool :=
  match s with
  | Some EmptyString | None => false
  | Some _ => true
  end.

(* ================================================================== *)
(** ** Constants                                                       *)
(* ================================================================== *)

Definition SILENCE_THRESHOLD : float := 0x1.47ae147ae147bp-7%float. (* 0.01 *)
Definition SPEECH_HANGOVER_MS : Z := 800.
Definition IDLE_TIMEOUT_MS : Z := 90000.
Definition MIC_DELAY_MS : Z := 800.
Definition KEEPALIVE_MS : Z := 4000.

Definition greeting_instruction : string :=
  "Speak with a strong British accent. Say exactly: 'Hi, how can I help you?'".
Definition inactivity_message : string := "Session ended due to inactivity.".
Definition timed_out_message : string := "Session timed out. Please resume.".
Definition missing_key_message : string :=
  "Missing API Key. Please configure process.env.API_KEY.".
Definition mic_denied_message : string :=
  "Microphone access denied. Please check browser permissions.".

(* ================================================================== *)
(** ** Component state                                                 *)
(* ================================================================== *)

Inductive Status := disconnected | connecting | connected | reconnecting.

(** Browser objects are named by handles; a handle is never [0], so a ref
    holding one is truthy exactly when it is [Some]. *)
Definition handle := nat.

(** [useState] cells and [useRef] cells of the component. [sourcesRef] is a
    JavaScript [Set], kept in insertion order, the order [forEach] visits. *)
Record widget := {
  messages : list ChatMessage;
  isLiveActive : bool;
  connectionStatus : Status;
  errorMsg : option string;
  sessionPromiseRef : option handle;
  inputContextRef : option handle;
  outputContextRef : option handle;
  nextStartTimeRef : float;
  sourcesRef : list handle;
  streamRef : option handle;
  scriptProcessorRef : option handle;
  keepAliveIntervalRef : option handle;
  isUserDisconnectingRef : bool;
  lastSpeechTimeRef : Z;
  idleTimerRef : option handle
}.

Definition fresh_widget : widget := {|
  messages := [];
  isLiveActive := false;
  connectionStatus := disconnected;
  errorMsg := None;
  sessionPromiseRef := None;
  inputContextRef := None;
  outputContextRef := None;
  nextStartTimeRef := 0%float;
  sourcesRef := [];
  streamRef := None;
  scriptProcessorRef := None;
  keepAliveIntervalRef := None;
  isUserDisconnectingRef := false;
  lastSpeechTimeRef := 0;
  idleTimerRef := None
|}.

(* ================================================================== *)
(** ** The browser                                                     *)
(* ================================================================== *)

(** Every call the component makes on an object it does not own. The list
    of calls made so far, each with the time it was made at, is the
    observable behaviour of the session. *)
Inductive call :=
| console_log (s : string)
| console_error (s : string)
| setTimeout (t : handle) (ms : Z)
| clearTimeout (t : handle)
| setInterval (t : handle) (ms : Z)
| clearInterval (t : handle)
| new_AudioContext (c : handle) (sampleRate : Z)
| context_resume (c : handle)
| context_close (c : handle)
| getUserMedia
| live_connect (s : handle) (googleSearch : bool)
| send_text (s : handle) (txt : string)
| send_media (s : handle) (pcm : list float)
| session_close (s : handle)
| tracks_stop (stream : handle)
| createScriptProcessor (p : handle) (c : handle)
| processor_disconnect (p : handle)
| source_start (src : handle) (when : float) (duration : float)
| source_stop (src : handle)
| oscillator_tone (c : handle) (frequency : Q) (gain : Q) (stopAfter : Q).

(** What a pending timer runs when it fires. *)
Inductive job :=
| idle_job
| mic_job (s : handle)
| keepalive_job.

Record timer := { due : Z; every : option Z; runs : job }.

Inductive ContextState := suspended | running | closed.

Record Session := { opened : bool; closing : bool }.

(** What a callback given to [sessionPromise.then] does with the session
    it receives: send the greeting (lines 220-226), send one frame of
    microphone audio (lines 253-259), or close (lines 367-369). *)
Inductive reaction :=
| send_greeting
| send_frame (pcm : list float)
| hang_up.

(** What waits for a promise: a continuation of [startLiveSession] parked at
    one of its [await]s; the connection [ai.live.connect] is making, whose
    promise of a session is still pending; a callback given to [then] on
    that promise. *)
Inductive parked :=
| at_resume (c : handle)
| at_getUserMedia
| at_connect (s : handle)
| at_then (s : handle) (r : reaction).

Record browser := {
  clock : Z;                               (* Date.now() *)
  next_handle : handle;
  timers : list (handle * timer);          (* pending timers *)
  contexts : list (handle * ContextState);
  sessions : list (handle * Session);      (* transports not yet closed *)
  processors : list (handle * (handle * handle));
                                           (* connected: session, context *)
  awaits : list parked;
  calls : list (Z * call)                  (* when and what, oldest first *)
}.

Definition fresh_browser (t0 : Z) : browser := {|
  clock := t0;
  next_handle := 1%nat;
  timers := [];
  contexts := [];
  sessions := [];
  processors := [];
  awaits := [];
  calls := []
|}.

Record world := { ui : widget; env : browser }.

Definition initial (t0 : Z) : world :=
  {| ui := fresh_widget; env := fresh_browser t0 |}.
(* ================================================================== *)
(** ** Field updates                                                   *)
(* ================================================================== *)

Definition set_messages (v : list ChatMessage) (w : widget) : widget :=
  {| messages := v; isLiveActive := isLiveActive w;
     connectionStatus := connectionStatus w; errorMsg := errorMsg w;
     sessionPromiseRef := sessionPromiseRef w;
     inputContextRef := inputContextRef w;
     outputContextRef := outputContextRef w;
     nextStartTimeRef := nextStartTimeRef w; sourcesRef := sourcesRef w;
     streamRef := streamRef w; scriptProcessorRef := scriptProcessorRef w;
     keepAliveIntervalRef := keepAliveIntervalRef w;
     isUserDisconnectingRef := isUserDisconnectingRef w;
     lastSpeechTimeRef := lastSpeechTimeRef w;
     idleTimerRef := idleTimerRef w |}.

Definition set_isLiveActive (v : bool) (w : widget) : widget :=
  {| messages := messages w; isLiveActive := v;
     connectionStatus := connectionStatus w; errorMsg := errorMsg w;
     sessionPromiseRef := sessionPromiseRef w;
     inputContextRef := inputContextRef w;
     outputContextRef := outputContextRef w;
     nextStartTimeRef := nextStartTimeRef w; sourcesRef := sourcesRef w;
     streamRef := streamRef w; scriptProcessorRef := scriptProcessorRef w;
     keepAliveIntervalRef := keepAliveIntervalRef w;
     isUserDisconnectingRef := isUserDisconnectingRef w;
     lastSpeechTimeRef := lastSpeechTimeRef w;
     idleTimerRef := idleTimerRef w |}.

Definition set_connectionStatus (v : Status) (w : widget) : widget :=
  {| messages := messages w; isLiveActive := isLiveActive w;
     connectionStatus := v; errorMsg := errorMsg w;
     sessionPromiseRef := sessionPromiseRef w;
     inputContextRef := inputContextRef w;
     outputContextRef := outputContextRef w;
     nextStartTimeRef := nextStartTimeRef w; sourcesRef := sourcesRef w;
     streamRef := streamRef w; scriptProcessorRef := scriptProcessorRef w;
     keepAliveIntervalRef := keepAliveIntervalRef w;
     isUserDisconnectingRef := isUserDisconnectingRef w;
     lastSpeechTimeRef := lastSpeechTimeRef w;
     idleTimerRef := idleTimerRef w |}.

Definition set_errorMsg (v : option string) (w : widget) : widget :=
  {| messages := messages w; isLiveActive := isLiveActive w;
     connectionStatus := connectionStatus w; errorMsg := v;
     sessionPromiseRef := sessionPromiseRef w;
     inputContextRef := inputContextRef w;
     outputContextRef := outputContextRef w;
     nextStartTimeRef := nextStartTimeRef w; sourcesRef := sourcesRef w;
     streamRef := streamRef w; scriptProcessorRef := scriptProcessorRef w;
     keepAliveIntervalRef := keepAliveIntervalRef w;
     isUserDisconnectingRef := isUserDisconnectingRef w;
     lastSpeechTimeRef := lastSpeechTimeRef w;
     idleTimerRef := idleTimerRef w |}.

Definition set_sessionPromiseRef (v : option handle) (w : widget) : widget :=
  {| messages := messages w; isLiveActive := isLiveActive w;
     connectionStatus := connectionStatus w; errorMsg := errorMsg w;
     sessionPromiseRef := v; inputContextRef := inputContextRef w;
     outputContextRef := outputContextRef w;
     nextStartTimeRef := nextStartTimeRef w; sourcesRef := sourcesRef w;
     streamRef := streamRef w; scriptProcessorRef := scriptProcessorRef w;
     keepAliveIntervalRef := keepAliveIntervalRef w;
     isUserDisconnectingRef := isUserDisconnectingRef w;
     lastSpeechTimeRef := lastSpeechTimeRef w;
     idleTimerRef := idleTimerRef w |}.

Definition set_inputContextRef (v : option handle) (w : widget) : widget :=
  {| messages := messages w; isLiveActive := isLiveActive w;
     connectionStatus := connectionStatus w; errorMsg := errorMsg w;
     sessionPromiseRef := sessionPromiseRef w; inputContextRef := v;
     outputContextRef := outputContextRef w;
     nextStartTimeRef := nextStartTimeRef w; sourcesRef := sourcesRef w;
     streamRef := streamRef w; scriptProcessorRef := scriptProcessorRef w;
     keepAliveIntervalRef := keepAliveIntervalRef w;
     isUserDisconnectingRef := isUserDisconnectingRef w;
     lastSpeechTimeRef := lastSpeechTimeRef w;
     idleTimerRef := idleTimerRef w |}.

Definition set_outputContextRef (v : option handle) (w : widget) : widget :=
  {| messages := messages w; isLiveActive := isLiveActive w;
     connectionStatus := connectionStatus w; errorMsg := errorMsg w;
     sessionPromiseRef := sessionPromiseRef w;
     inputContextRef := inputContextRef w; outputContextRef := v;
     nextStartTimeRef := nextStartTimeRef w; sourcesRef := sourcesRef w;
     streamRef := streamRef w; scriptProcessorRef := scriptProcessorRef w;
     keepAliveIntervalRef := keepAliveIntervalRef w;
     isUserDisconnectingRef := isUserDisconnectingRef w;
     lastSpeechTimeRef := lastSpeechTimeRef w;
     idleTimerRef := idleTimerRef w |}.

Definition set_nextStartTimeRef (v : float) (w : widget) : widget :=
  {| messages := messages w; isLiveActive := isLiveActive w;
     connectionStatus := connectionStatus w; errorMsg := errorMsg w;
     sessionPromiseRef := sessionPromiseRef w;
     inputContextRef := inputContextRef w;
     outputContextRef := outputContextRef w; nextStartTimeRef := v;
     sourcesRef := sourcesRef w; streamRef := streamRef w;
     scriptProcessorRef := scriptProcessorRef w;
     keepAliveIntervalRef := keepAliveIntervalRef w;
     isUserDisconnectingRef := isUserDisconnectingRef w;
     lastSpeechTimeRef := lastSpeechTimeRef w;
     idleTimerRef := idleTimerRef w |}.

Definition set_sourcesRef (v : list handle) (w : widget) : widget :=
  {| messages := messages w; isLiveActive := isLiveActive w;
     connectionStatus := connectionStatus w; errorMsg := errorMsg w;
     sessionPromiseRef := sessionPromiseRef w;
     inputContextRef := inputContextRef w;
     outputContextRef := outputContextRef w;
     nextStartTimeRef := nextStartTimeRef w; sourcesRef := v;
     streamRef := streamRef w; scriptProcessorRef := scriptProcessorRef w;
     keepAliveIntervalRef := keepAliveIntervalRef w;
     isUserDisconnectingRef := isUserDisconnectingRef w;
     lastSpeechTimeRef := lastSpeechTimeRef w;
     idleTimerRef := idleTimerRef w |}.

Definition set_streamRef (v : option handle) (w : widget) : widget :=
  {| messages := messages w; isLiveActive := isLiveActive w;
     connectionStatus := connectionStatus w; errorMsg := errorMsg w;
     sessionPromiseRef := sessionPromiseRef w;
     inputContextRef := inputContextRef w;
     outputContextRef := outputContextRef w;
     nextStartTimeRef := nextStartTimeRef w; sourcesRef := sourcesRef w;
     streamRef := v; scriptProcessorRef := scriptProcessorRef w;
     keepAliveIntervalRef := keepAliveIntervalRef w;
     isUserDisconnectingRef := isUserDisconnectingRef w;
     lastSpeechTimeRef := lastSpeechTimeRef w;
     idleTimerRef := idleTimerRef w |}.

Definition set_scriptProcessorRef (v : option handle) (w : widget) : widget :=
  {| messages := messages w; isLiveActive := isLiveActive w;
     connectionStatus := connectionStatus w; errorMsg := errorMsg w;
     sessionPromiseRef := sessionPromiseRef w;
     inputContextRef := inputContextRef w;
     outputContextRef := outputContextRef w;
     nextStartTimeRef := nextStartTimeRef w; sourcesRef := sourcesRef w;
     streamRef := streamRef w; scriptProcessorRef := v;
     keepAliveIntervalRef := keepAliveIntervalRef w;
     isUserDisconnectingRef := isUserDisconnectingRef w;
     lastSpeechTimeRef := lastSpeechTimeRef w;
     idleTimerRef := idleTimerRef w |}.

Definition set_keepAliveIntervalRef (v : option handle) (w : widget) : widget :=
  {| messages := messages w; isLiveActive := isLiveActive w;
     connectionStatus := connectionStatus w; errorMsg := errorMsg w;
     sessionPromiseRef := sessionPromiseRef w;
     inputContextRef := inputContextRef w;
     outputContextRef := outputContextRef w;
     nextStartTimeRef := nextStartTimeRef w; sourcesRef := sourcesRef w;
     streamRef := streamRef w; scriptProcessorRef := scriptProcessorRef w;
     keepAliveIntervalRef := v;
     isUserDisconnectingRef := isUserDisconnectingRef w;
     lastSpeechTimeRef := lastSpeechTimeRef w;
     idleTimerRef := idleTimerRef w |}.

Definition set_isUserDisconnectingRef (v : bool) (w : widget) : widget :=
  {| messages := messages w; isLiveActive := isLiveActive w;
     connectionStatus := connectionStatus w; errorMsg := errorMsg w;
     sessionPromiseRef := sessionPromiseRef w;
     inputContextRef := inputContextRef w;
     outputContextRef := outputContextRef w;
     nextStartTimeRef := nextStartTimeRef w; sourcesRef := sourcesRef w;
     streamRef := streamRef w; scriptProcessorRef := scriptProcessorRef w;
     keepAliveIntervalRef := keepAliveIntervalRef w;
     isUserDisconnectingRef := v; lastSpeechTimeRef := lastSpeechTimeRef w;
     idleTimerRef := idleTimerRef w |}.

Definition set_lastSpeechTimeRef (v : Z) (w : widget) : widget :=
  {| messages := messages w; isLiveActive := isLiveActive w;
     connectionStatus := connectionStatus w; errorMsg := errorMsg w;
     sessionPromiseRef := sessionPromiseRef w;
     inputContextRef := inputContextRef w;
     outputContextRef := outputContextRef w;
     nextStartTimeRef := nextStartTimeRef w; sourcesRef := sourcesRef w;
     streamRef := streamRef w; scriptProcessorRef := scriptProcessorRef w;
     keepAliveIntervalRef := keepAliveIntervalRef w;
     isUserDisconnectingRef := isUserDisconnectingRef w;
     lastSpeechTimeRef := v; idleTimerRef := idleTimerRef w |}.

Definition set_idleTimerRef (v : option handle) (w : widget) : widget :=
  {| messages := messages w; isLiveActive := isLiveActive w;
     connectionStatus := connectionStatus w; errorMsg := errorMsg w;
     sessionPromiseRef := sessionPromiseRef w;
     inputContextRef := inputContextRef w;
     outputContextRef := outputContextRef w;
     nextStartTimeRef := nextStartTimeRef w; sourcesRef := sourcesRef w;
     streamRef := streamRef w; scriptProcessorRef := scriptProcessorRef w;
     keepAliveIntervalRef := keepAliveIntervalRef w;
     isUserDisconnectingRef := isUserDisconnectingRef w;
     lastSpeechTimeRef := lastSpeechTimeRef w; idleTimerRef := v |}.

Definition set_clock (v : Z) (b : browser) : browser :=
  {| clock := v; next_handle := next_handle b; timers := timers b;
     contexts := contexts b; sessions := sessions b;
     processors := processors b; awaits := awaits b; calls := calls b |}.

Definition set_next_handle (v : handle) (b : browser) : browser :=
  {| clock := clock b; next_handle := v; timers := timers b;
     contexts := contexts b; sessions := sessions b;
     processors := processors b; awaits := awaits b; calls := calls b |}.

Definition set_timers (v : list (handle * timer)) (b : browser) : browser :=
  {| clock := clock b; next_handle := next_handle b; timers := v;
     contexts := contexts b; sessions := sessions b;
     processors := processors b; awaits := awaits b; calls := calls b |}.

Definition set_contexts (v : list (handle * ContextState)) (b : browser) : browser :=
  {| clock := clock b; next_handle := next_handle b; timers := timers b;
     contexts := v; sessions := sessions b; processors := processors b;
     awaits := awaits b; calls := calls b |}.

Definition set_sessions (v : list (handle * Session)) (b : browser) : browser :=
  {| clock := clock b; next_handle := next_handle b; timers := timers b;
     contexts := contexts b; sessions := v; processors := processors b;
     awaits := awaits b; calls := calls b |}.

Definition set_processors (v : list (handle * (handle * handle))) (b : browser) : browser :=
  {| clock := clock b; next_handle := next_handle b; timers := timers b;
     contexts := contexts b; sessions := sessions b; processors := v;
     awaits := awaits b; calls := calls b |}.

Definition set_awaits (v : list parked) (b : browser) : browser :=
  {| clock := clock b; next_handle := next_handle b; timers := timers b;
     contexts := contexts b; sessions := sessions b;
     processors := processors b; awaits := v; calls := calls b |}.

Definition set_calls (v : list (Z * call)) (b : browser) : browser :=
  {| clock := clock b; next_handle := next_handle b; timers := timers b;
     contexts := contexts b; sessions := sessions b;
     processors := processors b; awaits := awaits b; calls := v |}.

Definition set_ui (f : widget -> widget) (s : world) : world :=
  {| ui := f (ui s); env := env s |}.

Definition set_env (f : browser -> browser) (s : world) : world :=
  {| ui := ui s; env := f (env s) |}.

(* ================================================================== *)
(** ** Handlers as computations                                        *)
(* ================================================================== *)

(** A JavaScript exception: [e.name] and [e.message]. *)
Record exn := { name : string; message : string }.

Definition browser_error : exn := {| name := "Error"; message := "" |}.

Inductive outcome (A : Type) :=
| returned (a : A)
| thrown (e : exn).
Arguments returned {A} a.
Arguments thrown {A} e.

(** A handler body: it reads and writes the world and either returns or
    throws. The state reached at a throw is kept, as in JavaScript. *)
Definition M (A : Type) : Type := world -> outcome A * world.

Definition ret {A} (a : A) : M A := fun s => (returned a, s).

Definition bind {A B} (m : M A) (k : A -> M B) : M B :=
  fun s =>
    match m s with
    | (returned a, s') => k a s'
    | (thrown e, s') => (thrown e, s')
    end.

Definition throw {A} (e : exn) : M A := fun s => (thrown e, s).

(** [try { m } catch (e) { h e }] *)
Definition try_catch {A} (m : M A) (h : exn -> M A) : M A :=
  fun s =>
    match m s with
    | (returned a, s') => (returned a, s')
    | (thrown e, s') => h e s'
    end.

(** [promise.then(() => m)] on a promise that is resolved, read as one
    step: the callback runs on its own, and an exception inside it rejects
    the derived promise and does not reach the caller. The callback is run
    in place, as if the handler yielded to it at once; [Deferred] below
    keeps it until the handler has returned and the promise is resolved. *)
Definition promise_then (m : M unit) : M unit :=
  fun s => (returned tt, snd (m s)).

Declare Scope handler_scope.
Delimit Scope handler_scope with handler.
Notation "x <- m ;; k" := (bind m (fun x => k))
  (at level 61, m at next level, right associativity) : handler_scope.
Notation "m ;; k" := (bind m (fun _ => k))
  (at level 61, right associativity) : handler_scope.
Local Open Scope handler_scope.

Definition when_ (b : bool) (m : M unit) : M unit := if b then m else ret tt.

Definition get {A} (f : widget -> A) : M A := fun s => (returned (f (ui s)), s).
Definition put (f : widget -> widget) : M unit := fun s => (returned tt, set_ui f s).
Definition look {A} (f : browser -> A) : M A := fun s => (returned (f (env s)), s).

Definition exec {A} (m : M A) (s : world) : world := snd (m s).

(** [forEach] over a list. *)
Fixpoint for_each {A} (f : A -> M unit) (l : list A) : M unit :=
  match l with
  | [] => ret tt
  | x :: r => f x ;; for_each f r
  end.

(** *** Finite tables of browser objects *)

Fixpoint lookup {V} (k : handle) (l : list (handle * V)) : option V :=
  match l with
  | [] => None
  | (k', v) :: r => if Nat.eqb k k' then Some v else lookup k r
  end.

Definition drop {V} (k : handle) (l : list (handle * V)) : list (handle * V) :=
  filter (fun kv => negb (Nat.eqb k (fst kv))) l.

Definition store {V} (k : handle) (v : V) (l : list (handle * V))
  : list (handle * V) := (k, v) :: drop k l.

Fixpoint remove_once (h : handle) (l : list handle) : list handle :=
  match l with
  | [] => []
  | x :: r => if Nat.eqb h x then r else x :: remove_once h r
  end.

(** The same promise waited for. Callbacks are never looked up. *)
Definition parked_eqb (a b : parked) : bool :=
  match a, b with
  | at_resume c, at_resume c' => Nat.eqb c c'
  | at_getUserMedia, at_getUserMedia => true
  | at_connect s, at_connect s' => Nat.eqb s s'
  | _, _ => false
  end.

Fixpoint unpark (p : parked) (l : list parked) : list parked :=
  match l with
  | [] => []
  | x :: r => if parked_eqb p x then r else x :: unpark p r
  end.

(** [Math.max] on two numbers: [NaN] if either is, and [+0] above [-0]. *)
Module Math.
Definition max (a b : float) : float :=
  if (PrimFloat.is_nan a || PrimFloat.is_nan b)%bool then PrimFloat.nan
  else if (a <? b)%float then b
  else if (b <? a)%float then a
  else if PrimFloat.get_sign a then b else a.
End Math.

Section Handlers.

(** Which calls throw. Each theorem says what it assumes of it. *)
Variable faults : call -> bool.

(** The widget's [config] prop. *)
Variable config : BusinessConfig.

(** One call on a browser object: it is recorded; if it throws nothing else
    happens, otherwise the browser takes note of it. *)
Definition invoke (c : call) (note : browser -> browser) : M unit :=
  fun s =>
    let b := set_calls (calls (env s) ++ [(clock (env s), c)]) (env s) in
    if faults c
    then (thrown browser_error, {| ui := ui s; env := b |})
    else (returned tt, {| ui := ui s; env := note b |}).

Definition just (c : call) : M unit := invoke c (fun b => b).

Definition allocate : M handle :=
  fun s => (returned (next_handle (env s)),
            set_env (set_next_handle (S (next_handle (env s)))) s).

Definition Date_now : M Z := look clock.

Definition window_setTimeout (j : job) (ms : Z) : M handle :=
  t <- allocate ;;
  now <- Date_now ;;
  invoke (setTimeout t ms)
    (fun b => set_timers
       (store t {| due := now + ms; every := None; runs := j |} (timers b)) b) ;;
  ret t.

Definition window_setInterval (j : job) (ms : Z) : M handle :=
  t <- allocate ;;
  now <- Date_now ;;
  invoke (setInterval t ms)
    (fun b => set_timers
       (store t {| due := now + ms; every := Some ms; runs := j |} (timers b)) b) ;;
  ret t.

Definition window_clearTimeout (t : handle) : M unit :=
  invoke (clearTimeout t) (fun b => set_timers (drop t (timers b)) b).

Definition window_clearInterval (t : handle) : M unit :=
  invoke (clearInterval t) (fun b => set_timers (drop t (timers b)) b).

Definition AudioContext_new (sampleRate : Z) (st : ContextState) : M handle :=
  c <- allocate ;;
  invoke (new_AudioContext c sampleRate)
    (fun b => set_contexts (store c st (contexts b)) b) ;;
  ret c.

Definition AudioContext_state (c : handle) : M ContextState :=
  look (fun b => match lookup c (contexts b) with
                 | Some st => st
                 | None => closed
                 end).

(** Closing a context silences every node created on it. *)
Definition AudioContext_close (c : handle) : M unit :=
  invoke (context_close c)
    (fun b => set_contexts (store c closed (contexts b))
                (set_processors
                   (filter (fun p => negb (Nat.eqb c (snd (snd p))))
                      (processors b)) b)).

(** A change of state the browser makes on its own. *)
Definition browser_update (f : browser -> browser) : M unit :=
  fun s => (returned tt, set_env f s).

Definition park (p : parked) : browser -> browser :=
  fun b => set_awaits (awaits b ++ [p]) b.

(** *** [calculateRMS] (lines 121-127) *)

Definition calculateRMS (inputData : list float) : float :=
  let sum := fold_left (fun sum x => sum + x * x)%float inputData 0%float in
  PrimFloat.sqrt
    (sum / PrimFloat.of_uint63 (Uint63.of_Z (Z.of_nat (List.length inputData))))%float.

(** [rms > SILENCE_THRESHOLD] *)
Definition is_speech (inputData : list float) : bool :=
  (SILENCE_THRESHOLD <? calculateRMS inputData)%float.

(** *** [resetIdleTimer] (lines 129-138) *)

Definition resetIdleTimer : M unit :=
  old <- get idleTimerRef ;;
  match old with
  | Some t => window_clearTimeout t
  | None => ret tt
  end ;;
  t <- window_setTimeout idle_job IDLE_TIMEOUT_MS ;;
  put (set_idleTimerRef (Some t)).

(** *** [stopLiveSession] (lines 347-397) *)

Definition Session_close (s : handle) : M unit :=
  invoke (session_close s)
    (fun b => match lookup s (sessions b) with
              | Some ss =>
                  set_sessions
                    (store s {| opened := opened ss; closing := true |}
                       (sessions b)) b
              | None => b
              end).

Definition ScriptProcessor_disconnect (p : handle) : M unit :=
  invoke (processor_disconnect p)
    (fun b => set_processors (drop p (processors b)) b).

Definition swallow (m : M unit) : M unit := try_catch m (fun _ => ret tt).

(** [source => { try { source.stop(); } catch(e) {} }] *)
Definition stop_source (src : handle) : M unit :=
  swallow (just (source_stop src)).

Definition stopLiveSession (userInitiated : bool) : M unit :=
  when_ userInitiated
    (put (set_isUserDisconnectingRef true) ;; put (set_errorMsg None)) ;;
  put (set_isLiveActive false) ;;
  put (set_connectionStatus disconnected) ;;
  k <- get keepAliveIntervalRef ;;
  match k with
  | Some t => window_clearInterval t ;; put (set_keepAliveIntervalRef None)
  | None => ret tt
  end ;;
  i <- get idleTimerRef ;;
  match i with
  | Some t => window_clearTimeout t ;; put (set_idleTimerRef None)
  | None => ret tt
  end ;;
  sp <- get sessionPromiseRef ;;
  match sp with
  | Some s =>
      promise_then (swallow (Session_close s)) ;;
      put (set_sessionPromiseRef None)
  | None => ret tt
  end ;;
  st <- get streamRef ;;
  match st with
  | Some m => just (tracks_stop m) ;; put (set_streamRef None)
  | None => ret tt
  end ;;
  sp <- get scriptProcessorRef ;;
  match sp with
  | Some p => ScriptProcessor_disconnect p ;; put (set_scriptProcessorRef None)
  | None => ret tt
  end ;;
  srcs <- get sourcesRef ;;
  for_each stop_source srcs ;;
  put (set_sourcesRef []) ;;
  put (set_nextStartTimeRef 0%float) ;;
  ic <- get inputContextRef ;;
  match ic with
  | Some c => AudioContext_close c ;; put (set_inputContextRef None)
  | None => ret tt
  end ;;
  oc <- get outputContextRef ;;
  match oc with
  | Some c => AudioContext_close c ;; put (set_outputContextRef None)
  | None => ret tt
  end.

(** The callback given to [setTimeout] in [resetIdleTimer]. *)
Definition idle_timeout : M unit :=
  just (console_log "Idle timeout reached - closing session") ;;
  u <- get isUserDisconnectingRef ;;
  when_ (negb u) (put (set_errorMsg (Some inactivity_message))) ;;
  stopLiveSession false.

(** *** [startLiveSession] (lines 142-345), cut at its [await]s *)

Definition or_default (s dflt : string) : string :=
  match s with
  | EmptyString => dflt
  | _ => s
  end.

(** The [catch] of lines 339-344. *)
Definition start_guarded (body : M unit) : M unit :=
  try_catch body
    (fun e =>
       just (console_error "Failed to start live session:") ;;
       put (set_connectionStatus disconnected) ;;
       put (set_isLiveActive false) ;;
       put (set_errorMsg
              (Some ("Connection failed: "
                       ++ or_default (message e) "Unknown error")%string))).

(** The callback given to [setInterval] (lines 169-180): an oscillator at
    440 Hz through a gain node of gain 0, stopped 0.01 s later. *)
Definition keepalive : M unit :=
  oc <- get outputContextRef ;;
  match oc with
  | Some c =>
      st <- AudioContext_state c ;;
      match st with
      | running => just (oscillator_tone c 440 0 (1 # 100))
      | _ => ret tt
      end
  | None => ret tt
  end.

(** Lines 168-185: the keep-alive interval, then [getUserMedia]. *)
Definition start_microphone : M unit :=
  k <- window_setInterval keepalive_job KEEPALIVE_MS ;;
  put (set_keepAliveIntervalRef (Some k)) ;;
  invoke getUserMedia (park at_getUserMedia).

(** Lines 159-166, the head of the [try] block: both audio contexts, then
    [await outputContextRef.current.resume()] when the output context is
    suspended, or straight on to the keep-alive and [getUserMedia]. [ctx0]
    is the state in which the browser creates an audio context. *)
Definition open_contexts (ctx0 : ContextState) : M unit :=
  ic <- AudioContext_new 16000 ctx0 ;;
  put (set_inputContextRef (Some ic)) ;;
  oc <- AudioContext_new 24000 ctx0 ;;
  put (set_outputContextRef (Some oc)) ;;
  st <- AudioContext_state oc ;;
  match st with
  | suspended => invoke (context_resume oc) (park (at_resume oc))
  | _ => start_microphone
  end.

(** Lines 143-166: [startLiveSession] up to its first [await]. *)
Definition startLiveSession (apiKey : bool) (ctx0 : ContextState) : M unit :=
  live <- get isLiveActive ;;
  if live then ret tt else
  if negb apiKey then put (set_errorMsg (Some missing_key_message)) else
  put (set_errorMsg None) ;;
  put (set_connectionStatus connecting) ;;
  put (set_isLiveActive true) ;;
  put (set_isUserDisconnectingRef false) ;;
  now <- Date_now ;;
  put (set_lastSpeechTimeRef now) ;;
  resetIdleTimer ;;
  start_guarded (open_contexts ctx0).

(** After [await resume()]: [r] is the rejection, if any. *)
Definition after_resume (c : handle) (r : option exn) : M unit :=
  start_guarded
    (match r with
     | Some e => throw e
     | None =>
         browser_update
           (fun b => set_contexts (store c running (contexts b)) b) ;;
         start_microphone
     end).

Definition is_denial (e : exn) : bool :=
  String.eqb (name e) "NotAllowedError"
  || String.eqb (name e) "PermissionDeniedError".

(** Lines 186-337, after [await getUserMedia]: [r] is the rejection, if
    any; otherwise the stream is kept and the transport is opened. *)
Definition after_getUserMedia (r : option exn) : M unit :=
  start_guarded
    (match r with
     | Some e =>
         if is_denial e
         then throw {| name := "Error"; message := mic_denied_message |}
         else throw e
     | None =>
         stream <- allocate ;;
         put (set_streamRef (Some stream)) ;;
         s <- allocate ;;
         invoke (live_connect s (truthy (sitemapUrl config)))
           (fun b => set_sessions
                       (store s {| opened := false; closing := false |}
                          (sessions b)) b) ;;
         put (set_sessionPromiseRef (Some s))
     end).

(** *** The transport callbacks (lines 215-333) *)

(** The microphone callback, [processor.onaudioprocess] (lines 237-262).
    [s] is the session whose promise the closure holds. [createBlob] of
    [utils/audioUtils] only re-encodes the samples; the payload sent is
    identified with the frame. *)
Definition onaudioprocess (s : handle) (inputData : list float) : M unit :=
  let rms_is_speech := is_speech inputData in
  now <- Date_now ;;
  when_ rms_is_speech
    (put (set_lastSpeechTimeRef now) ;; resetIdleTimer) ;;
  last <- get lastSpeechTimeRef ;;
  when_ (now - last <? SPEECH_HANGOVER_MS)
    (promise_then
       (try_catch (just (send_media s inputData))
          (fun _ => just (console_error "Error sending audio:")))).

(** The callback of the 800 ms [setTimeout] in [onopen] (lines 229-266). *)
Definition attach_microphone (s : handle) : M unit :=
  ic <- get inputContextRef ;;
  st <- get streamRef ;;
  match ic, st with
  | Some c, Some _ =>
      u <- get isUserDisconnectingRef ;;
      if u then ret tt else
      p <- allocate ;;
      invoke (createScriptProcessor p c)
        (fun b => set_processors (store p (s, c) (processors b)) b) ;;
      put (set_scriptProcessorRef (Some p))
  | _, _ => ret tt
  end.

Definition onopen (s : handle) : M unit :=
  just (console_log "Session opened") ;;
  put (set_connectionStatus connected) ;;
  promise_then (just (send_text s greeting_instruction)) ;;
  _ <- window_setTimeout (mic_job s) MIC_DELAY_MS ;;
  ret tt.

Record WebRef := { web_title : option string; web_uri : option string }.
Record GroundingChunk := { web : option WebRef }.

Record LiveServerMessage := {
  inlineData : option string;                       (* base64 audio *)
  groundingChunks : option (list GroundingChunk);
  turnComplete : bool
}.

(** [s || dflt] on an optional string. *)
Definition string_or (s : option string) (dflt : string) : string :=
  match s with
  | Some t => or_default t dflt
  | None => dflt
  end.

(** Lines 299-304. *)
Definition newSources_of (chunks : list GroundingChunk) : list Citation :=
  flat_map
    (fun chunk =>
       match web chunk with
       | Some w =>
           if truthy (web_uri w)
           then [ {| title := string_or (web_title w) "Source";
                     uri := string_or (web_uri w) "" |} ]
           else []
       | None => []
       end)
    chunks.

Definition with_sources (m : ChatMessage) (srcs : list Citation) : ChatMessage :=
  {| id := id m; role := role m; text := text m; timestamp := timestamp m;
     sources := Some srcs |}.

(** The updater given to [setMessages] (lines 306-313). *)
Definition attach_sources (newSources : list Citation) (prev : list ChatMessage)
  : list ChatMessage :=
  match nth_error prev (List.length prev - 1) with
  | Some lastMsg =>
      if Role_eqb (role lastMsg) model
      then removelast prev ++ [with_sources lastMsg newSources]
      else prev
  | None => prev
  end.

Definition decode_error : exn :=
  {| name := "Error"; message := "decode" |}.

(** The audio part of [onmessage] (lines 269-295). [currentTime] is
    [ctx.currentTime] as the handler reads it; [decoded] is what
    [decodeAudioData] of [utils/audioUtils] yields for the chunk: the
    duration of the decoded buffer, or [None] when decoding throws. The
    handler is taken to finish before the next event is dispatched. *)
Definition enqueue_audio (msg : LiveServerMessage) (currentTime : float)
    (decoded : option float) : M unit :=
  oc <- get outputContextRef ;;
  match (if truthy (inlineData msg) then oc else None) with
  | Some _ =>
      resetIdleTimer ;;
      next <- get nextStartTimeRef ;;
      put (set_nextStartTimeRef (Math.max next currentTime)) ;;
      try_catch
        (match decoded with
         | None => throw decode_error
         | Some duration =>
             src <- allocate ;;
             start <- get nextStartTimeRef ;;
             just (source_start src start duration) ;;
             put (set_nextStartTimeRef (start + duration)%float) ;;
             srcs <- get sourcesRef ;;
             put (set_sourcesRef (srcs ++ [src]))
         end)
        (fun _ => just (console_error "Audio decode error:"))
  | None => ret tt
  end.

(** The grounding part of [onmessage] (lines 297-315). *)
Definition attach_citations (msg : LiveServerMessage) : M unit :=
  match groundingChunks msg with
  | Some ((_ :: _) as chunks) =>
      match newSources_of chunks with
      | [] => ret tt
      | newSources =>
          put (fun w => set_messages (attach_sources newSources (messages w)) w)
      end
  | _ => ret tt
  end.

(** [onmessage] (lines 268-320). *)
Definition onmessage (msg : LiveServerMessage) (currentTime : float)
    (decoded : option float) : M unit :=
  enqueue_audio msg currentTime decoded ;;
  attach_citations msg.

(** The ['ended'] listener of a playback source (lines 283-286). *)
Definition onended (src : handle) : M unit :=
  put (fun w => set_sourcesRef (remove_once src (sourcesRef w)) w).

Definition onclose : M unit :=
  just (console_log "Session closed") ;;
  u <- get isUserDisconnectingRef ;;
  when_ (negb u) (put (set_errorMsg (Some timed_out_message))) ;;
  stopLiveSession false.

Definition onerror (err_message : string) : M unit :=
  just (console_error "Session error:") ;;
  put (set_errorMsg
         (Some ("Session Error: "
                  ++ or_default err_message "Connection interrupted")%string)) ;;
  stopLiveSession false.

(* ================================================================== *)
(** ** The event loop                                                  *)
(* ================================================================== *)

(** What the browser, the user or the transport can make happen. Handlers
    run one at a time, each to its end (or to its next [await]). *)
Inductive event :=
| click_start (apiKey : bool) (ctx0 : ContextState)
| resume_settled (c : handle) (r : option exn)
| getUserMedia_settled (r : option exn)
| transport_open (s : handle)
| transport_message (s : handle) (msg : LiveServerMessage)
    (currentTime : float) (decoded : option float)
| transport_close (s : handle)
| transport_error (s : handle) (err_message : string)
| timer_fires (t : handle)
| audio_process (p : handle) (inputData : list float)
| source_ended (src : handle)
| click_stop.

Definition run_job (j : job) : M unit :=
  match j with
  | idle_job => idle_timeout
  | mic_job s => attach_microphone s
  | keepalive_job => keepalive
  end.

(** A one-shot timer is spent when it fires; an interval is due again one
    period later. *)
Definition fired (t : handle) (tm : timer) (b : browser) : browser :=
  match every tm with
  | Some ms =>
      set_timers
        (store t {| due := clock b + ms; every := Some ms; runs := runs tm |}
           (timers b)) b
  | None => set_timers (drop t (timers b)) b
  end.

(** One event. [None]: the event cannot happen in this state (a timer not
    yet due, a callback of an object that is gone). *)
Definition step (e : event) (s : world) : option world :=
  match e with
  | click_start apiKey ctx0 => Some (exec (startLiveSession apiKey ctx0) s)
  | resume_settled c r =>
      if existsb (parked_eqb (at_resume c)) (awaits (env s))
      then Some (exec (after_resume c r)
                   (set_env (fun b => set_awaits
                                        (unpark (at_resume c) (awaits b)) b) s))
      else None
  | getUserMedia_settled r =>
      if existsb (parked_eqb at_getUserMedia) (awaits (env s))
      then Some (exec (after_getUserMedia r)
                   (set_env (fun b => set_awaits
                                        (unpark at_getUserMedia (awaits b)) b) s))
      else None
  | transport_open sid =>
      match lookup sid (sessions (env s)) with
      | Some ss =>
          if opened ss then None
          else Some (exec (onopen sid)
                       (set_env (fun b => set_sessions
                                            (store sid {| opened := true;
                                                          closing := closing ss |}
                                               (sessions b)) b) s))
      | None => None
      end
  | transport_message sid msg currentTime decoded =>
      match lookup sid (sessions (env s)) with
      | Some ss =>
          if opened ss
          then Some (exec (onmessage msg currentTime decoded) s)
          else None
      | None => None
      end
  | transport_close sid =>
      match lookup sid (sessions (env s)) with
      | Some _ =>
          Some (exec onclose
                  (set_env (fun b => set_sessions (drop sid (sessions b)) b) s))
      | None => None
      end
  | transport_error sid err_message =>
      match lookup sid (sessions (env s)) with
      | Some _ => Some (exec (onerror err_message) s)
      | None => None
      end
  | timer_fires t =>
      match lookup t (timers (env s)) with
      | Some tm =>
          if due tm <=? clock (env s)
          then Some (exec (run_job (runs tm)) (set_env (fired t tm) s))
          else None
      | None => None
      end
  | audio_process p inputData =>
      match lookup p (processors (env s)) with
      | Some (sid, _) => Some (exec (onaudioprocess sid inputData) s)
      | None => None
      end
  | source_ended src => Some (exec (onended src) s)
  | click_stop => Some (exec (stopLiveSession true) s)
  end.

(** Time only moves forward. *)
Definition at_time (t : Z) (s : world) : option world :=
  if clock (env s) <=? t then Some (set_env (set_clock t) s) else None.

(** A history: events with the [Date.now()] at which each is handled. *)
Fixpoint run (h : list (Z * event)) (s : world) : option world :=
  match h with
  | [] => Some s
  | (t, e) :: r =>
      match at_time t s with
      | Some s1 =>
          match step e s1 with
          | Some s2 => run r s2
          | None => None
          end
      | None => None
      end
  end.

End Handlers.

(** The browser in which no call throws. *)
Definition reliable : call -> bool := fun _ => false.

(* ================================================================== *)
(** ** Callbacks of the session promise, in their own turn             *)
(* ================================================================== *)

(** The three callbacks the component gives to [sessionPromise.then] do not
    run where they are written. JavaScript keeps each until the promise is
    resolved and the handler that registered it has returned, and runs the
    callbacks of one promise in the order they were given. [Deferred] is the
    event loop with that queue: the handlers that call [then]
    ([stopLiveSession], [onopen], [onaudioprocess]) and those that call
    them are written again, registering the callback instead of running it;
    every other handler is the one above. When the promise of
    [ai.live.connect] is resolved is the library's choice, so it is an event
    of its own, free to come before or after the transport opens. A promise
    that is rejected never runs these callbacks (none has a rejection
    handler): it is a promise that stays pending. *)
Module Deferred.

Section Handlers.

Variable faults : call -> bool.
Variable config : BusinessConfig.

(** [sessionPromise.then(callback)] *)
Definition Promise_then (s : handle) (r : reaction) : M unit :=
  browser_update (park (at_then s r)).

(** The callback, run with the session of promise [s]. *)
Definition react (s : handle) (r : reaction) : M unit :=
  match r with
  | send_greeting => just faults (send_text s greeting_instruction)
  | send_frame pcm =>
      try_catch (just faults (send_media s pcm))
        (fun _ => just faults (console_error "Error sending audio:"))
  | hang_up => swallow (Session_close faults s)
  end.

(** [stopLiveSession] (lines 347-397) *)
Definition stopLiveSession (userInitiated : bool) : M unit :=
  when_ userInitiated
    (put (set_isUserDisconnectingRef true) ;; put (set_errorMsg None)) ;;
  put (set_isLiveActive false) ;;
  put (set_connectionStatus disconnected) ;;
  k <- get keepAliveIntervalRef ;;
  match k with
  | Some t => window_clearInterval faults t ;; put (set_keepAliveIntervalRef None)
  | None => ret tt
  end ;;
  i <- get idleTimerRef ;;
  match i with
  | Some t => window_clearTimeout faults t ;; put (set_idleTimerRef None)
  | None => ret tt
  end ;;
  sp <- get sessionPromiseRef ;;
  match sp with
  | Some s => Promise_then s hang_up ;; put (set_sessionPromiseRef None)
  | None => ret tt
  end ;;
  st <- get streamRef ;;
  match st with
  | Some m => just faults (tracks_stop m) ;; put (set_streamRef None)
  | None => ret tt
  end ;;
  sp <- get scriptProcessorRef ;;
  match sp with
  | Some p =>
      ScriptProcessor_disconnect faults p ;; put (set_scriptProcessorRef None)
  | None => ret tt
  end ;;
  srcs <- get sourcesRef ;;
  for_each (stop_source faults) srcs ;;
  put (set_sourcesRef []) ;;
  put (set_nextStartTimeRef 0%float) ;;
  ic <- get inputContextRef ;;
  match ic with
  | Some c => AudioContext_close faults c ;; put (set_inputContextRef None)
  | None => ret tt
  end ;;
  oc <- get outputContextRef ;;
  match oc with
  | Some c => AudioContext_close faults c ;; put (set_outputContextRef None)
  | None => ret tt
  end.

(** The callback given to [setTimeout] in [resetIdleTimer]. *)
Definition idle_timeout : M unit :=
  just faults (console_log "Idle timeout reached - closing session") ;;
  u <- get isUserDisconnectingRef ;;
  when_ (negb u) (put (set_errorMsg (Some inactivity_message))) ;;
  stopLiveSession false.

(** Lines 186-337, after [await getUserMedia]. [ai.live.connect] returns
    the promise of a session at once; the promise is pending. *)
Definition after_getUserMedia (r : option exn) : M unit :=
  start_guarded faults
    (match r with
     | Some e =>
         if is_denial e
         then throw {| name := "Error"; message := mic_denied_message |}
         else throw e
     | None =>
         stream <- allocate ;;
         put (set_streamRef (Some stream)) ;;
         s <- allocate ;;
         invoke faults (live_connect s (truthy (sitemapUrl config)))
           (fun b => park (at_connect s)
                       (set_sessions
                          (store s {| opened := false; closing := false |}
                             (sessions b)) b)) ;;
         put (set_sessionPromiseRef (Some s))
     end).

(** [processor.onaudioprocess] (lines 237-262) *)
Definition onaudioprocess (s : handle) (inputData : list float) : M unit :=
  let rms_is_speech := is_speech inputData in
  now <- Date_now ;;
  when_ rms_is_speech
    (put (set_lastSpeechTimeRef now) ;; resetIdleTimer faults) ;;
  last <- get lastSpeechTimeRef ;;
  when_ (now - last <? SPEECH_HANGOVER_MS)
    (Promise_then s (send_frame inputData)).

(** [onopen] (lines 215-267) *)
Definition onopen (s : handle) : M unit :=
  just faults (console_log "Session opened") ;;
  put (set_connectionStatus connected) ;;
  Promise_then s send_greeting ;;
  _ <- window_setTimeout faults (mic_job s) MIC_DELAY_MS ;;
  ret tt.

Definition onclose : M unit :=
  just faults (console_log "Session closed") ;;
  u <- get isUserDisconnectingRef ;;
  when_ (negb u) (put (set_errorMsg (Some timed_out_message))) ;;
  stopLiveSession false.

Definition onerror (err_message : string) : M unit :=
  just faults (console_error "Session error:") ;;
  put (set_errorMsg
         (Some ("Session Error: "
                  ++ or_default err_message "Connection interrupted")%string)) ;;
  stopLiveSession false.

Definition run_job (j : job) : M unit :=
  match j with
  | idle_job => idle_timeout
  | mic_job s => attach_microphone faults s
  | keepalive_job => keepalive faults
  end.

(** *** The event loop *)

Inductive event :=
| click_start (apiKey : bool) (ctx0 : ContextState)
| resume_settled (c : handle) (r : option exn)
| getUserMedia_settled (r : option exn)
| connect_resolved (s : handle)
| transport_open (s : handle)
| transport_message (s : handle) (msg : LiveServerMessage)
    (currentTime : float) (decoded : option float)
| transport_close (s : handle)
| transport_error (s : handle) (err_message : string)
| timer_fires (t : handle)
| audio_process (p : handle) (inputData : list float)
| source_ended (src : handle)
| click_stop.

(** The promise of session [s] is not resolved yet. *)
Definition pending (b : browser) (s : handle) : bool :=
  existsb (parked_eqb (at_connect s)) (awaits b).

(** A callback whose promise is resolved. *)
Definition ready (b : browser) (p : parked) : bool :=
  match p with
  | at_then s _ => negb (pending b s)
  | _ => false
  end.

Definition run_ready (p : parked) : M unit :=
  match p with
  | at_then s r => react s r
  | _ => ret tt
  end.

(** After a handler has returned: every callback whose promise is resolved
    runs, oldest first, each on its own (what one throws stops no other). *)
Definition microtasks (w : world) : world :=
  fold_left (fun w p => exec (run_ready p) w)
    (filter (ready (env w)) (awaits (env w)))
    (set_env (fun b => set_awaits
                         (filter (fun p => negb (ready b p)) (awaits b)) b) w).

(** What runs when the event is dispatched. [None]: the event cannot happen
    in this state. *)
Definition dispatch (e : event) (s : world) : option world :=
  match e with
  | click_start apiKey ctx0 =>
      Some (exec (startLiveSession faults apiKey ctx0) s)
  | resume_settled c r =>
      if existsb (parked_eqb (at_resume c)) (awaits (env s))
      then Some (exec (after_resume faults c r)
                   (set_env (fun b => set_awaits
                                        (unpark (at_resume c) (awaits b)) b) s))
      else None
  | getUserMedia_settled r =>
      if existsb (parked_eqb at_getUserMedia) (awaits (env s))
      then Some (exec (after_getUserMedia r)
                   (set_env (fun b => set_awaits
                                        (unpark at_getUserMedia (awaits b)) b) s))
      else None
  | connect_resolved sid =>
      if pending (env s) sid
      then Some (set_env (fun b => set_awaits
                                     (unpark (at_connect sid) (awaits b)) b) s)
      else None
  | transport_open sid =>
      match lookup sid (sessions (env s)) with
      | Some ss =>
          if opened ss then None
          else Some (exec (onopen sid)
                       (set_env (fun b => set_sessions
                                            (store sid {| opened := true;
                                                          closing := closing ss |}
                                               (sessions b)) b) s))
      | None => None
      end
  | transport_message sid msg currentTime decoded =>
      match lookup sid (sessions (env s)) with
      | Some ss =>
          if opened ss
          then Some (exec (onmessage faults msg currentTime decoded) s)
          else None
      | None => None
      end
  | transport_close sid =>
      match lookup sid (sessions (env s)) with
      | Some _ =>
          Some (exec onclose
                  (set_env (fun b => set_sessions (drop sid (sessions b)) b) s))
      | None => None
      end
  | transport_error sid err_message =>
      match lookup sid (sessions (env s)) with
      | Some _ => Some (exec (onerror err_message) s)
      | None => None
      end
  | timer_fires t =>
      match lookup t (timers (env s)) with
      | Some tm =>
          if due tm <=? clock (env s)
          then Some (exec (run_job (runs tm)) (set_env (fired t tm) s))
          else None
      | None => None
      end
  | audio_process p inputData =>
      match lookup p (processors (env s)) with
      | Some (sid, _) => Some (exec (onaudioprocess sid inputData) s)
      | None => None
      end
  | source_ended src => Some (exec (onended src) s)
  | click_stop => Some (exec (stopLiveSession true) s)
  end.

(** One turn of the event loop: the handler, then the callbacks that are
    ready. *)
Definition step (e : event) (s : world) : option world :=
  match dispatch e s with
  | Some s' => Some (microtasks s')
  | None => None
  end.

(** A history: events with the [Date.now()] at which each is handled. *)
Fixpoint run (h : list (Z * event)) (s : world) : option world :=
  match h with
  | [] => Some s
  | (t, e) :: r =>
      match at_time t s with
      | Some s1 =>
          match step e s1 with
          | Some s2 => run r s2
          | None => None
          end
      | None => None
      end
  end.

End Handlers.

End Deferred.

(* ================================================================== *)
(** ** Reasoning about handlers                                        *)
(* ================================================================== *)

(** A relation between the state before and the state after that holds of
    every step of a computation holds of the whole, provided it is
    reflexive and transitive: frame properties, growth of the call log and
    preservation of invariants are all of this shape. *)
Section Steady.

Context (R : world -> world -> Prop) {R_pre : PreOrder R}.

Definition steady {A} (m : M A) : Prop := forall s, R s (snd (m s)).

Lemma steady_ret {A} (a : A) : steady (ret a).
Proof. intro s. cbn. reflexivity. Qed.

Lemma steady_throw {A} (e : exn) : steady (@throw A e).
Proof. intro s. cbn. reflexivity. Qed.

Lemma steady_get {A} (f : widget -> A) : steady (get f).
Proof. intro s. cbn. reflexivity. Qed.

Lemma steady_look {A} (f : browser -> A) : steady (look f).
Proof. intro s. cbn. reflexivity. Qed.

Lemma steady_bind {A B} (m : M A) (k : A -> M B) :
  steady m -> (forall a, steady (k a)) -> steady (bind m k).
Proof.
  intros Hm Hk s. unfold bind.
  specialize (Hm s). destruct (m s) as [[a | e] s1]; cbn in *.
  - etransitivity; [exact Hm | apply Hk].
  - exact Hm.
Qed.

Lemma steady_try_catch {A} (m : M A) (h : exn -> M A) :
  steady m -> (forall e, steady (h e)) -> steady (try_catch m h).
Proof.
  intros Hm Hh s. unfold try_catch.
  specialize (Hm s). destruct (m s) as [[a | e] s1]; cbn in *.
  - exact Hm.
  - etransitivity; [exact Hm | apply Hh].
Qed.

Lemma steady_swallow (m : M unit) : steady m -> steady (swallow m).
Proof. intro Hm. apply steady_try_catch; [exact Hm | intro; apply steady_ret]. Qed.

Lemma steady_promise_then (m : M unit) : steady m -> steady (promise_then m).
Proof. intros Hm s. exact (Hm s). Qed.

Lemma steady_when (b : bool) (m : M unit) : steady m -> steady (when_ b m).
Proof. intro Hm. destruct b; [exact Hm | apply steady_ret]. Qed.

Lemma steady_for_each {A} (f : A -> M unit) (l : list A) :
  (forall a, steady (f a)) -> steady (for_each f l).
Proof.
  intro Hf. induction l as [| x r IH]; cbn.
  - apply steady_ret.
  - apply steady_bind; [apply Hf | intros _; exact IH].
Qed.

Lemma steady_exec {A} (m : M A) (s : world) : steady m -> R s (exec m s).
Proof. intro Hm. exact (Hm s). Qed.

End Steady.

(** Breaks a handler into its primitive steps: what is left are goals about
    [put], [invoke] and [allocate], which depend on the relation. *)
Tactic Notation "rule" uconstr(L) :=
  apply L;
  try match goal with
      | |- PreOrder _ => typeclasses eauto
      end.

Ltac steady_split :=
  repeat lazymatch goal with
    | |- steady _ (match None with _ => _ end) => cbv beta iota
    | |- steady _ (match Some _ with _ => _ end) => cbv beta iota
    | |- steady _ (ret _) => rule steady_ret
    | |- steady _ (throw _) => rule steady_throw
    | |- steady _ (get _) => rule steady_get
    | |- steady _ (look _) => rule steady_look
    | |- steady _ (swallow _) => rule steady_swallow
    | |- steady _ (promise_then _) => rule steady_promise_then
    | |- steady _ (when_ true _) => unfold when_
    | |- steady _ (when_ false _) => unfold when_
    | |- steady _ (when_ _ _) => rule steady_when
    | |- steady _ (for_each _ _) => rule steady_for_each; intro
    | |- steady _ (stop_source _ _) => unfold stop_source, just
    | |- steady _ (bind _ _) => rule steady_bind; [| intro]
    | |- steady _ (try_catch _ _) => rule steady_try_catch; [| intro]
    | |- steady _ (match ?x with _ => _ end) => destruct x
    end.

(** *** Frame properties: what a computation leaves alone *)

Definition unchanged {T} (f : world -> T) : world -> world -> Prop :=
  fun s s' => f s' = f s.

#[export] Instance unchanged_pre {T} (f : world -> T) : PreOrder (unchanged f).
Proof.
  split.
  - intro s. reflexivity.
  - intros a b c Hab Hbc. unfold unchanged in *. congruence.
Qed.

Definition last_speech (s : world) : Z := lastSpeechTimeRef (ui s).
Definition now_of (s : world) : Z := clock (env s).

(** Settles a frame goal on a primitive by running it. *)
Ltac frame_prim :=
  let s := fresh "s" in
  intro s;
  unfold unchanged, last_speech, now_of, put, invoke, just, allocate,
    browser_update, set_ui, set_env;
  cbn;
  repeat match goal with
         | |- context [if ?b then _ else _] => destruct b; cbn
         | |- context [match ?x with _ => _ end] => destruct x; cbn
         end;
  reflexivity.

(** Unfolds the handlers down to the primitive steps. *)
Ltac unfold_handlers :=
  unfold onmessage, enqueue_audio, attach_citations, onaudioprocess, onopen, onclose, onerror, onended,
    idle_timeout, keepalive, attach_microphone, startLiveSession,
    open_contexts,
    after_resume, after_getUserMedia, start_guarded, start_microphone,
    stopLiveSession, resetIdleTimer, Session_close, ScriptProcessor_disconnect,
    AudioContext_close, AudioContext_new, AudioContext_state,
    window_setTimeout, window_setInterval, window_clearTimeout,
    window_clearInterval, Date_now, just.

Ltac frame := unfold_handlers; steady_split; try frame_prim.

(** Runs a handler on a symbolic state, splitting on whatever it inspects. *)
Ltac unfold_monad :=
  cbv beta iota zeta delta
    [bind ret throw try_catch promise_then swallow when_ get put look exec
     invoke allocate browser_update set_ui set_env reliable].

Ltac evaluate :=
  repeat (unfold_monad; cbn;
          match goal with
          | |- context [match ?x with _ => _ end] =>
              lazymatch x with
              | context [match _ with _ => _ end] => fail
              | _ => destruct x eqn:?
              end
          end);
  unfold_monad; cbn.

(* ================================================================== *)
(** ** Grounding citations                                             *)
(* ================================================================== *)

Lemma attach_sources_snoc newSources init m :
  attach_sources newSources (init ++ [m]) =
  if Role_eqb (role m) model
  then init ++ [with_sources m newSources]
  else init ++ [m].
Proof.
  unfold attach_sources.
  rewrite length_app, Nat.add_sub. cbn [List.length].
  rewrite nth_error_app2 by lia. rewrite Nat.sub_diag. cbn.
  rewrite removelast_last. reflexivity.
Qed.

Lemma attach_sources_nil newSources : attach_sources newSources [] = [].
Proof. reflexivity. Qed.

Lemma attach_sources_length newSources prev :
  List.length (attach_sources newSources prev) = List.length prev.
Proof.
  destruct prev as [| a l] using rev_ind; [reflexivity |].
  rewrite attach_sources_snoc.
  destruct (Role_eqb (role a) model); rewrite !length_app; reflexivity.
Qed.

(** When no call throws, the audio part of [onmessage] returns. *)
Lemma enqueue_audio_returns msg currentTime decoded s :
  fst (enqueue_audio reliable msg currentTime decoded s) = returned tt.
Proof. unfold_handlers. evaluate. all: reflexivity. Qed.

Lemma enqueue_audio_messages faults msg currentTime decoded :
  steady (unchanged (fun s => messages (ui s)))
    (enqueue_audio faults msg currentTime decoded).
Proof. frame. Qed.

(** What [onmessage] does to the transcript, when no call throws. *)
Lemma onmessage_messages msg currentTime decoded s :
  messages (ui (exec (onmessage reliable msg currentTime decoded) s)) =
  match groundingChunks msg with
  | Some chunks =>
      match newSources_of chunks with
      | [] => messages (ui s)
      | newSources => attach_sources newSources (messages (ui s))
      end
  | None => messages (ui s)
  end.
Proof.
  unfold exec, onmessage, bind.
  pose proof (enqueue_audio_returns msg currentTime decoded s) as Hr.
  pose proof (enqueue_audio_messages reliable msg currentTime decoded s) as Hm.
  destruct (enqueue_audio reliable msg currentTime decoded s) as [r s1].
  cbn in Hr, Hm. subst r. unfold unchanged in Hm. rewrite <- Hm.
  unfold attach_citations.
  destruct (groundingChunks msg) as [[| g chunks] |]; try reflexivity.
  destruct (newSources_of (g :: chunks)); reflexivity.
Qed.

(** The citations of well-formed chunks: each one's title and uri. *)
Lemma newSources_of_cons_web t u chunks :
  u <> EmptyString -> t <> EmptyString ->
  newSources_of
    ({| web := Some {| web_title := Some t; web_uri := Some u |} |} :: chunks)
  = {| title := t; uri := u |} :: newSources_of chunks.
Proof.
  intros Hu Ht. unfold newSources_of. cbn.
  destruct u; [congruence |]. destruct t; [congruence |]. reflexivity.
Qed.

(** The citations an event carries, in the words of the claim: one
    (title, uri) pair for each chunk that names a web page by a non-empty
    uri, in the order of the chunks, with "Source" for a missing or empty
    title; a chunk that names none carries nothing. *)
Inductive cites : list GroundingChunk -> list Citation -> Prop :=
| cites_none : cites [] []
| cites_page chunk w u t rest cited :
    web chunk = Some w ->
    web_uri w = Some u -> u <> EmptyString ->
    t = match web_title w with
        | Some EmptyString | None => "Source"%string
        | Some t => t
        end ->
    cites rest cited ->
    cites (chunk :: rest) ({| title := t; uri := u |} :: cited)
| cites_skip chunk rest cited :
    match web chunk with
    | Some w => web_uri w = None \/ web_uri w = Some EmptyString
    | None => True
    end ->
    cites rest cited ->
    cites (chunk :: rest) cited.

Lemma cites_newSources chunks cited :
  cites chunks cited -> newSources_of chunks = cited.
Proof.
  intro H. induction H as [| chunk w u t rest cited Hw Hu Hne Ht _ IH
                             | chunk rest cited Hw _ IH].
  - reflexivity.
  - unfold newSources_of in *. cbn [flat_map]. rewrite Hw, Hu, IH. subst t.
    destruct u as [| c u]; [congruence |]. cbn [truthy app string_or].
    destruct (web_title w) as [[| c' t] |]; reflexivity.
  - unfold newSources_of in *. cbn [flat_map]. rewrite IH.
    destruct (web chunk) as [w |]; [| reflexivity].
    destruct Hw as [-> | ->]; reflexivity.
Qed.

(** Every list of chunks carries some list of citations. *)
Lemma cites_total chunks : cites chunks (newSources_of chunks).
Proof.
  induction chunks as [| chunk rest IH]; [constructor |].
  unfold newSources_of in *. cbn [flat_map].
  destruct (web chunk) as [w |] eqn:Hw.
  - destruct (web_uri w) as [[| c u] |] eqn:Hu; cbn [truthy app].
    + apply cites_skip; [rewrite Hw; auto | exact IH].
    + eapply cites_page; try eassumption; [discriminate |].
      cbn [string_or]. destruct (web_title w) as [[| c' t] |]; reflexivity.
    + apply cites_skip; [rewrite Hw; auto | exact IH].
  - apply cites_skip; [rewrite Hw; exact I | exact IH].
Qed.

(** C10. A grounding event that carries at least one citation never adds
    or removes a transcript entry. When the last entry exists and has role
    [model], that entry alone changes: its [sources] become the citations of
    the event, its id, role, text and timestamp stay, and the entries before
    it stay. In every other case (no entry, or a last entry of another role)
    the transcript is left exactly as it was. *)
Theorem citations_attach_to_last_model_entry
    (msg : LiveServerMessage) (chunks : list GroundingChunk)
    (cited : list Citation)
    (currentTime : float) (decoded : option float) (s : world) :
  groundingChunks msg = Some chunks ->
  cites chunks cited ->
  cited <> [] ->
  let before := messages (ui s) in
  let after := messages (ui (exec (onmessage reliable msg currentTime decoded) s)) in
  List.length after = List.length before
  /\ (forall init m, before = init ++ [m] -> role m = model ->
      exists m',
        after = init ++ [m']
        /\ sources m' = Some cited
        /\ id m' = id m /\ role m' = model /\ text m' = text m
        /\ timestamp m' = timestamp m)
  /\ (forall init m, before = init ++ [m] -> role m <> model -> after = before)
  /\ (before = [] -> after = []).
Proof.
  intros Hg Hc Hne before after.
  apply cites_newSources in Hc.
  assert (Hafter : after = attach_sources cited before).
  { unfold after, before. rewrite onmessage_messages, Hg, Hc.
    destruct cited; [congruence | reflexivity]. }
  rewrite Hafter. repeat split.
  - apply attach_sources_length.
  - intros init m -> Hm. rewrite attach_sources_snoc, Hm.
    exists (with_sources m cited). cbn. repeat split. exact Hm.
  - intros init m -> Hm. rewrite attach_sources_snoc.
    destruct (role m); try congruence; reflexivity.
  - intros ->. reflexivity.
Qed.

Definition demo_answer : ChatMessage :=
  {| id := "1"; role := model; text := "We print stickers."; timestamp := 1;
     sources := None |}.

Definition demo_chunks : list GroundingChunk :=
  [ {| web := Some {| web_title := Some "Shop"%string;
                      web_uri := Some "https://qrcodestickers.co.uk/shop"%string |} |};
    {| web := None |} ].

Definition demo_grounding : LiveServerMessage :=
  {| inlineData := None; groundingChunks := Some demo_chunks;
     turnComplete := false |}.

Definition demo_cited : list Citation :=
  [ {| title := "Shop"; uri := "https://qrcodestickers.co.uk/shop" |} ].

Definition demo_transcript (l : list ChatMessage) : world :=
  set_ui (set_messages l) (initial 0).

Lemma demo_chunks_cite : cites demo_chunks demo_cited.
Proof.
  eapply cites_page; try reflexivity; [discriminate |].
  apply cites_skip; [exact I | constructor].
Qed.

Lemma citations_attach_to_last_model_entry_witness :
  groundingChunks demo_grounding = Some demo_chunks
  /\ cites demo_chunks demo_cited
  /\ demo_cited <> []
  /\ exists m',
       messages (ui (exec (onmessage reliable demo_grounding 0 None)
                       (demo_transcript [demo_answer])))
       = [m']
       /\ sources m' = Some demo_cited
       /\ text m' = "We print stickers."%string.
Proof.
  split; [reflexivity |]. split; [exact demo_chunks_cite |].
  split; [discriminate |].
  destruct (proj1 (proj2 (citations_attach_to_last_model_entry
                            demo_grounding demo_chunks demo_cited 0 None
                            (demo_transcript [demo_answer]) eq_refl
                            demo_chunks_cite ltac:(discriminate)))
              [] demo_answer eq_refl eq_refl)
    as (m' & H1 & H2 & _ & _ & H5 & _).
  exists m'. split; [exact H1 |]. split; [exact H2 | exact H5].
Defined.

(* ================================================================== *)
(** ** Teardown                                                        *)
(* ================================================================== *)

(** The calls [stopLiveSession] wraps in [try]/[catch]. *)
Definition guarded (c : call) : bool :=
  match c with
  | session_close _ | source_stop _ => true
  | _ => false
  end.

(** [faults] throws at most at the calls [allowed] lets through. *)
Definition only_throws (allowed faults : call -> bool) : Prop :=
  forall c, faults c = true -> allowed c = true.

Lemma spared allowed faults c :
  only_throws allowed faults -> allowed c = false -> faults c = false.
Proof.
  intros H Hc. destruct (faults c) eqn:E; [| reflexivity].
  apply H in E. congruence.
Qed.

(** Rewrites [faults c] to [false] wherever [c] is visibly not allowed to
    throw. *)
Ltac spare H :=
  match type of H with
  | only_throws ?allowed ?faults =>
      repeat match goal with
             | |- context [faults ?c] =>
                 rewrite (spared allowed faults c H eq_refl)
             end
  end.

Lemma reliable_only_throws allowed : only_throws allowed reliable.
Proof. intros c H. discriminate H. Qed.

Definition opt_call (f : handle -> call) (r : option handle) : list call :=
  match r with
  | Some h => [f h]
  | None => []
  end.

(** Every release a teardown owes, given what the refs hold. *)
Definition teardown_calls (w : widget) : list call :=
  opt_call clearInterval (keepAliveIntervalRef w)
  ++ opt_call clearTimeout (idleTimerRef w)
  ++ opt_call session_close (sessionPromiseRef w)
  ++ opt_call tracks_stop (streamRef w)
  ++ opt_call processor_disconnect (scriptProcessorRef w)
  ++ map source_stop (sourcesRef w)
  ++ opt_call context_close (inputContextRef w)
  ++ opt_call context_close (outputContextRef w).

(** The component once every step of the teardown has run. *)
Definition released (w : widget) : widget :=
  {| messages := messages w;
     isLiveActive := false;
     connectionStatus := disconnected;
     errorMsg := errorMsg w;
     sessionPromiseRef := None;
     inputContextRef := None;
     outputContextRef := None;
     nextStartTimeRef := 0%float;
     sourcesRef := [];
     streamRef := None;
     scriptProcessorRef := None;
     keepAliveIntervalRef := None;
     isUserDisconnectingRef := isUserDisconnectingRef w;
     lastSpeechTimeRef := lastSpeechTimeRef w;
     idleTimerRef := None |}.

(** Lines 348-351. *)
Definition by_user (userInitiated : bool) (w : widget) : widget :=
  if userInitiated
  then set_errorMsg None (set_isUserDisconnectingRef true w)
  else w.

(** The calls made between two states. *)
Definition made (s : world) : list call := map snd (calls (env s)).

(** A summary of a computation that always returns: what it does to the
    component and which calls it makes, both as functions of the component
    it starts from. *)
Definition performs (m : M unit) (f : widget -> widget)
    (l : widget -> list call) : Prop :=
  forall s,
    fst (m s) = returned tt
    /\ ui (snd (m s)) = f (ui s)
    /\ made (snd (m s)) = made s ++ l (ui s).

Lemma performs_ext m f l f' l' :
  performs m f l ->
  (forall w, f w = f' w) -> (forall w, l w = l' w) ->
  performs m f' l'.
Proof.
  intros H Hf Hl s. destruct (H s) as (H1 & H2 & H3).
  rewrite <- Hf, <- Hl. auto.
Qed.

Lemma performs_ret : performs (ret tt) (fun w => w) (fun _ => []).
Proof. intro s. cbn. rewrite app_nil_r. auto. Qed.

Lemma performs_put g : performs (put g) g (fun _ => []).
Proof. intro s. cbn. unfold made. cbn. rewrite app_nil_r. auto. Qed.

Lemma performs_seq m k f l g l' :
  performs m f l -> performs k g l' ->
  performs (m ;; k) (fun w => g (f w)) (fun w => l w ++ l' (f w)).
Proof.
  intros Hm Hk s. unfold bind.
  destruct (Hm s) as (H1 & H2 & H3).
  destruct (m s) as [[[] | e] s1]; cbn in *; [| discriminate].
  destruct (Hk s1) as (K1 & K2 & K3).
  rewrite K1, K2, K3, H2, H3, app_assoc. auto.
Qed.

(** A block that reads a ref and a continuation that does not depend on
    what was read: [x <- get r ;; blk x ;; rest]. *)
Lemma performs_block {A} (r : widget -> A) (blk : A -> M unit) (rest : M unit)
    f l g l' :
  performs (x <- get r ;; blk x) f l -> performs rest g l' ->
  performs (x <- get r ;; blk x ;; rest)
    (fun w => g (f w)) (fun w => l w ++ l' (f w)).
Proof.
  intros Hb Hr s.
  pose proof (performs_seq _ _ _ _ _ _ Hb Hr s) as H.
  unfold bind, get in *. cbn in *. exact H.
Qed.

Lemma performs_when (b : bool) m f l :
  performs m f l ->
  performs (when_ b m) (fun w => if b then f w else w)
    (fun w => if b then l w else []).
Proof. intro H. destruct b; [exact H | apply performs_ret]. Qed.

Section Teardown.

Variable faults : call -> bool.
Hypothesis guarded_only : only_throws guarded faults.

(** [if (ref.current) { release(ref.current); ref.current = null; }] for a
    release that is not wrapped in [try]. *)
Lemma performs_release (r : widget -> option handle) (c : handle -> call)
    (note : handle -> browser -> browser) (clr : widget -> widget) :
  (forall h, guarded (c h) = false) ->
  (forall w, r w = None -> clr w = w) ->
  (forall h b, calls (note h b) = calls b) ->
  performs
    (x <- get r ;;
     match x with
     | Some h => invoke faults (c h) (note h) ;; put clr
     | None => ret tt
     end)
    clr (fun w => opt_call c (r w)).
Proof.
  intros Hc Hclr Hnote s. unfold bind, get, put, invoke, ret, made. cbn.
  destruct (r (ui s)) as [h |] eqn:E; cbn.
  - rewrite (spared guarded faults (c h) guarded_only (Hc h)). cbn.
    rewrite Hnote. cbn. rewrite map_app. auto.
  - rewrite app_nil_r, Hclr by exact E. auto.
Qed.

(** The transport: [promise.then(session => { try { session.close() }
    catch (e) {} })]. *)
Lemma performs_close_session :
  performs
    (sp <- get sessionPromiseRef ;;
     match sp with
     | Some s =>
         promise_then (swallow (Session_close faults s)) ;;
         put (set_sessionPromiseRef None)
     | None => ret tt
     end)
    (set_sessionPromiseRef None)
    (fun w => opt_call session_close (sessionPromiseRef w)).
Proof.
  intro s. unfold bind, get, put, ret, promise_then, swallow, try_catch,
    Session_close, invoke, made. cbn.
  destruct (sessionPromiseRef (ui s)) as [h |] eqn:E; cbn.
  - destruct (faults (session_close h)); cbn.
    + rewrite map_app. auto.
    + destruct (lookup h (sessions (env s))); cbn; rewrite map_app; auto.
  - rewrite app_nil_r. destruct s as [w e]; destruct w; cbn in *.
    subst. auto.
Qed.

Lemma stop_source_runs src s :
  stop_source faults src s
  = (returned tt,
     set_env (fun b => set_calls (calls b ++ [(clock b, source_stop src)]) b) s).
Proof.
  unfold stop_source, swallow, try_catch, just, invoke, ret, set_env.
  destruct (faults (source_stop src)); destruct s as [w []]; reflexivity.
Qed.

Lemma stop_sources_run (srcs : list handle) (s : world) :
  fst (for_each (stop_source faults) srcs s) = returned tt
  /\ ui (snd (for_each (stop_source faults) srcs s)) = ui s
  /\ made (snd (for_each (stop_source faults) srcs s))
     = made s ++ map source_stop srcs.
Proof.
  revert s. induction srcs as [| x r IH]; intro s.
  - cbn. rewrite app_nil_r. auto.
  - cbn [for_each map]. unfold bind. rewrite stop_source_runs.
    destruct (IH (set_env (fun b => set_calls
                                      (calls b ++ [(clock b, source_stop x)]) b) s))
      as (H1 & H2 & H3).
    rewrite H1, H2, H3. unfold made. cbn. rewrite map_app, <- app_assoc. auto.
Qed.

Lemma performs_stop_sources :
  performs
    (srcs <- get sourcesRef ;; for_each (stop_source faults) srcs)
    (fun w => w) (fun w => map source_stop (sourcesRef w)).
Proof.
  intro s. unfold bind at 1. unfold get. cbn [fst snd].
  apply stop_sources_run.
Qed.

(** What a teardown does when only the guarded calls can throw: it
    returns, every ref is cleared and every release is made, in order. *)
Lemma stopLiveSession_performs (userInitiated : bool) :
  performs (stopLiveSession faults userInitiated)
    (fun w => released (by_user userInitiated w)) teardown_calls.
Proof.
  unfold stopLiveSession.
  eapply performs_ext.
  - eapply performs_seq; [apply performs_when |].
    { eapply performs_seq; apply performs_put. }
    eapply performs_seq; [apply performs_put |].
    eapply performs_seq; [apply performs_put |].
    eapply performs_block.
    { apply (performs_release keepAliveIntervalRef clearInterval
               (fun t b => set_timers (drop t (timers b)) b)
               (set_keepAliveIntervalRef None)).
      - reflexivity.
      - intros [] E; cbn in *; subst; reflexivity.
      - reflexivity. }
    eapply performs_block.
    { apply (performs_release idleTimerRef clearTimeout
               (fun t b => set_timers (drop t (timers b)) b)
               (set_idleTimerRef None)).
      - reflexivity.
      - intros [] E; cbn in *; subst; reflexivity.
      - reflexivity. }
    eapply performs_block; [apply performs_close_session |].
    eapply performs_block.
    { apply (performs_release streamRef tracks_stop (fun _ b => b)
               (set_streamRef None)).
      - reflexivity.
      - intros [] E; cbn in *; subst; reflexivity.
      - reflexivity. }
    eapply performs_block.
    { apply (performs_release scriptProcessorRef processor_disconnect
               (fun p b => set_processors (drop p (processors b)) b)
               (set_scriptProcessorRef None)).
      - reflexivity.
      - intros [] E; cbn in *; subst; reflexivity.
      - reflexivity. }
    eapply performs_block; [apply performs_stop_sources |].
    eapply performs_seq; [apply performs_put |].
    eapply performs_seq; [apply performs_put |].
    eapply performs_block.
    { apply (performs_release inputContextRef context_close
               (fun c b =>
                  set_contexts (store c closed (contexts b))
                    (set_processors
                       (filter (fun p => negb (Nat.eqb c (snd (snd p))))
                          (processors b)) b))
               (set_inputContextRef None)).
      - reflexivity.
      - intros [] E; cbn in *; subst; reflexivity.
      - reflexivity. }
    apply (performs_release outputContextRef context_close
             (fun c b =>
                set_contexts (store c closed (contexts b))
                  (set_processors
                     (filter (fun p => negb (Nat.eqb c (snd (snd p))))
                        (processors b)) b))
             (set_outputContextRef None)).
    + reflexivity.
    + intros [] E; cbn in *; subst; reflexivity.
    + reflexivity.
  - intros []. destruct userInitiated; reflexivity.
  - intros []. unfold teardown_calls.
    destruct userInitiated; cbn; rewrite ?app_nil_r; reflexivity.
Qed.

End Teardown.

(* ================================================================== *)
(** ** A sample session                                                *)
(* ================================================================== *)

Definition demo_config : BusinessConfig :=
  {| sitemapUrl := Some "https://qrcodestickers.co.uk"%string |}.

Definition audio_message (data : string) : LiveServerMessage :=
  {| inlineData := Some data; groundingChunks := None; turnComplete := false |}.

Definition loud : list float := [0.5%float; (-0.5)%float].
Definition quiet : list float := [0.001953125%float; 0%float].

(** Start at 1 s, microphone granted, transport open at 2 s, microphone
    attached 800 ms later, one loud frame, one chunk of 3 s of speech. The
    handles are the ones the browser hands out: 1 the idle timer, 2 and 3
    the audio contexts, 4 the keep-alive interval, 5 the stream, 6 the
    transport, 7 the 800 ms timer, 8 the script processor. *)
Definition demo_session : list (Z * event) :=
  [ (1000, click_start true running);
    (1500, getUserMedia_settled None);
    (2000, transport_open 6%nat);
    (2800, timer_fires 7%nat);
    (2900, audio_process 8%nat loud);
    (3900, transport_message 6%nat (audio_message "UklGRg==") 0.5 (Some 3%float)) ].

Definition after (faults : call -> bool) (h : list (Z * event)) : world :=
  match run faults demo_config h (initial 0) with
  | Some s => s
  | None => initial 0
  end.

Definition live_demo : world := after reliable demo_session.

Example live_demo_refs :
  (isLiveActive (ui live_demo), connectionStatus (ui live_demo),
   sessionPromiseRef (ui live_demo), streamRef (ui live_demo),
   scriptProcessorRef (ui live_demo), keepAliveIntervalRef (ui live_demo),
   inputContextRef (ui live_demo), outputContextRef (ui live_demo),
   sourcesRef (ui live_demo))
  = (true, connected, Some 6, Some 5, Some 8, Some 4, Some 2, Some 3, [11])%nat.
Proof. vm_compute. reflexivity. Qed.

(* ================================================================== *)
(** ** C4: the teardown path                                           *)
(* ================================================================== *)

(** A browser in which closing the transport throws. *)
Definition close_throws (c : call) : bool :=
  match c with
  | session_close _ => true
  | _ => false
  end.

(** A browser in which stopping the capture tracks throws. *)
Definition tracks_stop_throws (c : call) : bool :=
  match c with
  | tracks_stop _ => true
  | _ => false
  end.

Lemma close_throws_guarded : only_throws guarded close_throws.
Proof. intros c. destruct c; cbn; congruence. Qed.

Lemma teardown_calls_released w : teardown_calls (released w) = [].
Proof. reflexivity. Qed.

Lemma released_twice b w :
  released (by_user b (released w)) = by_user b (released w).
Proof. destruct b; reflexivity. Qed.



(** The releases owed by the sample session. *)
Example live_demo_teardown_calls :
  teardown_calls (ui live_demo)
  = [clearInterval 4; clearTimeout 10; session_close 6; tracks_stop 5;
     processor_disconnect 8; source_stop 11; context_close 2;
     context_close 3]%nat.
Proof. vm_compute. reflexivity. Qed.


(* ================================================================== *)
(** ** C7: the transport's closed event                                *)
(* ================================================================== *)

Section Closing.

Variable faults : call -> bool.
Hypothesis guarded_only : only_throws guarded faults.
Variable config : BusinessConfig.

Lemma performs_just (c : call) :
  guarded c = false -> performs (just faults c) (fun w => w) (fun _ => [c]).
Proof.
  intros Hc s. unfold just, invoke, made. cbn.
  rewrite (spared guarded faults c guarded_only Hc). cbn.
  rewrite map_app. auto.
Qed.

(** [if (!ref.current) setErrorMsg(msg)] *)
Lemma performs_unless (r : widget -> bool) (g : widget -> widget) :
  performs (u <- get r ;; when_ (negb u) (put g))
    (fun w => if r w then w else g w) (fun _ => []).
Proof.
  intro s. unfold bind, get, when_, put, ret, made. cbn.
  destruct (r (ui s)); cbn; rewrite app_nil_r; auto.
Qed.

(** The component after a transport-closed event. *)
Definition after_close (w : widget) : widget :=
  released (if isUserDisconnectingRef w
            then w
            else set_errorMsg (Some timed_out_message) w).

Lemma onclose_performs :
  performs (onclose faults) after_close
    (fun w => console_log "Session closed" :: teardown_calls w).
Proof.
  unfold onclose. eapply performs_ext.
  - eapply performs_seq; [apply performs_just; reflexivity |].
    eapply performs_block; [apply performs_unless |].
    apply (stopLiveSession_performs faults guarded_only false).
  - intros []. unfold after_close. cbn. destruct isUserDisconnectingRef0; reflexivity.
  - intros []. cbn. destruct isUserDisconnectingRef0; reflexivity.
Qed.

(** The component after the idle timer has fired. *)
Definition after_idle (w : widget) : widget :=
  released (if isUserDisconnectingRef w
            then w
            else set_errorMsg (Some inactivity_message) w).

Lemma idle_timeout_performs :
  performs (idle_timeout faults) after_idle
    (fun w => console_log "Idle timeout reached - closing session"
              :: teardown_calls w).
Proof.
  unfold idle_timeout. eapply performs_ext.
  - eapply performs_seq; [apply performs_just; reflexivity |].
    eapply performs_block; [apply performs_unless |].
    apply (stopLiveSession_performs faults guarded_only false).
  - intros []. unfold after_idle. cbn. destruct isUserDisconnectingRef0; reflexivity.
  - intros []. cbn. destruct isUserDisconnectingRef0; reflexivity.
Qed.

Lemma step_transport_close sid s s' :
  step faults config (transport_close sid) s = Some s' ->
  ui s' = after_close (ui s)
  /\ made s' = made s ++ console_log "Session closed" :: teardown_calls (ui s).
Proof.
  unfold step. destruct (lookup sid (sessions (env s))); [| discriminate].
  intro H. injection H as <-. unfold exec.
  destruct (onclose_performs
              (set_env (fun b => set_sessions (drop sid (sessions b)) b) s))
    as (_ & H2 & H3).
  split; assumption.
Qed.

Lemma step_click_stop s s' :
  step faults config click_stop s = Some s' ->
  ui s' = released (by_user true (ui s))
  /\ made s' = made s ++ teardown_calls (ui s).
Proof.
  unfold step. intro H. injection H as <-. unfold exec.
  destruct (stopLiveSession_performs faults guarded_only true s) as (_ & H2 & H3).
  split; assumption.
Qed.

Lemma at_time_ui t s s1 : at_time t s = Some s1 -> ui s1 = ui s /\ made s1 = made s.
Proof.
  unfold at_time. destruct (clock (env s) <=? t); [| discriminate].
  intro H. injection H as <-. split; reflexivity.
Qed.

End Closing.



(* ================================================================== *)
(** ** C1: the voice-activity gate                                     *)
(* ================================================================== *)

(** The frames forwarded to the transport so far, oldest first. *)
Definition media_sent (s : world) : list (handle * list float) :=
  flat_map (fun tc => match snd tc with
                      | send_media sid pcm => [(sid, pcm)]
                      | _ => []
                      end)
    (calls (env s)).

(** [startLiveSession] up to the point where it arms the idle timer. *)
Lemma startLiveSession_exec faults apiKey ctx0 s :
  exec (startLiveSession faults apiKey ctx0) s =
  if isLiveActive (ui s) then s
  else if negb apiKey
       then set_ui (set_errorMsg (Some missing_key_message)) s
       else exec (resetIdleTimer faults ;;
                  start_guarded faults (open_contexts faults ctx0))
              (set_ui (fun w =>
                         set_lastSpeechTimeRef (clock (env s))
                           (set_isUserDisconnectingRef false
                              (set_isLiveActive true
                                 (set_connectionStatus connecting
                                    (set_errorMsg None w))))) s).
Proof.
  unfold startLiveSession, exec, Date_now.
  unfold bind at 1. unfold get. cbn [fst snd].
  destruct (isLiveActive (ui s)); [reflexivity |].
  destruct apiKey; reflexivity.
Qed.

Section Frames.

Variable faults : call -> bool.
Variable config : BusinessConfig.

Lemma clock_resetIdleTimer : steady (unchanged now_of) (resetIdleTimer faults).
Proof. frame. Qed.

Lemma clock_stopLiveSession b :
  steady (unchanged now_of) (stopLiveSession faults b).
Proof. frame. Qed.

Lemma clock_startLiveSession apiKey ctx0 :
  steady (unchanged now_of) (startLiveSession faults apiKey ctx0).
Proof. frame. Qed.

Lemma clock_after_resume c r :
  steady (unchanged now_of) (after_resume faults c r).
Proof. frame. Qed.

Lemma clock_after_getUserMedia r :
  steady (unchanged now_of) (after_getUserMedia faults config r).
Proof. frame. Qed.

Lemma clock_onopen sid : steady (unchanged now_of) (onopen faults sid).
Proof. frame. Qed.

Lemma clock_onmessage msg ct d :
  steady (unchanged now_of) (onmessage faults msg ct d).
Proof. frame. Qed.

Lemma clock_onclose : steady (unchanged now_of) (onclose faults).
Proof. frame. Qed.

Lemma clock_onerror m : steady (unchanged now_of) (onerror faults m).
Proof. frame. Qed.

Lemma clock_run_job j : steady (unchanged now_of) (run_job faults j).
Proof. destruct j; cbn [run_job]; frame. Qed.

Lemma clock_onaudioprocess sid f :
  steady (unchanged now_of) (onaudioprocess faults sid f).
Proof. frame. Qed.

Lemma clock_onended src : steady (unchanged now_of) (onended src).
Proof. frame. Qed.

(** Handlers never touch the clock. *)
Lemma step_clock e s s' :
  step faults config e s = Some s' -> now_of s' = now_of s.
Proof.
  destruct e; cbn [step]; intro H;
    repeat match type of H with
           | context [match ?x with _ => _ end] => destruct x; try discriminate
           end;
    injection H as <-.
  - apply clock_startLiveSession.
  - etransitivity; [apply clock_after_resume | reflexivity].
  - etransitivity; [apply clock_after_getUserMedia | reflexivity].
  - etransitivity; [apply clock_onopen | reflexivity].
  - apply clock_onmessage.
  - etransitivity; [apply clock_onclose | reflexivity].
  - apply clock_onerror.
  - etransitivity; [apply clock_run_job |].
    unfold now_of, fired. destruct (every t0); reflexivity.
  - apply clock_onaudioprocess.
  - apply clock_onended.
  - apply clock_stopLiveSession.
Qed.

End Frames.

Section LastSpeech.

Variable faults : call -> bool.
Variable config : BusinessConfig.

Lemma last_resetIdleTimer : steady (unchanged last_speech) (resetIdleTimer faults).
Proof. frame. Qed.

Lemma last_stopLiveSession b :
  steady (unchanged last_speech) (stopLiveSession faults b).
Proof. frame. Qed.

Lemma last_start_rest ctx0 :
  steady (unchanged last_speech)
    (resetIdleTimer faults ;; start_guarded faults (open_contexts faults ctx0)).
Proof. frame. Qed.

Lemma last_after_resume c r :
  steady (unchanged last_speech) (after_resume faults c r).
Proof. frame. Qed.

Lemma last_after_getUserMedia r :
  steady (unchanged last_speech) (after_getUserMedia faults config r).
Proof. frame. Qed.

Lemma last_onopen sid : steady (unchanged last_speech) (onopen faults sid).
Proof. frame. Qed.

Lemma last_onmessage msg ct d :
  steady (unchanged last_speech) (onmessage faults msg ct d).
Proof. frame. Qed.

Lemma last_onclose : steady (unchanged last_speech) (onclose faults).
Proof. frame. Qed.

Lemma last_onerror m : steady (unchanged last_speech) (onerror faults m).
Proof. frame. Qed.

Lemma last_run_job j : steady (unchanged last_speech) (run_job faults j).
Proof. destruct j; cbn [run_job]; frame. Qed.

Lemma last_onended src : steady (unchanged last_speech) (onended src).
Proof. frame. Qed.

(** [startLiveSession] leaves the last-speech time alone or sets it to now. *)
Lemma last_startLiveSession apiKey ctx0 s :
  let s' := exec (startLiveSession faults apiKey ctx0) s in
  last_speech s' = last_speech s \/ last_speech s' = now_of s.
Proof.
  cbv zeta. rewrite startLiveSession_exec.
  destruct (isLiveActive (ui s)); [left; reflexivity |].
  destruct (negb apiKey); [left; reflexivity |].
  right. etransitivity; [apply last_start_rest | reflexivity].
Qed.

Lemma last_forward sid frame now :
  steady (unchanged last_speech)
    (last <- get lastSpeechTimeRef ;;
     when_ (now - last <? SPEECH_HANGOVER_MS)
       (promise_then
          (try_catch (just faults (send_media sid frame))
             (fun _ => just faults (console_error "Error sending audio:"))))).
Proof. frame. Qed.

Lemma last_mark_speech (b : bool) s :
  last_speech
    (snd (when_ b (put (set_lastSpeechTimeRef (now_of s)) ;;
                   resetIdleTimer faults) s))
  = if b then now_of s else last_speech s.
Proof.
  destruct b; cbn [when_]; [| reflexivity].
  unfold bind, put. cbn [fst snd].
  etransitivity; [apply last_resetIdleTimer | reflexivity].
Qed.

(** The microphone callback sets it to now exactly on a frame of speech. *)
Lemma last_onaudioprocess sid frame s :
  last_speech (exec (onaudioprocess faults sid frame) s)
  = if is_speech frame then now_of s else last_speech s.
Proof.
  unfold exec, onaudioprocess, Date_now.
  unfold bind at 1. unfold look. cbn [fst snd].
  unfold bind at 1.
  pose proof (last_mark_speech (is_speech frame) s) as Hh.
  unfold now_of in Hh at 1.
  destruct (when_ (is_speech frame)
              (put (set_lastSpeechTimeRef (clock (env s))) ;;
               resetIdleTimer faults) s) as [[[] | e] s1]; cbn [fst snd] in *.
  - etransitivity; [apply last_forward | exact Hh].
  - exact Hh.
Qed.

(** Over one event the last-speech time stays or jumps to the clock. *)
Lemma step_last_speech e s s' :
  step faults config e s = Some s' ->
  last_speech s' = last_speech s \/ last_speech s' = now_of s.
Proof.
  destruct e; cbn [step]; intro H;
    repeat match type of H with
           | context [match ?x with _ => _ end] => destruct x; try discriminate
           end;
    injection H as <-.
  - apply last_startLiveSession.
  - left. etransitivity; [apply last_after_resume | reflexivity].
  - left. etransitivity; [apply last_after_getUserMedia | reflexivity].
  - left. etransitivity; [apply last_onopen | reflexivity].
  - left. apply last_onmessage.
  - left. etransitivity; [apply last_onclose | reflexivity].
  - left. apply last_onerror.
  - left. etransitivity; [apply last_run_job |].
    unfold last_speech, fired. destruct (every t0); reflexivity.
  - rewrite last_onaudioprocess. destruct (is_speech inputData); auto.
  - left. apply last_onended.
  - left. apply last_stopLiveSession.
Qed.

(** Along any history the last-speech time never moves backward and never
    runs ahead of the clock. *)
Lemma run_last_speech h : forall s s',
  run faults config h s = Some s' ->
  last_speech s <= now_of s ->
  last_speech s <= last_speech s' /\ last_speech s' <= now_of s'.
Proof.
  induction h as [| [t e] r IH]; intros s s' Hrun Hinv.
  - injection Hrun as <-. lia.
  - cbn [run] in Hrun. unfold at_time in Hrun.
    destruct (clock (env s) <=? t) eqn:Et; [| discriminate].
    apply Z.leb_le in Et.
    destruct (step faults config e (set_env (set_clock t) s)) as [s1 |] eqn:Es;
      [| discriminate].
    pose proof (step_clock faults config e _ _ Es) as Hc.
    pose proof (step_last_speech e _ _ Es) as Hl.
    unfold now_of, last_speech in *. cbn in Hc, Hl.
    assert (lastSpeechTimeRef (ui s1) <= clock (env s1)) by lia.
    destruct (IH s1 s' Hrun ltac:(assumption)). lia.
Qed.

End LastSpeech.

(** The calls that may throw without disturbing the gate: sending. *)
Definition sending (c : call) : bool :=
  match c with
  | send_media _ _ | send_text _ _ => true
  | _ => false
  end.

Lemma media_sent_app s l :
  flat_map (fun tc : Z * call => match snd tc with
                                 | send_media sid pcm => [(sid, pcm)]
                                 | _ => []
                                 end) (calls (env s) ++ l)
  = media_sent s
    ++ flat_map (fun tc : Z * call => match snd tc with
                                      | send_media sid pcm => [(sid, pcm)]
                                      | _ => []
                                      end) l.
Proof. unfold media_sent. apply flat_map_app. Qed.

Section Gate.

Variable faults : call -> bool.
Hypothesis sending_only : only_throws sending faults.

Lemma resetIdleTimer_returns s :
  fst (resetIdleTimer faults s) = returned tt
  /\ media_sent (snd (resetIdleTimer faults s)) = media_sent s.
Proof.
  unfold_handlers. unfold bind, get, put, look, ret, allocate, invoke.
  cbn [fst snd].
  destruct (idleTimerRef (ui s)) as [t |]; cbn; spare sending_only; cbn;
    spare sending_only; cbn; unfold media_sent; cbn; rewrite !flat_map_app;
    cbn; rewrite !app_nil_r; auto.
Qed.

Lemma mark_speech_returns (b : bool) s :
  fst (when_ b (put (set_lastSpeechTimeRef (now_of s)) ;;
                resetIdleTimer faults) s) = returned tt
  /\ media_sent (snd (when_ b (put (set_lastSpeechTimeRef (now_of s)) ;;
                               resetIdleTimer faults) s)) = media_sent s.
Proof.
  destruct b; cbn [when_]; [| split; reflexivity].
  unfold bind, put. cbn [fst snd].
  destruct (resetIdleTimer_returns
              (set_ui (set_lastSpeechTimeRef (now_of s)) s)) as (H1 & H2).
  destruct (resetIdleTimer faults
              (set_ui (set_lastSpeechTimeRef (now_of s)) s)) as [[[] | e] s1];
    cbn in *; [| discriminate].
  split; [reflexivity | exact H2].
Qed.

Lemma forward_sends sid frame s :
  media_sent
    (snd (promise_then
            (try_catch (just faults (send_media sid frame))
               (fun _ => just faults (console_error "Error sending audio:")))
            s))
  = media_sent s ++ [(sid, frame)].
Proof.
  unfold promise_then, try_catch, just, invoke. cbn [fst snd].
  destruct (faults (send_media sid frame)); cbn.
  - spare sending_only. cbn.
    unfold media_sent at 1. cbn. rewrite <- app_assoc, media_sent_app.
    reflexivity.
  - unfold media_sent at 1. cbn. rewrite media_sent_app. reflexivity.
Qed.

(** The frame is sent exactly when it is handled less than the hangover
    after the last-speech time, the one just set if the frame is speech. *)
Lemma media_onaudioprocess sid frame s :
  media_sent (exec (onaudioprocess faults sid frame) s)
  = media_sent s
    ++ (if now_of s
           - last_speech (exec (onaudioprocess faults sid frame) s)
           <? SPEECH_HANGOVER_MS
        then [(sid, frame)] else []).
Proof.
  rewrite last_onaudioprocess.
  unfold exec, onaudioprocess, Date_now.
  unfold bind at 1. unfold look. cbn [fst snd].
  unfold bind at 1.
  pose proof (mark_speech_returns (is_speech frame) s) as (H1 & H2).
  pose proof (last_mark_speech faults (is_speech frame) s) as H3.
  unfold now_of in H1, H2, H3 at 1.
  destruct (when_ (is_speech frame)
              (put (set_lastSpeechTimeRef (clock (env s))) ;;
               resetIdleTimer faults) s) as [[[] | e] s1]; cbn [fst snd] in *;
    [| discriminate].
  unfold bind, get. cbn [fst snd]. fold (last_speech s1). rewrite H3.
  fold (now_of s).
  destruct (now_of s - (if is_speech frame then now_of s else last_speech s)
            <? SPEECH_HANGOVER_MS); cbn [when_].
  - rewrite forward_sends, H2. reflexivity.
  - cbn. rewrite app_nil_r. exact H2.
Qed.

End Gate.


(** The sample session up to the attachment of the microphone, then a loud
    frame at 2.9 s and quiet ones after it. *)
Definition demo_listening : list (Z * event) :=
  [ (1000, click_start true running);
    (1500, getUserMedia_settled None);
    (2000, transport_open 6%nat);
    (2800, timer_fires 7%nat);
    (2900, audio_process 8%nat loud) ].

Example demo_rms :
  is_speech loud = true /\ is_speech quiet = false /\ is_speech [] = false.
Proof. vm_compute. auto. Qed.


(** In the sample session the loud frame at 2.9 s and the quiet one 700 ms
    later are forwarded; a quiet one 800 ms after the loud one is not. *)
Example demo_hangover :
  media_sent (after reliable
                (demo_listening ++ [(3600, audio_process 8%nat quiet)]))
  = [(6%nat, loud); (6%nat, quiet)]
  /\ media_sent (after reliable
                   (demo_listening ++ [(3700, audio_process 8%nat quiet)]))
     = [(6%nat, loud)].
Proof. vm_compute. auto. Qed.

(* ================================================================== *)
(** ** Times on the audio clock                                        *)
(* ================================================================== *)

(** [ctx.currentTime], [audioBuffer.duration] and [nextStartTimeRef] are
    binary64 numbers. What the scheduler needs of them is their order, and
    that adding a duration to a time does not move it backward once the sum
    is rounded. Both are proved here from the IEEE 754 specification of the
    operations ([SFleb], [SFltb], [SFadd] and the rounding [binary_round]
    they rest on). *)

(** The values a time can take: zero, a positive number or [+infinity]. *)
Definition nonneg (x : spec_float) : bool :=
  match x with
  | S754_zero _ | S754_infinity false | S754_finite false _ _ => true
  | _ => false
  end.

Definition rank (x : spec_float) : Z * Z * Z :=
  match x with
  | S754_zero _ => (0, 0, 0)
  | S754_finite _ m e => (1, e, Zpos m)
  | S754_infinity _ => (2, 0, 0)
  | S754_nan => (3, 0, 0)
  end.

Definition lex_le (a b : Z * Z * Z) : Prop :=
  let '(c1, e1, m1) := a in
  let '(c2, e2, m2) := b in
  c1 < c2 \/ (c1 = c2 /\ (e1 < e2 \/ (e1 = e2 /\ m1 <= m2))).

Lemma SFleb_rank x y :
  nonneg x = true -> nonneg y = true ->
  (SFleb x y = true <-> lex_le (rank x) (rank y)).
Proof.
  destruct x as [sx | [|] | | [|] mx ex]; try discriminate;
  destruct y as [sy | [|] | | [|] my ey]; try discriminate;
    intros _ _; unfold SFleb, SFcompare, rank, lex_le;
    try (split; [intros _; lia | reflexivity]);
    try (split; [discriminate | lia]).
  destruct (Z.compare_spec ex ey) as [E | E | E].
  - rewrite Pos.compare_cont_spec. cbn [Pos.switch_Eq].
    destruct (Pos.compare_spec mx my) as [F | F | F]; split; try discriminate;
      try reflexivity; try lia.
  - split; [lia | reflexivity].
  - split; [discriminate | lia].
Qed.

Lemma SFleb_nonneg y : SFleb (S754_zero false) y = true -> nonneg y = true.
Proof. destruct y as [sy | [|] | | [|] my ey]; cbn; congruence. Qed.

Lemma digits2_size p : digits2_pos p = Pos.size p.
Proof. induction p; cbn; congruence. Qed.

Lemma digits_log2 p : Zpos (digits2_pos p) = Z.log2 (Zpos p) + 1.
Proof. rewrite digits2_size. destruct p; cbn; lia. Qed.

Lemma iter_xO_pow m d : Zpos (Pos.iter xO m d) = Zpos m * 2 ^ Zpos d.
Proof.
  revert m. induction d using Pos.peano_ind; intro m.
  - cbn. lia.
  - rewrite Pos.iter_succ. rewrite Pos2Z.inj_succ, Z.pow_succ_r by lia.
    change (Zpos (Pos.iter xO m d)~0) with (2 * Zpos (Pos.iter xO m d)).
    rewrite IHd. lia.
Qed.

Lemma shl_align_le m e e' :
  e' <= e ->
  Zpos (fst (shl_align m e e')) = Zpos m * 2 ^ (e - e')
  /\ snd (shl_align m e e') = e'.
Proof.
  intro H. unfold shl_align.
  destruct (e' - e) as [| p | p] eqn:E; try lia.
  - cbn. assert (e = e') by lia. subst. rewrite Z.sub_diag. cbn. lia.
  - cbn [fst snd]. rewrite iter_xO_pow. split; [| reflexivity].
    f_equal. f_equal. lia.
Qed.

Lemma shl_align_ge m e e' :
  e <= e' -> shl_align m e e' = (m, e).
Proof.
  intro H. unfold shl_align.
  destruct (e' - e) as [| p | p] eqn:E; try lia; reflexivity.
Qed.

Lemma shr_1_m r : 0 <= shr_m r -> shr_m (shr_1 r) = Z.shiftr (shr_m r) 1.
Proof.
  destruct r as [m b s]. cbn [shr_m]. intro H.
  destruct m as [| [p | p |] | p]; cbn [shr_1 shr_m]; try lia; reflexivity.
Qed.

Lemma iter_shr_m p : forall r,
  0 <= shr_m r -> shr_m (iter_pos shr_1 p r) = Z.shiftr (shr_m r) (Zpos p).
Proof.
  induction p as [p IH | p IH |]; intros r H; cbn [iter_pos].
  - assert (H1 : 0 <= shr_m (shr_1 r)).
    { rewrite shr_1_m by exact H. apply Z.shiftr_nonneg. exact H. }
    assert (H2 : 0 <= shr_m (iter_pos shr_1 p (shr_1 r))).
    { rewrite IH by exact H1. apply Z.shiftr_nonneg. exact H1. }
    rewrite IH by exact H2. rewrite IH by exact H1. rewrite shr_1_m by exact H.
    rewrite !Z.shiftr_shiftr by lia. f_equal. lia.
  - assert (H1 : 0 <= shr_m (iter_pos shr_1 p r)).
    { rewrite IH by exact H. apply Z.shiftr_nonneg. exact H. }
    rewrite IH by exact H1. rewrite IH by exact H.
    rewrite Z.shiftr_shiftr by lia. f_equal. lia.
  - apply shr_1_m. exact H.
Qed.

Lemma shr_fexp_spec m e l :
  0 <= m ->
  let n := fexp prec emax (Zdigits2 m + e) - e in
  shr_m (fst (shr_fexp prec emax m e l)) = Z.shiftr m (Z.max 0 n)
  /\ snd (shr_fexp prec emax m e l) = e + Z.max 0 n.
Proof.
  intros Hm n. unfold shr_fexp, shr. fold n.
  assert (Hr : shr_m (shr_record_of_loc m l) = m) by (destruct l as [| []]; reflexivity).
  destruct n as [| p | p]; cbn [fst snd].
  - rewrite Hr. cbn. split; [reflexivity | lia].
  - rewrite iter_shr_m by (rewrite Hr; exact Hm). rewrite Hr.
    split; [reflexivity | lia].
  - rewrite Hr. cbn. split; [reflexivity | lia].
Qed.

Lemma round_nearest_even_ge m l : m <= round_nearest_even m l.
Proof.
  destruct l as [| []]; cbn; try lia. destruct (Z.even m); lia.
Qed.

Lemma Zdigits2_log2 m : 0 < m -> Zdigits2 m = Z.log2 m + 1.
Proof. destruct m; try lia. intros _. apply digits_log2. Qed.

Lemma shiftr_pos m n : 0 < m -> 0 <= n -> n <= Z.log2 m -> 0 < Z.shiftr m n.
Proof.
  intros Hm Hn Hl. rewrite Z.shiftr_div_pow2 by exact Hn.
  apply Z.div_str_pos. split; [apply Z.pow_pos_nonneg; lia |].
  apply Z.log2_le_pow2; assumption.
Qed.

(** Rounding a positive number that is at least a representable [x] gives
    a number that is at least [x]. *)
Lemma binary_round_ge (m : positive) (e : Z) (mx : positive) (ex : Z) :
  canonical_mantissa prec emax mx ex = true ->
  e <= ex ->
  Zpos mx * 2 ^ (ex - e) <= Zpos m ->
  let r := binary_round prec emax false m e in
  nonneg r = true /\ lex_le (1, ex, Zpos mx) (rank r).
Proof.
  intros Hcan He Hm r.
  unfold canonical_mantissa in Hcan. apply Z.eqb_eq in Hcan.
  rewrite digits_log2 in Hcan.
  set (D := Zpos (digits2_pos m) + e).
  set (e1 := fexp prec emax D).
  assert (HD : Z.log2 (Zpos mx) + 1 + ex <= D).
  { unfold D. rewrite digits_log2.
    pose proof (Z.log2_le_mono _ _ Hm) as Hl.
    rewrite Z.log2_mul_pow2 in Hl by lia. lia. }
  assert (Hlx : 0 <= Z.log2 (Zpos mx)) by apply Z.log2_nonneg.
  assert (He1 : ex <= e1 /\ e1 < D /\ SpecFloat.emin prec emax <= ex).
  { unfold e1. unfold fexp in *. lia. }
  destruct He1 as (He1 & He1D & Hemin).
  unfold r, binary_round. fold D. fold e1.
  rewrite shl_align_ge by lia.
  unfold binary_round_aux.
  pose proof (shr_fexp_spec (Zpos m) e loc_Exact ltac:(lia)) as S1.
  cbv zeta in S1. cbn [Zdigits2] in S1. fold D in S1. fold e1 in S1.
  destruct (shr_fexp prec emax (Zpos m) e loc_Exact) as [r1 e'].
  cbn [fst snd] in S1. destruct S1 as (S1 & S1e).
  rewrite Z.max_r in S1, S1e by lia.
  assert (Ee' : e' = e1) by lia. clear S1e. subst e'.
  set (m2 := round_nearest_even (shr_m r1) (loc_of_shr_record r1)).
  assert (Hm1 : 0 < shr_m r1).
  { rewrite S1. apply shiftr_pos; try lia.
    unfold D in He1D. rewrite digits_log2 in He1D. lia. }
  assert (Hm2 : shr_m r1 <= m2) by apply round_nearest_even_ge.
  pose proof (shr_fexp_spec m2 e1 loc_Exact ltac:(lia)) as S2.
  cbv zeta in S2.
  destruct (shr_fexp prec emax m2 e1 loc_Exact) as [r2 e'']. cbn [fst snd] in S2.
  destruct S2 as (S2 & S2e).
  rewrite Zdigits2_log2 in S2, S2e by lia.
  set (n2 := fexp prec emax (Z.log2 m2 + 1 + e1) - e1) in *.
  assert (Hn2 : n2 <= 0 \/ (0 < n2 /\ n2 <= Z.log2 m2)).
  { unfold n2, fexp in *. lia. }
  assert (Hm3 : 0 < shr_m r2).
  { rewrite S2. destruct Hn2 as [Hn2 | [Hn2 Hn2']].
    - rewrite Z.max_l by lia. rewrite Z.shiftr_0_r. lia.
    - rewrite Z.max_r by lia. apply shiftr_pos; lia. }
  destruct (shr_m r2) as [| m3 | m3] eqn:E3; try lia.
  destruct (e'' <=? emax - prec); [| split; [reflexivity | cbn; lia]].
  split; [reflexivity |]. cbn [rank lex_le]. right. split; [reflexivity |].
  destruct Hn2 as [Hn2 | [Hn2 _]].
  - rewrite Z.max_l in S2, S2e by lia. rewrite Z.shiftr_0_r in S2.
    destruct (Z.eq_dec e1 ex) as [Eq | Ne]; [| left; lia].
    right. split; [lia |].
    assert (Zpos mx <= shr_m r1); [| lia].
    rewrite S1, Z.shiftr_div_pow2 by lia.
    apply Z.div_le_lower_bound; [apply Z.pow_pos_nonneg; lia |].
    rewrite Eq. lia.
  - left. lia.
Qed.

Lemma SFadd_ge x d :
  valid_binary x = true -> valid_binary d = true ->
  nonneg x = true -> nonneg d = true ->
  nonneg (SF64add x d) = true /\ lex_le (rank x) (rank (SF64add x d)).
Proof.
  intros Vx Vd Nx Nd.
  destruct x as [sx | [|] | | [|] mx ex]; try discriminate;
  destruct d as [sd | [|] | | [|] md ed]; try discriminate;
    try (split; [reflexivity | cbn; lia]);
    try (destruct sx, sd; (split; [reflexivity | cbv [SF64add SFadd rank lex_le]; lia])).
  unfold SF64add, SFadd. cbn [cond_Zopp Z.add binary_normalize].
  unfold SpecFloat.valid_binary, bounded in Vx.
  apply andb_true_iff in Vx. destruct Vx as [Cx _].
  apply binary_round_ge; [exact Cx | apply Z.le_min_l |].
  destruct (shl_align_le mx ex (Z.min ex ed) (Z.le_min_l _ _)) as [E _].
  rewrite Pos2Z.inj_add, E. lia.
Qed.

Lemma SFltb_rank x y :
  nonneg x = true -> nonneg y = true ->
  (SFltb x y = true <-> ~ lex_le (rank y) (rank x)).
Proof.
  destruct x as [sx | [|] | | [|] mx ex]; try discriminate;
  destruct y as [sy | [|] | | [|] my ey]; try discriminate;
    intros _ _; unfold SFltb, SFcompare, rank, lex_le;
    try (split; [intros _; lia | reflexivity]);
    try (split; [discriminate | lia]).
  destruct (Z.compare_spec ex ey) as [E | E | E].
  - rewrite Pos.compare_cont_spec. cbn [Pos.switch_Eq].
    destruct (Pos.compare_spec mx my) as [F | F | F]; split; try discriminate;
      try reflexivity; try lia.
  - split; [lia | reflexivity].
  - split; [discriminate | lia].
Qed.

Lemma SFeqb_refl x : nonneg x = true -> SFeqb x x = true.
Proof.
  destruct x as [sx | [|] | | [|] mx ex]; try discriminate; intros _;
    try reflexivity.
  unfold SFeqb, SFcompare. rewrite Z.compare_refl, Pos.compare_cont_refl.
  reflexivity.
Qed.

(** *** Order and addition of times *)

Definition fle (a b : float) : Prop := (a <=? b)%float = true.

(** A binary64 value that is a time: not [NaN] and not negative. *)
Definition is_time (a : float) : Prop := fle 0 a.

Lemma is_time_nonneg a : is_time a -> nonneg (Prim2SF a) = true.
Proof.
  unfold is_time, fle. rewrite leb_spec. apply SFleb_nonneg.
Qed.

Lemma nonneg_is_time a : nonneg (Prim2SF a) = true -> is_time a.
Proof.
  intro H. unfold is_time, fle. rewrite leb_spec.
  apply SFleb_rank; [reflexivity | exact H |].
  change (Prim2SF 0) with (S754_zero false).
  destruct (Prim2SF a) as [sx | [|] | | [|] mx ex]; try discriminate; cbn; lia.
Qed.

Lemma fle_rank a b :
  is_time a -> is_time b ->
  (fle a b <-> lex_le (rank (Prim2SF a)) (rank (Prim2SF b))).
Proof.
  intros Ha Hb. unfold fle. rewrite leb_spec.
  apply SFleb_rank; apply is_time_nonneg; assumption.
Qed.

Ltac ranks :=
  repeat match goal with
         | |- context [rank ?x] =>
             let c := fresh "c" in let e := fresh "e" in let m := fresh "m" in
             destruct (rank x) as [[c e] m]
         | H : context [rank ?x] |- _ =>
             let c := fresh "c" in let e := fresh "e" in let m := fresh "m" in
             destruct (rank x) as [[c e] m]
         end;
  unfold lex_le in *; lia.

Lemma fle_refl a : is_time a -> fle a a.
Proof. intro H. apply fle_rank; [exact H | exact H |]. ranks. Qed.

Lemma fle_trans a b c :
  is_time a -> is_time b -> is_time c -> fle a b -> fle b c -> fle a c.
Proof.
  intros Ha Hb Hc Hab Hbc.
  apply fle_rank in Hab; [| assumption | assumption].
  apply fle_rank in Hbc; [| assumption | assumption].
  apply fle_rank; [assumption | assumption |]. ranks.
Qed.

(** Adding a duration never moves a time backward, rounding included. *)
Lemma add_ge a d :
  is_time a -> is_time d -> is_time (a + d) /\ fle a (a + d).
Proof.
  intros Ha Hd.
  destruct (SFadd_ge (Prim2SF a) (Prim2SF d) (Prim2SF_valid a) (Prim2SF_valid d)
              (is_time_nonneg a Ha) (is_time_nonneg d Hd)) as [N L].
  rewrite <- add_spec in N, L.
  assert (T : is_time (a + d)) by (apply nonneg_is_time; exact N).
  split; [exact T |]. apply fle_rank; assumption.
Qed.

Lemma is_time_not_nan a : is_time a -> PrimFloat.is_nan a = false.
Proof.
  intro H. unfold PrimFloat.is_nan. rewrite eqb_spec.
  rewrite SFeqb_refl by (apply is_time_nonneg; exact H). reflexivity.
Qed.

Lemma Math_max_spec a b :
  is_time a -> is_time b ->
  is_time (Math.max a b) /\ fle a (Math.max a b) /\ fle b (Math.max a b)
  /\ (Math.max a b = a \/ Math.max a b = b).
Proof.
  intros Ha Hb. unfold Math.max.
  rewrite (is_time_not_nan a Ha), (is_time_not_nan b Hb). cbn [orb].
  pose proof (SFltb_rank _ _ (is_time_nonneg a Ha) (is_time_nonneg b Hb)) as Lab.
  pose proof (SFltb_rank _ _ (is_time_nonneg b Hb) (is_time_nonneg a Ha)) as Lba.
  rewrite <- ltb_spec in Lab, Lba.
  pose proof (fle_rank a b Ha Hb) as Fab. pose proof (fle_rank b a Hb Ha) as Fba.
  pose proof (fle_refl a Ha) as Ra. pose proof (fle_refl b Hb) as Rb.
  destruct (a <? b)%float.
  - repeat split; auto. apply Fab. destruct Lab as [Lab _].
    specialize (Lab eq_refl). ranks.
  - destruct (b <? a)%float.
    + repeat split; auto. apply Fba. destruct Lba as [Lba _].
      specialize (Lba eq_refl). ranks.
    + assert (lex_le (rank (Prim2SF a)) (rank (Prim2SF b))
              /\ lex_le (rank (Prim2SF b)) (rank (Prim2SF a))) as [L1 L2].
      { destruct Lab as [_ Lab], Lba as [_ Lba].
        split.
        - destruct (rank (Prim2SF a)) as [[c e] m], (rank (Prim2SF b)) as [[c' e'] m'].
          unfold lex_le in *.
          assert (~ ~ (c < c' \/ c = c' /\ (e < e' \/ e = e' /\ m <= m'))); [| lia].
          intro N. specialize (Lba N). discriminate.
        - destruct (rank (Prim2SF a)) as [[c e] m], (rank (Prim2SF b)) as [[c' e'] m'].
          unfold lex_le in *.
          assert (~ ~ (c' < c \/ c' = c /\ (e' < e \/ e' = e /\ m' <= m))); [| lia].
          intro N. specialize (Lab N). discriminate. }
      destruct (PrimFloat.get_sign a); repeat split; auto;
        try (apply Fab; exact L1); try (apply Fba; exact L2).
Qed.

(* ================================================================== *)
(** ** C2 and C8: the playback scheduler                               *)
(* ================================================================== *)

(** The playback starts requested so far, oldest first: the start time and
    the duration passed with each [source.start]. *)
Definition scheduled (s : world) : list (float * float) :=
  flat_map (fun tc => match snd tc with
                      | source_start _ start duration => [(start, duration)]
                      | _ => []
                      end)
    (calls (env s)).

(** The decode failures logged so far. *)
Definition decode_errors (s : world) : nat :=
  List.length
    (filter (fun tc => match snd tc with
                       | console_error msg =>
                           String.eqb msg "Audio decode error:"
                       | _ => false
                       end)
       (calls (env s))).

(** An incoming chunk: the message, the output clock when it is handled,
    and what decoding it gives. *)
Record arrival := {
  chunk : LiveServerMessage;
  heard_at : float;
  decodes_to : option float
}.

Definition receive (faults : call -> bool) (a : arrival) (s : world) : world :=
  exec (onmessage faults (chunk a) (heard_at a) (decodes_to a)) s.

Definition receive_all (faults : call -> bool) (l : list arrival) (s : world)
  : world :=
  fold_left (fun s a => receive faults a s) l s.

Definition next_start (s : world) : float := nextStartTimeRef (ui s).

(** The later of two times, in the order of binary64. *)
Definition later_of (a b start : float) : Prop :=
  fle a start /\ fle b start /\ (start = a \/ start = b).

(** The schedule in the specification's words, over the numbers of the
    program: a chunk starts at the later of [nextStartTime] and the clock,
    and [nextStartTime] then advances by its duration; a chunk that fails
    to decode is dropped. *)
Inductive plays : float -> list arrival -> list (float * float) -> float -> Prop :=
| plays_none next : plays next [] [] next
| plays_chunk next a r start d starts last :
    later_of next (heard_at a) start ->
    decodes_to a = Some d ->
    plays (start + d)%float r starts last ->
    plays next (a :: r) ((start, d) :: starts) last
| plays_dropped next a r start starts last :
    later_of next (heard_at a) start ->
    decodes_to a = None ->
    plays start r starts last ->
    plays next (a :: r) starts last.

(** No chunk starts before the binary64 sum of the start and the duration
    of the one ahead of it. *)
Fixpoint no_overlap (l : list (float * float)) : Prop :=
  match l with
  | [] => True
  | (s1, d1) :: r =>
      match r with
      | [] => True
      | (s2, _) :: _ => fle (s1 + d1) s2
      end /\ no_overlap r
  end.

Fixpoint nondecreasing (l : list (float * float)) : Prop :=
  match l with
  | [] => True
  | (s1, _) :: r =>
      match r with
      | [] => True
      | (s2, _) :: _ => fle s1 s2
      end /\ nondecreasing r
  end.

(** A chunk that carries audio, handled at a time of the clock. *)
Definition carries_audio (a : arrival) : Prop :=
  truthy (inlineData (chunk a)) = true
  /\ is_time (heard_at a)
  /\ match decodes_to a with
     | Some d => is_time d
     | None => True
     end.

(** One that also decodes, to a buffer of some duration. *)
Definition playable (a : arrival) : Prop :=
  carries_audio a /\ exists d, decodes_to a = Some d.

Lemma scheduled_app s l :
  flat_map (fun tc : Z * call => match snd tc with
                                 | source_start _ start duration =>
                                     [(start, duration)]
                                 | _ => []
                                 end) (calls (env s) ++ l)
  = scheduled s
    ++ flat_map (fun tc : Z * call => match snd tc with
                                      | source_start _ start duration =>
                                          [(start, duration)]
                                      | _ => []
                                      end) l.
Proof. unfold scheduled. apply flat_map_app. Qed.

Section Playback.

Variable config : BusinessConfig.

Lemma attach_citations_env msg s :
  env (snd (attach_citations msg s)) = env s
  /\ next_start (snd (attach_citations msg s)) = next_start s
  /\ outputContextRef (ui (snd (attach_citations msg s)))
     = outputContextRef (ui s).
Proof.
  unfold attach_citations.
  destruct (groundingChunks msg) as [[| g l] |];
    try (repeat apply conj; reflexivity).
  destruct (newSources_of (g :: l)); repeat apply conj; reflexivity.
Qed.

Lemma receive_unfold a s :
  receive reliable a s
  = snd (attach_citations (chunk a)
           (exec (enqueue_audio reliable (chunk a) (heard_at a) (decodes_to a))
              s)).
Proof.
  unfold receive, exec, onmessage, bind.
  pose proof (enqueue_audio_returns (chunk a) (heard_at a) (decodes_to a) s) as Hr.
  destruct (enqueue_audio reliable (chunk a) (heard_at a) (decodes_to a) s)
    as [r s1]. cbn in Hr. subst r. reflexivity.
Qed.

(** The audio part of [onmessage] on one chunk with audio, while the output
    context exists. *)
Lemma enqueue_chunk msg now decoded s :
  truthy (inlineData msg) = true ->
  outputContextRef (ui s) <> None ->
  let s' := exec (enqueue_audio reliable msg now decoded) s in
  let start := Math.max (next_start s) now in
  outputContextRef (ui s') = outputContextRef (ui s)
  /\ match decoded with
     | Some d =>
         scheduled s' = scheduled s ++ [(start, d)]
         /\ next_start s' = (start + d)%float
         /\ decode_errors s' = decode_errors s
     | None =>
         scheduled s' = scheduled s
         /\ next_start s' = start
         /\ decode_errors s' = S (decode_errors s)
     end.
Proof.
  intros Haudio Hctx. cbv zeta.
  remember (exec (enqueue_audio reliable msg now decoded) s) as s' eqn:Es.
  unfold exec, enqueue_audio, resetIdleTimer, window_clearTimeout,
    window_setTimeout, Date_now, just in Es.
  unfold bind at 1 in Es. unfold get at 1 in Es. cbn [fst snd] in Es.
  rewrite Haudio in Es.
  destruct (outputContextRef (ui s)) as [ctx |] eqn:Ec; [| congruence].
  cbv beta iota zeta delta
    [bind ret throw try_catch promise_then swallow when_ get put look exec
     invoke allocate set_ui set_env reliable] in Es.
  destruct (idleTimerRef (ui s)), decoded;
    cbn -[Math.max PrimFloat.add] in Es; subst s';
    unfold next_start, scheduled, decode_errors; cbn -[Math.max PrimFloat.add];
    rewrite ?Ec, ?flat_map_app, ?filter_app, ?length_app;
    cbn -[Math.max PrimFloat.add];
    rewrite ?app_nil_r, ?Nat.add_0_r; repeat apply conj; try reflexivity;
    try apply Nat.add_1_r.
Qed.

(** One chunk with audio, while the output context exists. *)
Lemma receive_chunk a s :
  truthy (inlineData (chunk a)) = true ->
  outputContextRef (ui s) <> None ->
  let start := Math.max (next_start s) (heard_at a) in
  outputContextRef (ui (receive reliable a s)) = outputContextRef (ui s)
  /\ match decodes_to a with
     | Some d =>
         scheduled (receive reliable a s) = scheduled s ++ [(start, d)]
         /\ next_start (receive reliable a s) = (start + d)%float
         /\ decode_errors (receive reliable a s) = decode_errors s
     | None =>
         scheduled (receive reliable a s) = scheduled s
         /\ next_start (receive reliable a s) = start
         /\ decode_errors (receive reliable a s) = S (decode_errors s)
     end.
Proof.
  intros Haudio Hctx. cbv zeta. rewrite receive_unfold.
  pose proof (enqueue_chunk (chunk a) (heard_at a) (decodes_to a) s Haudio Hctx)
    as H. cbv zeta in H.
  set (s1 := exec (enqueue_audio reliable (chunk a) (heard_at a) (decodes_to a)) s)
    in *.
  destruct (attach_citations_env (chunk a) s1) as (He & Hn & Ho).
  unfold scheduled, decode_errors in *. rewrite He, Hn, Ho. exact H.
Qed.

End Playback.

(** *** The schedule as a whole *)

Lemma later_of_max a b :
  is_time a -> is_time b ->
  later_of a b (Math.max a b) /\ is_time (Math.max a b).
Proof.
  intros Ha Hb. destruct (Math_max_spec a b Ha Hb) as (T & L1 & L2 & E).
  split; [| exact T]. split; [exact L1 |]. split; [exact L2 | exact E].
Qed.

Definition failures (l : list arrival) : nat :=
  List.length (filter (fun a => match decodes_to a with
                                | Some _ => false
                                | None => true
                                end) l).

(** What the handler requests is a schedule in the sense of [plays]. *)
Lemma receive_all_plays l : forall s,
  outputContextRef (ui s) <> None ->
  is_time (next_start s) ->
  Forall carries_audio l ->
  exists starts,
    scheduled (receive_all reliable l s) = scheduled s ++ starts
    /\ plays (next_start s) l starts (next_start (receive_all reliable l s))
    /\ is_time (next_start (receive_all reliable l s))
    /\ decode_errors (receive_all reliable l s)
       = (decode_errors s + failures l)%nat
    /\ outputContextRef (ui (receive_all reliable l s))
       = outputContextRef (ui s).
Proof.
  induction l as [| a r IH]; intros s Hctx Ht Hl.
  - exists []. cbn. rewrite app_nil_r, Nat.add_0_r.
    repeat apply conj; auto. constructor.
  - inversion Hl as [| ? ? (Ha & Hh & Hd) Hr]; subst.
    cbn [receive_all fold_left].
    destruct (receive_chunk a s Ha Hctx) as (Ho & Hstep).
    destruct (later_of_max (next_start s) (heard_at a) Ht Hh) as (Hlater & Hmax).
    assert (Hctx' : outputContextRef (ui (receive reliable a s)) <> None)
      by (rewrite Ho; exact Hctx).
    fold (receive_all reliable r (receive reliable a s)).
    unfold failures. cbn [filter].
    destruct (decodes_to a) as [d |] eqn:Ed; destruct Hstep as (S1 & S2 & S3).
    + assert (Ht' : is_time (next_start (receive reliable a s))).
      { rewrite S2. apply add_ge; assumption. }
      destruct (IH (receive reliable a s) Hctx' Ht' Hr)
        as (starts & I1 & I2 & I3 & I4 & I5).
      exists ((Math.max (next_start s) (heard_at a), d) :: starts).
      rewrite I1, I4, I5, S1, S3, Ho, <- app_assoc.
      repeat apply conj; auto.
      eapply plays_chunk; [exact Hlater | exact Ed |].
      rewrite <- S2. exact I2.
    + assert (Ht' : is_time (next_start (receive reliable a s)))
        by (rewrite S2; exact Hmax).
      destruct (IH (receive reliable a s) Hctx' Ht' Hr)
        as (starts & I1 & I2 & I3 & I4 & I5).
      exists starts.
      rewrite I1, I4, I5, S1, S3, Ho. cbn [List.length].
      repeat apply conj; auto; try lia.
      eapply plays_dropped; [exact Hlater | exact Ed |].
      rewrite <- S2. exact I2.
Qed.

(** Every schedule starts no earlier than the cursor it is given. *)
Lemma plays_lower next l starts last :
  plays next l starts last ->
  is_time next -> Forall carries_audio l ->
  Forall (fun x => is_time (fst x) /\ fle next (fst x)) starts.
Proof.
  intro P. induction P as [next | next a r start d starts last L E P IH
                                | next a r start starts last L E P IH];
    intros Ht Hl.
  - constructor.
  - inversion Hl as [| ? ? (_ & Hh & Hd) Hr]; subst. rewrite E in Hd.
    destruct L as (L1 & L2 & L3).
    assert (Hs : is_time start) by (destruct L3; subst; assumption).
    destruct (add_ge start d Hs Hd) as (Hsum & Hle).
    constructor; [split; assumption |].
    eapply Forall_impl; [| apply IH; assumption].
    cbn. intros x [Hx Hx']. split; [exact Hx |].
    apply fle_trans with start; try assumption.
    apply fle_trans with (start + d)%float; assumption.
  - inversion Hl as [| ? ? (_ & Hh & _) Hr]; subst.
    destruct L as (L1 & L2 & L3).
    assert (Hs : is_time start) by (destruct L3; subst; assumption).
    eapply Forall_impl; [| apply IH; assumption].
    cbn. intros x [Hx Hx']. split; [exact Hx |].
    apply fle_trans with start; assumption.
Qed.

Lemma plays_in_order next l starts last :
  plays next l starts last ->
  is_time next -> Forall carries_audio l ->
  no_overlap starts /\ nondecreasing starts.
Proof.
  intro P. induction P as [next | next a r start d starts last L E P IH
                                | next a r start starts last L E P IH];
    intros Ht Hl.
  - split; exact I.
  - inversion Hl as [| ? ? (_ & Hh & Hd) Hr]; subst. rewrite E in Hd.
    destruct L as (L1 & L2 & L3).
    assert (Hs : is_time start) by (destruct L3; subst; assumption).
    destruct (add_ge start d Hs Hd) as (Hsum & Hle).
    destruct (IH Hsum Hr) as (N & M).
    pose proof (plays_lower _ _ _ _ P Hsum Hr) as Hlow.
    cbn [no_overlap nondecreasing].
    destruct starts as [| [s2 d2] t]; [repeat split; auto |].
    inversion Hlow as [| ? ? [Hx Hx'] _]. cbn [fst] in Hx, Hx'.
    split; (split; [| assumption]); [exact Hx' |].
    apply fle_trans with (start + d)%float; assumption.
  - inversion Hl as [| ? ? (_ & Hh & _) Hr]; subst.
    destruct L as (L1 & L2 & L3).
    assert (Hs : is_time start) by (destruct L3; subst; assumption).
    apply IH; assumption.
Qed.

(** When every chunk decodes there is one start per chunk, none earlier
    than the output clock at the moment its chunk was handled. *)
Lemma plays_not_past next l starts last :
  plays next l starts last ->
  Forall playable l ->
  Forall2 (fun a x => fle (heard_at a) (fst x) /\ decodes_to a = Some (snd x))
    l starts.
Proof.
  intro P. induction P as [next | next a r start d starts last L E P IH
                                | next a r start starts last L E P IH];
    intro Hl.
  - constructor.
  - inversion Hl as [| ? ? _ Hr]; subst.
    constructor; [| apply IH; exact Hr].
    cbn. split; [apply L | exact E].
  - inversion Hl as [| ? ? (_ & d & Hd) _]; subst. congruence.
Qed.

Lemma playable_carries a : playable a -> carries_audio a.
Proof. intros [H _]. exact H. Qed.

(** C2. While the output context exists, a chunk that carries audio and
    decodes to a buffer of duration [d] is started at
    [Math.max(nextStartTimeRef, ctx.currentTime)], both read when the chunk
    is handled, and [nextStartTimeRef] becomes the binary64 sum of that start
    and [d]. So for any sequence of such chunks, handled at times of the
    clock, the starts requested form a schedule ([plays]): one per chunk and
    in arrival order, each the later of the cursor and the clock; no start
    precedes the binary64 sum of the start and the duration of the chunk
    before it; starts never decrease; and no start is earlier than the
    output clock was when its chunk was handled. *)
Theorem playback_starts_never_overlap (s : world) (l : list arrival) :
  outputContextRef (ui s) <> None ->
  is_time (next_start s) ->
  Forall playable l ->
  let s' := receive_all reliable l s in
  (forall a d,
      truthy (inlineData (chunk a)) = true -> decodes_to a = Some d ->
      scheduled (receive reliable a s)
      = scheduled s ++ [(Math.max (next_start s) (heard_at a), d)]
      /\ next_start (receive reliable a s)
         = (Math.max (next_start s) (heard_at a) + d)%float)
  /\ exists starts,
       scheduled s' = scheduled s ++ starts
       /\ plays (next_start s) l starts (next_start s')
       /\ List.length starts = List.length l
       /\ no_overlap starts
       /\ nondecreasing starts
       /\ Forall2 (fun a x => fle (heard_at a) (fst x)
                              /\ decodes_to a = Some (snd x))
            l starts.
Proof.
  intros Hctx Ht Hl s'.
  assert (Hc : Forall carries_audio l)
    by (eapply Forall_impl; [apply playable_carries | exact Hl]).
  split.
  - intros a d Ha Hd.
    pose proof (receive_chunk a s Ha Hctx) as (_ & Hstep).
    rewrite Hd in Hstep. destruct Hstep as (S1 & S2 & _). auto.
  - destruct (receive_all_plays l s Hctx Ht Hc) as (starts & H1 & H2 & _).
    exists starts.
    pose proof (plays_not_past _ _ _ _ H2 Hl) as Hpast.
    destruct (plays_in_order _ _ _ _ H2 Ht Hc) as (N & M).
    repeat apply conj; auto.
    symmetry. eapply Forall2_length. exact Hpast.
Qed.

Definition demo_chunk (now : float) (d : option float) : arrival :=
  {| chunk := audio_message "UklGRg=="; heard_at := now; decodes_to := d |}.

(** Three chunks: the second arrives while the first still plays, the
    third after a pause. *)
Definition demo_arrivals : list arrival :=
  [ demo_chunk 0.5 (Some 3%float);
    demo_chunk 1 (Some 0.5%float);
    demo_chunk 6 (Some 2%float) ].

Lemma demo_arrivals_playable : Forall playable demo_arrivals.
Proof.
  repeat constructor; cbn; try reflexivity; eexists; reflexivity.
Qed.

Lemma playback_starts_never_overlap_witness :
  outputContextRef (ui (after reliable demo_listening)) <> None
  /\ is_time (next_start (after reliable demo_listening))
  /\ Forall playable demo_arrivals
  /\ exists starts,
       scheduled (receive_all reliable demo_arrivals
                    (after reliable demo_listening))
       = scheduled (after reliable demo_listening) ++ starts
       /\ no_overlap starts
       /\ nondecreasing starts.
Proof.
  assert (H0 : outputContextRef (ui (after reliable demo_listening)) <> None)
    by (vm_compute; discriminate).
  assert (H1 : is_time (next_start (after reliable demo_listening)))
    by (vm_compute; reflexivity).
  pose proof (playback_starts_never_overlap (after reliable demo_listening)
                demo_arrivals H0 H1 demo_arrivals_playable)
    as (_ & starts & H2 & _ & _ & H5 & H6 & _).
  split; [exact H0 |]. split; [exact H1 |].
  split; [exact demo_arrivals_playable |].
  exists starts. split; [exact H2 |]. split; [exact H5 | exact H6].
Defined.

Example demo_schedule :
  scheduled (receive_all reliable demo_arrivals (after reliable demo_listening))
  = [ (0.5, 3); (3.5, 0.5); (6, 2) ]%float.
Proof. vm_compute. reflexivity. Qed.

(** *** The exact end of a chunk *)

(** The number a finite binary64 value stands for. *)
Definition exact_value (x : float) : Q :=
  match Prim2SF x with
  | S754_finite s m e =>
      (if s then - inject_Z (Zpos m) else inject_Z (Zpos m)) * Qpower 2 e
  | _ => 0
  end.

(** The output clock advances by render quanta of 128 frames at 24000 Hz;
    a decoded buffer lasts its number of frames over 24000. *)
Definition rounding_arrivals : list arrival :=
  [ demo_chunk (128 / 24000) (Some (48000 / 24000)%float);
    demo_chunk (256 / 24000) (Some (24000 / 24000)%float) ].

(** The second chunk starts where the cursor stands, at the binary64 sum of
    the first start and duration; that sum is rounded down, so in exact
    arithmetic the second chunk starts before the first one ends. *)
Lemma rounded_cursor_precedes_exact_end :
  outputContextRef (ui (after reliable demo_listening)) <> None
  /\ is_time (next_start (after reliable demo_listening))
  /\ Forall playable rounding_arrivals
  /\ exists s1 d1 s2 d2,
       scheduled (receive_all reliable rounding_arrivals
                    (after reliable demo_listening))
       = scheduled (after reliable demo_listening) ++ [(s1, d1); (s2, d2)]
       /\ ~ (exact_value s1 + exact_value d1 <= exact_value s2)%Q.
Proof.
  split; [vm_compute; discriminate |].
  split; [vm_compute; reflexivity |].
  split.
  { repeat constructor; cbn; try (vm_compute; reflexivity);
      eexists; reflexivity. }
  eexists _, _, _, _. split; [vm_compute; reflexivity |].
  vm_compute. intro H. apply H. reflexivity.
Qed.

(** *** C8: a chunk that fails to decode *)

(** The state of the session proper: connection status, error message, the
    flags and every handle it holds. *)
Definition lifecycle (s : world) :=
  (connectionStatus (ui s), isLiveActive (ui s), errorMsg (ui s),
   isUserDisconnectingRef (ui s), sessionPromiseRef (ui s), streamRef (ui s),
   scriptProcessorRef (ui s), keepAliveIntervalRef (ui s),
   inputContextRef (ui s), outputContextRef (ui s), lastSpeechTimeRef (ui s)).

Definition in_flight (s : world) : list handle := sourcesRef (ui s).

Ltac frame_tuple :=
  unfold_handlers; steady_split;
  try (let s := fresh "s" in
       intro s; unfold unchanged, lifecycle, in_flight, put, invoke, allocate,
         browser_update, set_ui, set_env; cbn;
       repeat match goal with
              | |- context [if ?b then _ else _] => destruct b; cbn
              end;
       reflexivity).

Lemma lifecycle_onmessage faults msg now decoded :
  steady (unchanged lifecycle) (onmessage faults msg now decoded).
Proof. frame_tuple. Qed.

Lemma in_flight_failed faults msg now :
  steady (unchanged in_flight) (onmessage faults msg now None).
Proof. frame_tuple. Qed.

Lemma lifecycle_receive_all faults l s :
  lifecycle (receive_all faults l s) = lifecycle s.
Proof.
  revert s. induction l as [| a r IH]; intro s; [reflexivity |].
  cbn [receive_all fold_left]. fold (receive_all faults r (receive faults a s)).
  rewrite IH. apply lifecycle_onmessage.
Qed.

(** The same number, whichever zero it is. *)
Definition same_time (a b : float) : Prop := fle a b /\ fle b a.

Lemma receive_all_two a b s :
  receive_all reliable [a; b] s = receive reliable b (receive reliable a s).
Proof. reflexivity. Qed.

(** C8. Five chunks with audio arrive in order, at times of the clock,
    while the output context exists; the third fails to decode, the others
    decode. Then exactly chunks 1, 2, 4 and 5 are started, in that order,
    each at [Math.max] of the scheduler's cursor and the clock, none before
    the one ahead of it nor before the binary64 sum of that one's start and
    duration; the failure is logged once; handling the failing chunk
    requests no playback and changes neither the in-flight set nor the state
    of the session (status, error message, flags, handles): it only moves
    [nextStartTimeRef] up to the clock and re-arms the idle timer, as every
    chunk with audio does. When the clock does not run backward the fourth
    chunk starts at the time it would have started at without the third. *)
Theorem decode_failure_drops_only_that_chunk
    (s : world) (a1 a2 a3 a4 a5 : arrival) (d1 d2 d4 d5 : float) :
  outputContextRef (ui s) <> None ->
  is_time (next_start s) ->
  Forall carries_audio [a1; a2; a3; a4; a5] ->
  decodes_to a1 = Some d1 -> decodes_to a2 = Some d2 ->
  decodes_to a3 = None ->
  decodes_to a4 = Some d4 -> decodes_to a5 = Some d5 ->
  let s2 := receive_all reliable [a1; a2] s in
  let s3 := receive reliable a3 s2 in
  let s5 := receive_all reliable [a1; a2; a3; a4; a5] s in
  let t1 := Math.max (next_start s) (heard_at a1) in
  let t2 := Math.max (t1 + d1) (heard_at a2) in
  let t4 := Math.max (Math.max (t2 + d2) (heard_at a3)) (heard_at a4) in
  let t5 := Math.max (t4 + d4) (heard_at a5) in
  scheduled s5 = scheduled s ++ [(t1, d1); (t2, d2); (t4, d4); (t5, d5)]
  /\ no_overlap [(t1, d1); (t2, d2); (t4, d4); (t5, d5)]
  /\ nondecreasing [(t1, d1); (t2, d2); (t4, d4); (t5, d5)]
  /\ (fle (heard_at a1) t1 /\ fle (heard_at a2) t2
      /\ fle (heard_at a4) t4 /\ fle (heard_at a5) t5)
  /\ decode_errors s5 = S (decode_errors s)
  /\ scheduled s3 = scheduled s2
  /\ decode_errors s3 = S (decode_errors s2)
  /\ in_flight s3 = in_flight s2
  /\ lifecycle s3 = lifecycle s2
  /\ next_start s3 = Math.max (next_start s2) (heard_at a3)
  /\ lifecycle s5 = lifecycle s
  /\ (fle (heard_at a3) (heard_at a4) ->
      same_time t4 (Math.max (t2 + d2) (heard_at a4))).
Proof.
  intros Hctx Ht Hc E1 E2 E3 E4 E5 s2 s3 s5 t1 t2 t4 t5.
  inversion Hc as [| ? ? C1 H1]; subst.
  inversion H1 as [| ? ? C2 H2]; subst.
  inversion H2 as [| ? ? C3 H3]; subst.
  inversion H3 as [| ? ? C4 H4]; subst.
  inversion H4 as [| ? ? C5 _]; subst.
  destruct C1 as (A1 & T1 & D1), C2 as (A2 & T2 & D2), C3 as (A3 & T3 & _),
    C4 as (A4 & T4 & D4), C5 as (A5 & T5 & D5).
  rewrite E1 in D1. rewrite E2 in D2. rewrite E4 in D4. rewrite E5 in D5.
  (* the times are times *)
  destruct (Math_max_spec _ _ Ht T1) as (M1 & L1 & R1 & _). fold t1 in M1, L1, R1.
  destruct (add_ge t1 d1 M1 D1) as (P1 & Q1).
  destruct (Math_max_spec _ _ P1 T2) as (M2 & L2 & R2 & _). fold t2 in M2, L2, R2.
  destruct (add_ge t2 d2 M2 D2) as (P2 & Q2).
  destruct (Math_max_spec _ _ P2 T3) as (M3 & L3 & R3 & O3).
  destruct (Math_max_spec _ _ M3 T4) as (M4 & L4 & R4 & O4). fold t4 in M4, L4, R4, O4.
  destruct (add_ge t4 d4 M4 D4) as (P4 & Q4).
  destruct (Math_max_spec _ _ P4 T5) as (M5 & L5 & R5 & _). fold t5 in M5, L5, R5.
  (* the five steps *)
  destruct (receive_chunk a1 s A1 Hctx) as (O1 & F1). rewrite E1 in F1.
  destruct F1 as (F11 & F12 & F13). fold t1 in F11, F12.
  set (w1 := receive reliable a1 s) in *.
  assert (X1 : outputContextRef (ui w1) <> None) by (rewrite O1; exact Hctx).
  destruct (receive_chunk a2 w1 A2 X1) as (O2 & F2). rewrite E2 in F2.
  destruct F2 as (F21 & F22 & F23). rewrite F12 in F21, F22. fold t2 in F21, F22.
  change (receive reliable a2 w1) with s2 in *.
  assert (X2 : outputContextRef (ui s2) <> None) by (rewrite O2; exact X1).
  destruct (receive_chunk a3 s2 A3 X2) as (O3' & F3). rewrite E3 in F3.
  destruct F3 as (F31 & F32 & F33). fold s3 in O3', F31, F32, F33.
  assert (X3 : outputContextRef (ui s3) <> None) by (rewrite O3'; exact X2).
  destruct (receive_chunk a4 s3 A4 X3) as (O4' & F4). rewrite E4 in F4.
  destruct F4 as (F41 & F42 & F43). rewrite F32, F22 in F41, F42.
  fold t4 in F41, F42.
  set (w4 := receive reliable a4 s3) in *.
  assert (X4 : outputContextRef (ui w4) <> None) by (rewrite O4'; exact X3).
  destruct (receive_chunk a5 w4 A5 X4) as (_ & F5). rewrite E5 in F5.
  destruct F5 as (F51 & F52 & F53). rewrite F42 in F51. fold t5 in F51.
  change (receive reliable a5 w4) with s5 in *.
  assert (H24 : fle (t2 + d2) t4)
    by (apply fle_trans with (Math.max (t2 + d2) (heard_at a3)); assumption).
  repeat apply conj; auto.
  - rewrite F51, F41, F31, F21, F11, <- !app_assoc. reflexivity.
  - apply fle_trans with (t1 + d1)%float; assumption.
  - apply fle_trans with (t2 + d2)%float; assumption.
  - apply fle_trans with (t4 + d4)%float; assumption.
  - rewrite F53, F43, F33, F23, F13. reflexivity.
  - unfold s3, receive. rewrite E3.
    apply (in_flight_failed reliable (chunk a3) (heard_at a3) s2).
  - apply (lifecycle_onmessage reliable (chunk a3) (heard_at a3)
             (decodes_to a3) s2).
  - apply lifecycle_receive_all.
  - intro Hle.
    destruct (Math_max_spec _ _ P2 T4) as (Mu & Lu & Ru & Ou).
    set (u := Math.max (t2 + d2) (heard_at a4)) in *.
    set (m := Math.max (t2 + d2) (heard_at a3)) in *.
    split.
    + destruct O4 as [-> | ->]; [| exact Ru].
      destruct O3 as [-> | ->]; [exact Lu |].
      apply fle_trans with (heard_at a4); assumption.
    + destruct Ou as [-> | ->]; [| exact R4].
      apply fle_trans with m; assumption.
Qed.

Definition demo_five : list arrival :=
  [ demo_chunk 0.5 (Some 3%float);
    demo_chunk 1 (Some 0.5%float);
    demo_chunk 2 None;
    demo_chunk 3 (Some 2%float);
    demo_chunk 9 (Some 1%float) ].

Lemma demo_five_carry_audio : Forall carries_audio demo_five.
Proof. repeat constructor. Qed.

Lemma decode_failure_drops_only_that_chunk_witness :
  outputContextRef (ui (after reliable demo_listening)) <> None
  /\ is_time (next_start (after reliable demo_listening))
  /\ Forall carries_audio demo_five
  /\ scheduled (receive_all reliable demo_five (after reliable demo_listening))
     = scheduled (after reliable demo_listening)
       ++ [ (0.5, 3); (3.5, 0.5); (4, 2); (9, 1) ]%float
  /\ decode_errors (receive_all reliable demo_five
                      (after reliable demo_listening))
     = S (decode_errors (after reliable demo_listening)).
Proof.
  assert (H0 : outputContextRef (ui (after reliable demo_listening)) <> None)
    by (vm_compute; discriminate).
  assert (H1 : is_time (next_start (after reliable demo_listening)))
    by (vm_compute; reflexivity).
  pose proof (decode_failure_drops_only_that_chunk
                (after reliable demo_listening)
                (demo_chunk 0.5 (Some 3%float)) (demo_chunk 1 (Some 0.5%float))
                (demo_chunk 2 None) (demo_chunk 3 (Some 2%float))
                (demo_chunk 9 (Some 1%float)) 3 0.5 2 1
                H0 H1 demo_five_carry_audio
                eq_refl eq_refl eq_refl eq_refl eq_refl)
    as (S1 & _ & _ & _ & S5 & _).
  split; [exact H0 |]. split; [exact H1 |].
  split; [exact demo_five_carry_audio |].
  split; [| exact S5].
  etransitivity; [exact S1 |]. vm_compute. reflexivity.
Defined.

(** The five chunks of the sample: the third is skipped, the others play at
    0.5 s, 3.5 s, 4 s and 9 s. *)
Example demo_five_schedule :
  scheduled (receive_all reliable demo_five (after reliable demo_listening))
  = [ (0.5, 3); (3.5, 0.5); (4, 2); (9, 1) ]%float.
Proof. vm_compute. reflexivity. Qed.

(** Five chunks of which the third fails to decode, at quanta of the output
    clock: the second starts at the rounded sum left by the first, which is
    below the exact end of the first. *)
Definition rounding_five : list arrival :=
  [ demo_chunk (128 / 24000) (Some (48000 / 24000)%float);
    demo_chunk (256 / 24000) (Some (24000 / 24000)%float);
    demo_chunk (384 / 24000) None;
    demo_chunk (512 / 24000) (Some (24000 / 24000)%float);
    demo_chunk (640 / 24000) (Some (24000 / 24000)%float) ].

Lemma skipped_chunk_schedule_rounds_below_exact_end :
  outputContextRef (ui (after reliable demo_listening)) <> None
  /\ is_time (next_start (after reliable demo_listening))
  /\ Forall carries_audio rounding_five
  /\ exists s1 d1 s2 d2 rest,
       scheduled (receive_all reliable rounding_five
                    (after reliable demo_listening))
       = scheduled (after reliable demo_listening)
         ++ (s1, d1) :: (s2, d2) :: rest
       /\ List.length rest = 2%nat
       /\ ~ (exact_value s1 + exact_value d1 <= exact_value s2)%Q.
Proof.
  split; [vm_compute; discriminate |].
  split; [vm_compute; reflexivity |].
  split.
  { repeat constructor; cbn; vm_compute; reflexivity. }
  eexists _, _, _, _, _. split; [vm_compute; reflexivity |].
  split; [reflexivity |].
  vm_compute. intro H. apply H. reflexivity.
Qed.

(* ================================================================== *)
(** ** C6: one session at a time                                       *)
(* ================================================================== *)

(** The guard of line 143: while [isLiveActive] holds, [startLiveSession]
    changes nothing and calls nothing. *)
Lemma startLiveSession_ignored_while_live faults apiKey ctx0 s :
  isLiveActive (ui s) = true ->
  startLiveSession faults apiKey ctx0 s = (returned tt, s).
Proof.
  intro H. unfold startLiveSession, bind, get. cbn [fst snd].
  rewrite H. reflexivity.
Qed.

(** The transports that were opened by [ai.live.connect] and that neither
    the component nor the remote end has closed. *)
Definition open_transports (s : world) : list handle :=
  map fst (filter (fun hs => negb (closing (snd hs))) (sessions (env s))).

(** The user starts a call and ends it while the browser still waits for
    the microphone permission; the permission is then granted, and the
    parked [startLiveSession] goes on to open a transport. A second start
    opens another one next to it. *)
Definition cancelled_connect : list (Z * event) :=
  [ (1000, click_start true running);
    (1200, click_stop);
    (1500, getUserMedia_settled None);
    (2000, transport_open 6%nat) ].

Definition second_start : list (Z * event) :=
  cancelled_connect
  ++ [ (3000, click_start true running);
       (3500, getUserMedia_settled None);
       (4000, transport_open 13%nat) ].

(** C6 on the code. After a start cancelled during the microphone prompt
    the component shows [connected] although [isLiveActive] is false and
    the teardown has already run: the capture stream and a transport are
    live and nothing will release them. The next [startLiveSession] is not
    ignored, and two transports are then open at once. *)
Theorem start_after_cancelled_connect_opens_second_session :
  exists s1 s2,
    run reliable demo_config cancelled_connect (initial 0) = Some s1
    /\ isLiveActive (ui s1) = false
    /\ connectionStatus (ui s1) = connected
    /\ streamRef (ui s1) = Some 5%nat
    /\ open_transports s1 = [6%nat]
    /\ run reliable demo_config second_start (initial 0) = Some s2
    /\ connectionStatus (ui s2) = connected
    /\ sessionPromiseRef (ui s2) = Some 13%nat
    /\ open_transports s2 = [13%nat; 6%nat].
Proof.
  eexists. eexists.
  split; [vm_compute; reflexivity |].
  repeat apply conj; vm_compute; reflexivity.
Qed.

(* ================================================================== *)
(** ** What handlers may call                                          *)
(* ================================================================== *)

(** The call log only grows, and every call added passes [P]. *)
Definition emits (P : call -> bool) : world -> world -> Prop :=
  fun s s' =>
    exists d, calls (env s') = calls (env s) ++ d
              /\ forallb (fun tc => P (snd tc)) d = true.

#[export] Instance emits_pre (P : call -> bool) : PreOrder (emits P).
Proof.
  split.
  - intro s. exists []. rewrite app_nil_r. auto.
  - intros a b c (d1 & E1 & F1) (d2 & E2 & F2).
    exists (d1 ++ d2). rewrite E2, E1, <- app_assoc, forallb_app, F1, F2. auto.
Qed.

Section Emits.

Variable P : call -> bool.
Variable faults : call -> bool.

Lemma emits_same s s' : calls (env s') = calls (env s) -> emits P s s'.
Proof. intro E. exists []. rewrite app_nil_r. auto. Qed.

Lemma emits_put g : steady (emits P) (put g).
Proof. intro s. apply emits_same. reflexivity. Qed.

Lemma emits_allocate : steady (emits P) allocate.
Proof. intro s. apply emits_same. reflexivity. Qed.

Lemma emits_browser_update f :
  (forall b, calls (f b) = calls b) -> steady (emits P) (browser_update f).
Proof. intros Hf s. apply emits_same. cbn. apply Hf. Qed.

Lemma emits_invoke c note :
  P c = true -> (forall b, calls (note b) = calls b) ->
  steady (emits P) (invoke faults c note).
Proof.
  intros Hc Hnote s. unfold invoke. exists [(clock (env s), c)].
  destruct (faults c); cbn; rewrite ?Hnote; cbn; rewrite Hc; auto.
Qed.

Lemma emits_exec {A} (m : M A) s0 s :
  emits P s0 s -> steady (emits P) m -> emits P s0 (exec m s).
Proof. intros H Hm. etransitivity; [exact H | apply Hm]. Qed.

End Emits.

(** Splits a handler and settles each primitive step of an [emits] goal;
    what is left are calls that do not visibly pass the filter. *)
Ltac keeps_calls :=
  let b := fresh "b" in
  intro b; cbn;
  repeat match goal with
         | |- context [match ?x with _ => _ end] => destruct x; cbn
         end;
  reflexivity.

Ltac emit :=
  unfold_handlers; steady_split;
  try first
    [ apply emits_put
    | apply emits_allocate
    | apply emits_browser_update; keeps_calls
    | apply emits_invoke; [reflexivity | keeps_calls] ].

(** *** The keep-alive tone is silent *)

Definition silent (c : call) : bool :=
  match c with
  | oscillator_tone _ _ gain _ => Qeq_bool gain 0
  | _ => true
  end.

Section Silent.

Variable faults : call -> bool.
Variable config : BusinessConfig.

Lemma step_silent e s s' :
  step faults config e s = Some s' -> emits silent s s'.
Proof.
  destruct e; cbn [step]; intro H;
    repeat match type of H with
           | context [match ?x with _ => _ end] => destruct x; try discriminate
           end;
    injection H as <-;
    (apply emits_exec; [apply emits_same |]);
    try reflexivity.
  all: try (destruct (runs t0); cbn [run_job]); try emit.
  all: unfold fired; destruct (every t0); reflexivity.
Qed.

Lemma run_silent h : forall s s',
  run faults config h s = Some s' -> emits silent s s'.
Proof.
  induction h as [| [t e] r IH]; intros s s' Hrun.
  - injection Hrun as <-. reflexivity.
  - cbn [run] in Hrun. unfold at_time in Hrun.
    destruct (clock (env s) <=? t); [| discriminate].
    destruct (step faults config e (set_env (set_clock t) s)) as [s1 |] eqn:Es;
      [| discriminate].
    etransitivity; [| apply (IH s1 s' Hrun)].
    etransitivity; [| apply (step_silent e _ _ Es)].
    apply emits_same. reflexivity.
Qed.

End Silent.

(* ================================================================== *)
(** ** A connected session                                             *)
(* ================================================================== *)

Lemma lookup_store_eq {V} k (v : V) l : lookup k (store k v l) = Some v.
Proof. unfold store. cbn. rewrite Nat.eqb_refl. reflexivity. Qed.

Lemma lookup_drop_neq {V} k k' (l : list (handle * V)) :
  k <> k' -> lookup k (drop k' l) = lookup k l.
Proof.
  intro Hne. induction l as [| [h v] r IH]; [reflexivity |].
  cbn. destruct (Nat.eqb k' h) eqn:E1; cbn.
  - apply Nat.eqb_eq in E1. subst h.
    destruct (Nat.eqb k k') eqn:E2; [apply Nat.eqb_eq in E2; congruence |].
    exact IH.
  - destruct (Nat.eqb k h); [reflexivity | exact IH].
Qed.

Lemma lookup_drop_eq {V} k (l : list (handle * V)) : lookup k (drop k l) = None.
Proof.
  induction l as [| [h v] r IH]; [reflexivity |].
  cbn. destruct (Nat.eqb k h) eqn:E; cbn; [exact IH |].
  rewrite E. exact IH.
Qed.

Lemma lookup_store_neq {V} k k' (v : V) l :
  k <> k' -> lookup k (store k' v l) = lookup k l.
Proof.
  intro Hne. unfold store. cbn.
  destruct (Nat.eqb k k') eqn:E; [apply Nat.eqb_eq in E; congruence |].
  apply lookup_drop_neq. exact Hne.
Qed.

(** The state of the component and of the browser while a session started
    by [startLiveSession] is up: the component is live and connected, no
    part of [startLiveSession] is still parked, the keep-alive interval [k]
    and the idle timer [i], due at [deadline], are pending, and the output
    context is running. *)
Record connected_session (s : world) (k i : handle) (deadline : Z) : Prop := {
  cs_live : isLiveActive (ui s) = true;
  cs_status : connectionStatus (ui s) = connected;
  cs_flag : isUserDisconnectingRef (ui s) = false;
  cs_parked : awaits (env s) = [];
  cs_keepalive : keepAliveIntervalRef (ui s) = Some k;
  cs_idle : idleTimerRef (ui s) = Some i;
  cs_distinct : k <> i;
  cs_k_old : (k < next_handle (env s))%nat;
  cs_i_old : (i < next_handle (env s))%nat;
  cs_keepalive_pending :
    exists due_k,
      lookup k (timers (env s))
      = Some {| due := due_k; every := Some KEEPALIVE_MS;
                runs := keepalive_job |};
  cs_idle_pending :
    lookup i (timers (env s))
    = Some {| due := deadline; every := None; runs := idle_job |};
  cs_output :
    exists c, outputContextRef (ui s) = Some c
              /\ lookup c (contexts (env s)) = Some running
}.

(** The events that end a session: the user's stop, the transport closing
    or failing, and an idle timer firing. *)
Definition ends_session (e : event) (s : world) : bool :=
  match e with
  | click_stop | transport_close _ | transport_error _ _ => true
  | timer_fires t =>
      match lookup t (timers (env s)) with
      | Some tm => match runs tm with
                   | idle_job => true
                   | _ => false
                   end
      | None => false
      end
  | _ => false
  end.

(** The events that reset the idle timer of a connected session: a
    microphone frame louder than the threshold, and a message that carries
    synthesized audio. *)
Definition resets_idle (e : event) : bool :=
  match e with
  | audio_process _ inputData => is_speech inputData
  | transport_message _ msg _ _ => truthy (inlineData msg)
  | _ => false
  end.

(** [setTimeout(..., IDLE_TIMEOUT_MS)] *)
Definition arms_idle (c : call) : bool :=
  match c with
  | setTimeout _ ms => ms =? IDLE_TIMEOUT_MS
  | _ => false
  end.

(** How often the idle timer has been armed. *)
Definition idle_armings (s : world) : nat :=
  List.length (filter arms_idle (made s)).

Ltac crunch :=
  unfold_monad;
  cbn -[lookup store drop Math.max PrimFloat.add Z.add Z.sub Z.ltb newSources_of is_speech].

Ltac unfold_handlers_in H :=
  unfold onmessage, enqueue_audio, attach_citations, onaudioprocess, onopen,
    onclose, onerror, onended,
    idle_timeout, keepalive, attach_microphone, startLiveSession,
    open_contexts,
    after_resume, after_getUserMedia, start_guarded, start_microphone,
    stopLiveSession, resetIdleTimer, Session_close, ScriptProcessor_disconnect,
    AudioContext_close, AudioContext_new, AudioContext_state,
    window_setTimeout, window_setInterval, window_clearTimeout,
    window_clearInterval, Date_now, just in H.

Ltac crunch_in H :=
  cbv beta iota zeta delta
    [bind ret throw try_catch promise_then swallow when_ get put look exec
     invoke allocate browser_update set_ui set_env reliable] in H;
  cbn -[lookup store drop Math.max PrimFloat.add Z.add Z.sub Z.ltb newSources_of is_speech] in H.

(** The same on a state given field by field: records are rebuilt at every
    step, so that the term does not grow with the number of calls. *)
Ltac flatten_in H :=
  cbv beta iota zeta delta
    [bind ret throw try_catch promise_then swallow when_ get put look exec
     invoke allocate browser_update set_ui set_env reliable park
     ui env messages isLiveActive connectionStatus errorMsg sessionPromiseRef
     inputContextRef outputContextRef nextStartTimeRef sourcesRef streamRef
     scriptProcessorRef keepAliveIntervalRef isUserDisconnectingRef
     lastSpeechTimeRef idleTimerRef clock next_handle timers contexts sessions
     processors awaits calls
     set_messages set_isLiveActive set_connectionStatus set_errorMsg
     set_sessionPromiseRef set_inputContextRef set_outputContextRef
     set_nextStartTimeRef set_sourcesRef set_streamRef set_scriptProcessorRef
     set_keepAliveIntervalRef set_isUserDisconnectingRef set_lastSpeechTimeRef
     set_idleTimerRef set_clock set_next_handle set_timers set_contexts
     set_sessions set_processors set_awaits set_calls
     fst snd opened closing] in H;
  cbn [app existsb parked_eqb unpark orb Nat.add Nat.eqb] in H.

Ltac lookups :=
  repeat first
    [ rewrite lookup_store_eq
    | rewrite lookup_store_neq by (lia || congruence)
    | rewrite lookup_drop_neq by (lia || congruence)
    | rewrite lookup_drop_eq ].

Ltac armings :=
  unfold idle_armings, made; cbn -[lookup store drop];
  rewrite ?map_app, ?filter_app, ?length_app; cbn; lia.

Ltac session_holds :=
  constructor; cbn -[lookup store drop Z.add]; lookups;
  try solve [eauto | lia | congruence].

Lemma onmessage_exec msg now decoded s :
  exec (onmessage reliable msg now decoded) s
  = snd (attach_citations msg (exec (enqueue_audio reliable msg now decoded) s)).
Proof.
  unfold exec, onmessage, bind.
  pose proof (enqueue_audio_returns msg now decoded s) as Hr.
  destruct (enqueue_audio reliable msg now decoded s) as [r s1].
  cbn in Hr. subst r. reflexivity.
Qed.

Lemma attach_citations_result msg s :
  snd (attach_citations msg s) = s
  \/ exists l, snd (attach_citations msg s) = set_ui (set_messages l) s.
Proof.
  unfold attach_citations.
  destruct (groundingChunks msg) as [[| g l] |]; try (left; reflexivity).
  destruct (newSources_of (g :: l)); [left; reflexivity |].
  right. eexists. reflexivity.
Qed.

Lemma connected_session_cited msg s k i d :
  connected_session s k i d ->
  connected_session (snd (attach_citations msg s)) k i d.
Proof.
  intro H. destruct (attach_citations_result msg s) as [-> | [l ->]];
    [exact H |].
  destruct H. constructor; assumption.
Qed.

Lemma attach_citations_browser msg s :
  env (snd (attach_citations msg s)) = env s.
Proof.
  destruct (attach_citations_result msg s) as [-> | [l ->]]; reflexivity.
Qed.

(** One event that does not end the session keeps it connected, with the
    same keep-alive interval. The idle timer is re-armed, 90 s from now,
    exactly by the events that reset it; any other event leaves it pending
    with its deadline. *)
Lemma session_step config e s s' k i d :
  connected_session s k i d ->
  step reliable config e s = Some s' ->
  ends_session e s = false ->
  if resets_idle e
  then connected_session s' k (next_handle (env s))
         (now_of s + IDLE_TIMEOUT_MS)
       /\ lookup i (timers (env s')) = None
       /\ idle_armings s' = S (idle_armings s)
  else connected_session s' k i d
       /\ idle_armings s' = idle_armings s.
Proof.
  intros [Hlive Hstatus Hflag Hpark Hk Hi Hne Hkold Hiold [dk Hkp] Hip [c [Hc Hrun]]]
    Hstep Hend.
  destruct s as [w b].
  destruct w as [msgs live status err sp ic oc nxt srcs strm proc ka flag lastsp idle].
  destruct b as [clk nh tms ctxs sess procs aws cls].
  cbn in * |-. subst.
  destruct e; cbn [step resets_idle] in Hstep |- *.
  - (* click_start *)
    rewrite startLiveSession_exec in Hstep. cbn in Hstep. injection Hstep as <-.
    split; [session_holds | armings].
  - cbn in Hstep. discriminate.
  - cbn in Hstep. discriminate.
  - (* open *)
    cbn [env sessions] in Hstep.
    destruct (lookup s sess) as [ss |]; [| discriminate].
    destruct (opened ss); [discriminate |]. injection Hstep as <-.
    unfold exec. unfold_handlers. crunch.
    split; [session_holds | armings].
  - (* message *)
    cbn [env sessions] in Hstep.
    destruct (lookup s sess) as [ss |]; [| discriminate].
    destruct (opened ss); [| discriminate]. injection Hstep as <-.
    rewrite onmessage_exec.
    unfold idle_armings, made. rewrite attach_citations_browser.
    match goal with
    | |- context [attach_citations msg ?x] => set (s1 := x)
    end.
    cut (if truthy (inlineData msg)
         then connected_session s1 k nh (clk + IDLE_TIMEOUT_MS)
              /\ lookup i (timers (env s1)) = None
              /\ List.length (filter arms_idle (map snd (calls (env s1))))
                 = S (List.length (filter arms_idle (map snd cls)))
         else connected_session s1 k i d
              /\ List.length (filter arms_idle (map snd (calls (env s1))))
                 = List.length (filter arms_idle (map snd cls))).
    { destruct (truthy (inlineData msg)).
      - intros (H1 & H2 & H3). split; [apply connected_session_cited; exact H1 |].
        split; assumption.
      - intros (H1 & H2). split; [apply connected_session_cited; exact H1 |].
        assumption. }
    subst s1. unfold exec. unfold_handlers. crunch.
    destruct (truthy (inlineData msg)) eqn:Ea; crunch;
      destruct decoded; crunch.
    all: try (split; [session_holds | split; [lookups; reflexivity | armings]]).
    all: try (split; [session_holds | armings]).
  - discriminate.
  - discriminate.
  - (* timer *)
    cbn [env timers ends_session] in Hstep, Hend.
    destruct (lookup t tms) as [tm |] eqn:Et; [| discriminate].
    cbn [clock] in Hstep.
    destruct (due tm <=? clk); [| discriminate]. injection Hstep as <-.
    assert (Hti : t <> i).
    { intros ->. rewrite Hip in Et. injection Et as <-. discriminate. }
    destruct tm as [due_t every_t runs_t]. cbn [runs] in Hend |- *.
    destruct runs_t; [discriminate | |]; cbn [run_job].
    + (* microphone *)
      assert (Htk : t <> k).
      { intros ->. rewrite Hkp in Et. discriminate. }
      unfold exec, fired. unfold_handlers. crunch.
      destruct every_t, ic, strm; crunch;
        (split; [session_holds | armings]).
    + (* keep-alive *)
      unfold exec, fired. unfold_handlers.
      destruct (Nat.eq_dec t k) as [-> | Htk].
      * rewrite Hkp in Et. injection Et as <- <-. crunch. rewrite Hrun. crunch.
        split; [session_holds | armings].
      * destruct every_t; crunch; rewrite Hrun; crunch;
          (split; [session_holds | armings]).
  - (* frame *)
    cbn [env processors] in Hstep.
    destruct (lookup p procs) as [[sid ctx] |]; [| discriminate].
    injection Hstep as <-.
    unfold exec. unfold_handlers. crunch.
    destruct (is_speech inputData); crunch;
      match goal with
      | |- context [?a - ?b <? ?c] => destruct (a - b <? c)
      end; crunch.
    all: try (split; [session_holds | split; [lookups; reflexivity | armings]]).
    all: try (split; [session_holds | armings]).
  - (* ended *)
    injection Hstep as <-. unfold exec. unfold_handlers. crunch.
    split; [session_holds | armings].
  - discriminate.
Qed.



(** How a session comes up: the start button, the audio context resumed if
    the browser created it suspended, the microphone granted, the transport
    opened. *)
Definition connect_history (ctx0 : ContextState) (nh : handle)
    (t1 tr t2 t3 : Z) : list (Z * event) :=
  (t1, click_start true ctx0)
  :: match ctx0 with
     | suspended => [(tr, resume_settled (2 + nh)%nat None)]
     | _ => []
     end
  ++ [ (t2, getUserMedia_settled None);
       (t3, transport_open (5 + nh)%nat) ].

Lemma run_cons_inv faults config t e r s s' :
  run faults config ((t, e) :: r) s = Some s' ->
  exists s1,
    step faults config e (set_env (set_clock t) s) = Some s1
    /\ clock (env s) <= t
    /\ run faults config r s1 = Some s'.
Proof.
  cbn [run]. unfold at_time.
  destruct (clock (env s) <=? t) eqn:E; [| discriminate].
  destruct (step faults config e (set_env (set_clock t) s)) as [s1 |];
    [| discriminate].
  intro H. exists s1. apply Z.leb_le in E. auto.
Qed.

(** Runs the first event of a history. *)
Ltac peel H :=
  let s1 := fresh "s1" in
  let Hstep := fresh "Hstep" in
  apply run_cons_inv in H; destruct H as (s1 & Hstep & _ & H);
  cbn [step] in Hstep; unfold exec in Hstep; unfold_handlers_in Hstep;
  do 3 (flatten_in Hstep; rewrite ?lookup_store_eq, ?Nat.eqb_refl in Hstep);
  injection Hstep as <-.

(** From an idle component, that history ends in a connected session whose
    idle timer is due 90 s after the start. *)
Lemma session_established config ctx0 s0 t1 tr t2 t3 s :
  ctx0 <> closed ->
  isLiveActive (ui s0) = false ->
  awaits (env s0) = [] ->
  run reliable config
    (connect_history ctx0 (next_handle (env s0)) t1 tr t2 t3) s0 = Some s ->
  connected_session s (3 + next_handle (env s0))%nat (next_handle (env s0))
    (t1 + IDLE_TIMEOUT_MS).
Proof.
  intros Hctx Hlive Hpark Hrun.
  destruct s0 as [w b].
  destruct w as [msgs live status err sp ic oc nxt srcs strm proc ka flag
                   lastsp idle].
  destruct b as [clk nh tms ctxs sess procs aws cls].
  cbn in Hlive, Hpark. subst.
  unfold connect_history in Hrun. cbn [env next_handle] in Hrun.
  destruct idle, ctx0; try congruence; cbn [app] in Hrun.
  all: peel Hrun.
  all: peel Hrun.
  all: peel Hrun.
  all: try peel Hrun.
  all: injection Hrun as <-.
  all: session_holds.
  all: eexists; (split; [reflexivity |]); lookups; reflexivity.
Qed.

(** A timer fires when its time has come, and not before. *)
Lemma run_timer faults config t h s tm :
  lookup h (timers (env s)) = Some tm ->
  run faults config [(t, timer_fires h)] s
  = if (clock (env s) <=? t) && (due tm <=? t)
    then Some (exec (run_job faults (runs tm))
                 (set_env (fired h tm) (set_env (set_clock t) s)))
    else None.
Proof.
  intro H. cbn [run]. unfold at_time.
  destruct (clock (env s) <=? t); [| reflexivity].
  cbn [step andb].
  change (timers (env (set_env (set_clock t) s))) with (timers (env s)).
  rewrite H.
  change (clock (env (set_env (set_clock t) s))) with t.
  destruct (due tm <=? t); reflexivity.
Qed.

(** One tick of the keep-alive interval of a connected session. *)
Lemma keepalive_tick config s k i d due_k c t :
  connected_session s k i d ->
  outputContextRef (ui s) = Some c ->
  lookup k (timers (env s))
  = Some {| due := due_k; every := Some KEEPALIVE_MS; runs := keepalive_job |} ->
  (t < due_k -> run reliable config [(t, timer_fires k)] s = None)
  /\ (now_of s <= t -> due_k <= t ->
      exists s',
        run reliable config [(t, timer_fires k)] s = Some s'
        /\ ui s' = ui s
        /\ calls (env s')
           = calls (env s) ++ [(t, oscillator_tone c 440 0 (1 # 100))]
        /\ lookup k (timers (env s'))
           = Some {| due := t + KEEPALIVE_MS; every := Some KEEPALIVE_MS;
                     runs := keepalive_job |}).
Proof.
  intros [Hlive Hstatus Hflag Hpark Hk Hi Hne Hkold Hiold [dk Hkp] Hip [c' [Hc Hrun]]]
    Hout Hlk.
  rewrite (run_timer reliable config t k s _ Hlk). cbn [due runs run_job].
  split.
  - intro Hlt. destruct (due_k <=? t) eqn:E; [apply Z.leb_le in E; lia |].
    rewrite andb_false_r. reflexivity.
  - intros Hnow Hdue. unfold now_of in Hnow.
    apply Z.leb_le in Hnow, Hdue. rewrite Hnow, Hdue. cbn [andb].
    eexists. split; [reflexivity |].
    rewrite Hout in Hc. injection Hc as <-.
    destruct s as [w b].
    destruct w as [msgs live status err sp ic oc nxt srcs strm proc ka flag
                     lastsp idle].
    destruct b as [clk nh tms ctxs sess procs aws cls].
    cbn in * |-. subst.
    unfold exec, fired. unfold_handlers. crunch. rewrite Hrun. crunch.
    repeat apply conj; try reflexivity. lookups. reflexivity.
Qed.

(** The idle timer of a connected session runs out. *)
Lemma idle_expiry config s k i d t :
  connected_session s k i d ->
  (t < d -> run reliable config [(t, timer_fires i)] s = None)
  /\ (now_of s <= t -> d <= t ->
      exists s',
        run reliable config [(t, timer_fires i)] s = Some s'
        /\ ui s' = released (set_errorMsg (Some inactivity_message) (ui s))
        /\ made s'
           = made s ++ console_log "Idle timeout reached - closing session"
                       :: teardown_calls (ui s)).
Proof.
  intros [Hlive Hstatus Hflag Hpark Hk Hi Hne Hkold Hiold [dk Hkp] Hip [c' [Hc Hrun]]].
  rewrite (run_timer reliable config t i s _ Hip). cbn [due runs run_job].
  split.
  - intro Hlt. destruct (d <=? t) eqn:E; [apply Z.leb_le in E; lia |].
    rewrite andb_false_r. reflexivity.
  - intros Hnow Hdue. unfold now_of in Hnow.
    apply Z.leb_le in Hnow, Hdue. rewrite Hnow, Hdue. cbn [andb].
    eexists. split; [reflexivity |].
    destruct (idle_timeout_performs reliable (reliable_only_throws guarded)
                (set_env (fired i {| due := d; every := None; runs := idle_job |})
                   (set_env (set_clock t) s))) as (_ & H2 & H3).
    unfold exec. split.
    + rewrite H2. unfold after_idle. cbn [ui set_env]. rewrite Hflag. reflexivity.
    + rewrite H3. reflexivity.
Qed.

Lemma connected_session_at t s k i d :
  connected_session s k i d ->
  connected_session (set_env (set_clock t) s) k i d.
Proof. intros []. constructor; assumption. Qed.

Lemma run_one_inv faults config t e s s' :
  run faults config [(t, e)] s = Some s' ->
  clock (env s) <= t
  /\ step faults config e (set_env (set_clock t) s) = Some s'.
Proof.
  intro H. apply run_cons_inv in H. destruct H as (s1 & Hs & Ht & Hr).
  injection Hr as <-. auto.
Qed.

(** [session_step] for an event with its time. *)
Lemma session_run_one config t e s s' k i d :
  connected_session s k i d ->
  run reliable config [(t, e)] s = Some s' ->
  ends_session e s = false ->
  if resets_idle e
  then connected_session s' k (next_handle (env s)) (t + IDLE_TIMEOUT_MS)
       /\ lookup i (timers (env s')) = None
       /\ idle_armings s' = S (idle_armings s)
  else connected_session s' k i d
       /\ idle_armings s' = idle_armings s.
Proof.
  intros Hs Hrun Hend. apply run_one_inv in Hrun. destruct Hrun as (_ & Hstep).
  exact (session_step config e _ s' k i d (connected_session_at t s k i d Hs)
           Hstep Hend).
Qed.

Lemma teardown_calls_never_arm w : filter arms_idle (teardown_calls w) = [].
Proof.
  unfold teardown_calls. rewrite !filter_app.
  destruct (keepAliveIntervalRef w), (idleTimerRef w), (sessionPromiseRef w),
    (streamRef w), (scriptProcessorRef w), (inputContextRef w),
    (outputContextRef w); cbn;
    induction (sourcesRef w) as [| x r IH]; cbn; auto.
Qed.

Lemma onerror_performs faults err_message :
  only_throws guarded faults ->
  performs (onerror faults err_message)
    (fun w =>
       released
         (set_errorMsg
            (Some ("Session Error: "
                     ++ or_default err_message "Connection interrupted")%string)
            w))
    (fun w => console_error "Session error:" :: teardown_calls w).
Proof.
  intro Hf. unfold onerror. eapply performs_ext.
  - eapply performs_seq; [apply (performs_just faults Hf); reflexivity |].
    eapply performs_seq; [apply performs_put |].
    apply (stopLiveSession_performs faults Hf false).
  - intros w. destruct w. reflexivity.
  - intros w. destruct w. reflexivity.
Qed.

(** An event that ends the session cancels the idle timer and arms none. *)
Lemma ending_never_arms config t e s s' :
  run reliable config [(t, e)] s = Some s' ->
  ends_session e s = true ->
  idle_armings s' = idle_armings s
  /\ idleTimerRef (ui s') = None
  /\ connectionStatus (ui s') = disconnected.
Proof.
  intros Hrun Hend. apply run_one_inv in Hrun. destruct Hrun as (_ & Hstep).
  assert (Hf := reliable_only_throws guarded).
  assert (Hsame : forall l,
             made s' = made s ++ l -> filter arms_idle l = [] ->
             idle_armings s' = idle_armings s).
  { intros l E Hl. unfold idle_armings. rewrite E, filter_app, Hl, app_nil_r.
    reflexivity. }
  destruct e; try discriminate Hend; cbn [step] in Hstep.
  - (* closed *)
    change (sessions (env (set_env (set_clock t) s))) with (sessions (env s))
      in Hstep.
    destruct (lookup s0 (sessions (env s))); [| discriminate].
    injection Hstep as <-.
    match goal with
    | |- context [exec (onclose reliable) ?x] =>
        destruct (onclose_performs reliable Hf x) as (_ & H2 & H3)
    end.
    unfold exec. repeat apply conj.
    + apply (Hsame _ H3). cbn [filter arms_idle].
      apply teardown_calls_never_arm.
    + rewrite H2. reflexivity.
    + rewrite H2. reflexivity.
  - (* error *)
    change (sessions (env (set_env (set_clock t) s))) with (sessions (env s))
      in Hstep.
    destruct (lookup s0 (sessions (env s))); [| discriminate].
    injection Hstep as <-.
    destruct (onerror_performs reliable err_message Hf
                (set_env (set_clock t) s)) as (_ & H2 & H3).
    unfold exec. repeat apply conj.
    + apply (Hsame _ H3). cbn [filter arms_idle].
      apply teardown_calls_never_arm.
    + rewrite H2. reflexivity.
    + rewrite H2. reflexivity.
  - (* an idle timer *)
    cbn [ends_session] in Hend.
    change (timers (env (set_env (set_clock t) s))) with (timers (env s))
      in Hstep.
    destruct (lookup t0 (timers (env s))) as [tm |]; [| discriminate].
    destruct (due tm <=? clock (env (set_env (set_clock t) s)));
      [| discriminate].
    injection Hstep as <-.
    destruct (runs tm); try discriminate. cbn [run_job].
    match goal with
    | |- context [exec (idle_timeout reliable) ?x] =>
        destruct (idle_timeout_performs reliable Hf x) as (_ & H2 & H3)
    end.
    assert (Hm : made (set_env (fired t0 tm) (set_env (set_clock t) s))
                 = made s)
      by (unfold made, fired; destruct (every tm); reflexivity).
    rewrite Hm in H3.
    unfold exec. repeat apply conj.
    + apply (Hsame _ H3). cbn [filter arms_idle].
      apply teardown_calls_never_arm.
    + rewrite H2. reflexivity.
    + rewrite H2. reflexivity.
  - (* stop *)
    injection Hstep as <-.
    destruct (stopLiveSession_performs reliable Hf true
                (set_env (set_clock t) s)) as (_ & H2 & H3).
    unfold exec. repeat apply conj.
    + apply (Hsame _ H3). apply teardown_calls_never_arm.
    + rewrite H2. reflexivity.
    + rewrite H2. reflexivity.
Qed.

(* ================================================================== *)
(** ** C9: the keep-alive tone                                         *)
(* ================================================================== *)

(** C9. In a connected session the keep-alive interval is pending with a
    period of 4000 ms. It cannot fire before it is due; whenever it fires
    the component is left as it was and exactly one call is made: an
    oscillator at 440 Hz on the output context, through a gain of exactly 0,
    stopped 0.01 s later; and the interval is due again 4000 ms after. It
    stays pending over every event that does not end the session. Whatever
    the history and whichever calls throw, no oscillator is ever started
    with a gain other than 0. *)
Theorem keepalive_tone_is_periodic_and_silent
    (config : BusinessConfig) (s : world) (k i : handle) (d : Z) :
  connected_session s k i d ->
  exists c due_k,
    outputContextRef (ui s) = Some c
    /\ lookup k (timers (env s))
       = Some {| due := due_k; every := Some 4000; runs := keepalive_job |}
    /\ (forall t, t < due_k ->
        run reliable config [(t, timer_fires k)] s = None)
    /\ (forall t, now_of s <= t -> due_k <= t ->
        exists s',
          run reliable config [(t, timer_fires k)] s = Some s'
          /\ ui s' = ui s
          /\ calls (env s')
             = calls (env s) ++ [(t, oscillator_tone c 440 0 (1 # 100))]
          /\ lookup k (timers (env s'))
             = Some {| due := t + 4000; every := Some 4000;
                       runs := keepalive_job |}
          /\ connected_session s' k i d)
    /\ (forall t e s',
          run reliable config [(t, e)] s = Some s' ->
          ends_session e s = false ->
          exists i' d', connected_session s' k i' d')
    /\ (forall faults h s1,
          run faults config h s = Some s1 -> emits silent s s1).
Proof.
  intro Hs.
  destruct (cs_output s k i d Hs) as (c & Hc & _).
  destruct (cs_keepalive_pending s k i d Hs) as (due_k & Hk).
  exists c, due_k. repeat apply conj.
  - exact Hc.
  - exact Hk.
  - intros t Ht. apply (keepalive_tick config s k i d due_k c t Hs Hc Hk). exact Ht.
  - intros t Hnow Hdue.
    destruct (proj2 (keepalive_tick config s k i d due_k c t Hs Hc Hk) Hnow Hdue)
      as (s' & Hrun & Hui & Hcalls & Hlk).
    exists s'. repeat apply conj; try assumption.
    assert (Hend : ends_session (timer_fires k) s = false).
    { cbn [ends_session]. rewrite Hk. reflexivity. }
    exact (proj1 (session_run_one config t (timer_fires k) s s' k i d Hs Hrun Hend)).
  - intros t e s' Hrun Hend.
    pose proof (session_run_one config t e s s' k i d Hs Hrun Hend) as H.
    destruct (resets_idle e).
    + destruct H as (H & _). eauto.
    + destruct H as (H & _). eauto.
  - intros faults h s1 Hrun. exact (run_silent faults config h s s1 Hrun).
Qed.

Definition demo_open : list (Z * event) :=
  connect_history running 1%nat 1000 0 1500 2000.

Lemma demo_open_connected :
  connected_session (after reliable demo_open) 4%nat 1%nat 91000.
Proof.
  apply (session_established demo_config running (initial 0) 1000 0 1500 2000).
  - discriminate.
  - reflexivity.
  - reflexivity.
  - vm_compute. reflexivity.
Qed.

Lemma keepalive_tone_is_periodic_and_silent_witness :
  connected_session (after reliable demo_open) 4%nat 1%nat 91000
  /\ exists s',
       run reliable demo_config [(5500, timer_fires 4%nat)]
         (after reliable demo_open) = Some s'
       /\ calls (env s')
          = calls (env (after reliable demo_open))
            ++ [(5500, oscillator_tone 3%nat 440 0 (1 # 100))].
Proof.
  split; [exact demo_open_connected |].
  destruct (keepalive_tone_is_periodic_and_silent demo_config
              (after reliable demo_open) 4%nat 1%nat 91000 demo_open_connected)
    as (c & due_k & Hc & Hk & _ & Hfire & _).
  vm_compute in Hc. injection Hc as <-.
  vm_compute in Hk. injection Hk as <-.
  destruct (Hfire 5500 ltac:(vm_compute; discriminate) ltac:(lia))
    as (s' & Hrun & _ & Hcalls & _).
  exists s'. split; assumption.
Defined.

(* ================================================================== *)
(** ** C3: the idle timer                                              *)
(* ================================================================== *)



(** In the sample session a loud frame at 2.9 s moves the deadline from
    91 s to 92.9 s; quiet frames do not move it. *)
Example demo_idle_deadline :
  connected_session
    (after reliable (demo_open ++ [ (2800, timer_fires 7%nat);
                                    (2900, audio_process 8%nat loud);
                                    (3000, audio_process 8%nat quiet) ]))
    4%nat 9%nat 92900.
Proof.
  constructor; vm_compute;
    first [ reflexivity | lia | discriminate | eexists; reflexivity
          | eexists; split; reflexivity ].
Qed.

(* ================================================================== *)
(** ** C5: the greeting comes first                                    *)
(* ================================================================== *)

Definition is_mic (j : job) : bool :=
  match j with
  | mic_job _ => true
  | _ => false
  end.

Definition is_media (c : call) : bool :=
  match c with
  | send_media _ _ => true
  | _ => false
  end.

(** The greeting instruction was pushed to transport [sid] at least 800 ms
    before [by_time]. *)
Definition greeted (log : list (Z * call)) (sid : handle) (by_time : Z) : Prop :=
  exists t0, In (t0, send_text sid greeting_instruction) log
             /\ t0 + MIC_DELAY_MS <= by_time.

(** Every frame in the log was sent after the greeting of its transport,
    and no sooner than 800 ms after it. *)
Definition greeting_first (log : list (Z * call)) : Prop :=
  forall pre t1 sid frame post,
    log = pre ++ (t1, send_media sid frame) :: post ->
    greeted pre sid t1.

(** What holds of every state the component can reach: a pending
    microphone timer is a one-shot due no sooner than 800 ms after the
    greeting of its transport; a connected script processor belongs to a
    transport greeted at least 800 ms ago; and the log is in order. *)
Record mic_gated (s : world) : Prop := {
  gate_timers :
    forall t tm sid,
      In (t, tm) (timers (env s)) -> runs tm = mic_job sid ->
      every tm = None /\ greeted (calls (env s)) sid (due tm);
  gate_processors :
    forall p sid c,
      In (p, (sid, c)) (processors (env s)) ->
      greeted (calls (env s)) sid (clock (env s));
  gate_log : greeting_first (calls (env s))
}.

Lemma greeted_more log d sid t : greeted log sid t -> greeted (log ++ d) sid t.
Proof. intros (t0 & Hin & Ht). exists t0. split; [apply in_or_app; auto | exact Ht]. Qed.

Lemma greeted_later log sid t t' : greeted log sid t -> t <= t' -> greeted log sid t'.
Proof. intros (t0 & Hin & Ht) Hle. exists t0. split; [exact Hin | lia]. Qed.

Lemma greeting_first_quiet log d :
  greeting_first log ->
  forallb (fun tc => negb (is_media (snd tc))) d = true ->
  greeting_first (log ++ d).
Proof.
  intros Hlog Hd pre t1 sid frame post E.
  apply app_eq_app in E. destruct E as (l & [[E1 E2] | [E1 E2]]).
  - destruct l as [| x l].
    + cbn in E2. subst d. cbn in Hd. discriminate.
    + cbn in E2. injection E2 as <- E2. subst.
      exact (Hlog _ _ _ _ _ eq_refl).
  - subst d. rewrite forallb_app in Hd. apply andb_prop in Hd.
    destruct Hd as [_ Hd]. cbn in Hd. discriminate.
Qed.

Lemma greeting_first_send log t1 sid frame :
  greeting_first log -> greeted log sid t1 ->
  greeting_first (log ++ [(t1, send_media sid frame)]).
Proof.
  intros Hlog Hg pre t1' sid' frame' post E.
  apply app_eq_app in E. destruct E as (l & [[E1 E2] | [E1 E2]]).
  - destruct l as [| x l].
    + cbn in E2. injection E2 as -> -> -> ->. rewrite app_nil_r in E1.
      subst. exact Hg.
    + cbn in E2. injection E2 as <- E2. subst.
      exact (Hlog _ _ _ _ _ eq_refl).
  - destruct l as [| x l].
    + cbn in E2. injection E2 as <- <- <- <-. rewrite app_nil_r in E1.
      subst. exact Hg.
    + cbn in E2. injection E2 as _ E2. destruct l; discriminate.
Qed.

(** *** Handlers that touch neither microphone timers nor processors *)

Definition harmless (s s' : world) : Prop :=
  clock (env s') = clock (env s)
  /\ (exists d, calls (env s') = calls (env s) ++ d
                /\ forallb (fun tc => negb (is_media (snd tc))) d = true)
  /\ (forall x, In x (timers (env s')) -> is_mic (runs (snd x)) = true ->
                In x (timers (env s)))
  /\ (forall x, In x (processors (env s')) -> In x (processors (env s))).

#[export] Instance harmless_pre : PreOrder harmless.
Proof.
  split.
  - intro s. repeat split; auto. exists []. rewrite app_nil_r. auto.
  - intros a b c (C1 & (d1 & E1 & F1) & T1 & P1) (C2 & (d2 & E2 & F2) & T2 & P2).
    repeat split.
    + congruence.
    + exists (d1 ++ d2). rewrite E2, E1, <- app_assoc, forallb_app, F1, F2. auto.
    + auto.
    + auto.
Qed.

Lemma mic_gated_harmless s s' : mic_gated s -> harmless s s' -> mic_gated s'.
Proof.
  intros [Ht Hp Hl] (Hc & (d & E & F) & Tm & Pr). constructor.
  - intros t tm sid Hin Hr. rewrite E.
    assert (Hm : is_mic (runs (snd (t, tm))) = true) by (cbn; rewrite Hr; reflexivity).
    destruct (Ht t tm sid (Tm _ Hin Hm) Hr) as (He & Hg).
    split; [exact He | apply greeted_more; exact Hg].
  - intros p sid c Hin. rewrite E, Hc. apply greeted_more.
    exact (Hp p sid c (Pr _ Hin)).
  - rewrite E. apply greeting_first_quiet; assumption.
Qed.

Lemma in_drop {V} k (x : handle * V) l : In x (drop k l) -> In x l.
Proof. unfold drop. intro H. apply filter_In in H. tauto. Qed.

Lemma in_store {V} k (v : V) x l : In x (store k v l) -> x = (k, v) \/ In x l.
Proof.
  unfold store. intros [H | H]; [left; congruence | right].
  exact (in_drop k x l H).
Qed.

(** What the browser may note at a call without touching the gate. *)
Definition discreet (note : browser -> browser) : Prop :=
  forall b,
    clock (note b) = clock b
    /\ calls (note b) = calls b
    /\ (forall x, In x (timers (note b)) -> is_mic (runs (snd x)) = true ->
                  In x (timers b))
    /\ (forall x, In x (processors (note b)) -> In x (processors b)).

Section Harmless.

Variable faults : call -> bool.

Lemma harmless_same s s' :
  clock (env s') = clock (env s) -> calls (env s') = calls (env s) ->
  timers (env s') = timers (env s) -> processors (env s') = processors (env s) ->
  harmless s s'.
Proof.
  intros Hc Hl Ht Hp. repeat split; auto.
  - exists []. rewrite app_nil_r. auto.
  - rewrite Ht. auto.
  - rewrite Hp. auto.
Qed.

Lemma harmless_put g : steady harmless (put g).
Proof. intro s. apply harmless_same; reflexivity. Qed.

Lemma harmless_allocate : steady harmless allocate.
Proof. intro s. apply harmless_same; reflexivity. Qed.

Lemma harmless_browser_update f : discreet f -> steady harmless (browser_update f).
Proof.
  intros Hf s. destruct (Hf (env s)) as (H1 & H2 & H3 & H4).
  repeat split; cbn; auto. exists []. rewrite app_nil_r. auto.
Qed.

Lemma harmless_invoke c note :
  is_media c = false -> discreet note -> steady harmless (invoke faults c note).
Proof.
  intros Hc Hnote s. unfold invoke.
  remember (set_calls (calls (env s) ++ [(clock (env s), c)]) (env s)) as b eqn:Eb.
  assert (Hb : clock b = clock (env s)
               /\ calls b = calls (env s) ++ [(clock (env s), c)]
               /\ timers b = timers (env s)
               /\ processors b = processors (env s))
    by (subst b; repeat split).
  destruct Hb as (B1 & B2 & B3 & B4).
  destruct (Hnote b) as (H1 & H2 & H3 & H4).
  assert (Hq : forallb (fun tc : Z * call => negb (is_media (snd tc)))
                 [(clock (env s), c)] = true) by (cbn; rewrite Hc; reflexivity).
  destruct (faults c); unfold harmless, exec; cbn [fst snd env].
  - repeat split.
    + exact B1.
    + exists [(clock (env s), c)]. split; [exact B2 | exact Hq].
    + intros x Hin Hm. rewrite <- B3. exact Hin.
    + intros x Hin. rewrite <- B4. exact Hin.
  - repeat split.
    + rewrite H1. exact B1.
    + exists [(clock (env s), c)]. split; [rewrite H2; exact B2 | exact Hq].
    + intros x Hin Hm. rewrite <- B3. auto.
    + intros x Hin. rewrite <- B4. auto.
Qed.

End Harmless.

Ltac discreet_note :=
  let b := fresh "b" in
  let x := fresh "x" in
  let Hin := fresh "Hin" in
  let Hm := fresh "Hm" in
  intro b;
  repeat match goal with
         | |- context [match ?y with _ => _ end] => destruct y
         end;
  (split; [reflexivity |]); (split; [reflexivity |]);
  split; cbn -[store drop]; intros x Hin; try intro Hm; try exact Hin;
  repeat match goal with
         | H : In _ (store _ _ _) |- _ =>
             apply in_store in H; destruct H as [-> | H]; [discriminate |]
         | H : In _ (drop _ _) |- _ => apply in_drop in H
         | H : In _ (filter _ _) |- _ => apply filter_In in H; destruct H as [H _]
         end;
  try assumption.

Ltac harmlessly :=
  unfold_handlers; steady_split;
  try first
    [ apply harmless_put
    | apply harmless_allocate
    | apply harmless_browser_update; discreet_note
    | apply harmless_invoke; [reflexivity | discreet_note] ].

Section Gated.

Variable faults : call -> bool.
Variable config : BusinessConfig.

Lemma harmless_stopLiveSession b : steady harmless (stopLiveSession faults b).
Proof. harmlessly. Qed.

Lemma harmless_startLiveSession k c : steady harmless (startLiveSession faults k c).
Proof. harmlessly. Qed.

Lemma harmless_after_resume c r : steady harmless (after_resume faults c r).
Proof. harmlessly. Qed.

Lemma harmless_after_getUserMedia r :
  steady harmless (after_getUserMedia faults config r).
Proof. harmlessly. Qed.

Lemma harmless_onmessage m t d : steady harmless (onmessage faults m t d).
Proof. harmlessly. Qed.

Lemma harmless_onclose : steady harmless (onclose faults).
Proof. harmlessly. Qed.

Lemma harmless_onerror m : steady harmless (onerror faults m).
Proof. harmlessly. Qed.

Lemma harmless_idle_timeout : steady harmless (idle_timeout faults).
Proof. harmlessly. Qed.

Lemma harmless_keepalive : steady harmless (keepalive faults).
Proof. harmlessly. Qed.

Lemma harmless_onended src : steady harmless (onended src).
Proof. harmlessly. Qed.

Lemma harmless_resetIdleTimer : steady harmless (resetIdleTimer faults).
Proof. harmlessly. Qed.

Lemma harmless_set_env f s : discreet f -> harmless s (set_env f s).
Proof.
  intro Hf. destruct (Hf (env s)) as (H1 & H2 & H3 & H4).
  repeat split; cbn; auto. exists []. rewrite app_nil_r. auto.
Qed.

(** The three places where the gate is at work: the opened callback arms
    the timer, the timer attaches the processor, the processor sends. *)
Lemma mic_gated_after s s' d :
  mic_gated s ->
  clock (env s') = clock (env s) ->
  calls (env s') = calls (env s) ++ d ->
  greeting_first (calls (env s) ++ d) ->
  (forall t tm sid,
      In (t, tm) (timers (env s')) -> runs tm = mic_job sid ->
      In (t, tm) (timers (env s))
      \/ (every tm = None /\ greeted (calls (env s) ++ d) sid (due tm))) ->
  (forall p sid c,
      In (p, (sid, c)) (processors (env s')) ->
      In (p, (sid, c)) (processors (env s))
      \/ greeted (calls (env s) ++ d) sid (clock (env s))) ->
  mic_gated s'.
Proof.
  intros [Ht Hp Hl] Hc E Hf Tm Pr. constructor.
  - intros t tm sid Hin Hr. rewrite E.
    destruct (Tm t tm sid Hin Hr) as [Hold | Hnew]; [| exact Hnew].
    destruct (Ht t tm sid Hold Hr) as (He & Hg).
    split; [exact He | apply greeted_more; exact Hg].
  - intros p sid c Hin. rewrite E, Hc.
    destruct (Pr p sid c Hin) as [Hold | Hnew]; [| exact Hnew].
    apply greeted_more. exact (Hp p sid c Hold).
  - rewrite E. exact Hf.
Qed.

Lemma mic_gated_onopen sid s : mic_gated s -> mic_gated (exec (onopen faults sid) s).
Proof.
  intro G. unfold exec, onopen, window_setTimeout, Date_now, promise_then, just.
  unfold bind, put, look, ret, allocate, invoke. cbn [fst snd].
  destruct (faults (console_log "Session opened")); cbn [fst snd].
  - apply (mic_gated_after s _ [(clock (env s), console_log "Session opened")] G);
      cbn -[greeting_first greeted]; auto.
    apply greeting_first_quiet; [apply G | reflexivity].
  - repeat (cbn -[store greeting_first greeted];
            match goal with
            | |- context [if faults ?c then _ else _] => destruct (faults c)
            end);
      cbn -[store greeting_first greeted];
      apply (mic_gated_after s _
               [(clock (env s), console_log "Session opened");
                (clock (env s), send_text sid greeting_instruction);
                (clock (env s), setTimeout (next_handle (env s)) MIC_DELAY_MS)]
               G);
      cbn -[store greeting_first greeted]; rewrite <- ?app_assoc; auto;
      try (apply greeting_first_quiet; [apply G | reflexivity]).
    all: intros t tm sid' Hin Hr; apply in_store in Hin;
      destruct Hin as [Hin | Hin]; [| left; exact Hin].
    all: injection Hin as -> ->; cbn in Hr; injection Hr as <-; right;
      split; [reflexivity |]; exists (clock (env s)); cbn [due];
      split; [| lia]; apply in_or_app; right; cbn; auto.
Qed.

Lemma mic_gated_attach sid s :
  mic_gated s -> greeted (calls (env s)) sid (clock (env s)) ->
  mic_gated (exec (attach_microphone faults sid) s).
Proof.
  intros G Hg. unfold exec, attach_microphone.
  unfold bind, get, put, ret, allocate, invoke. cbn [fst snd].
  destruct (inputContextRef (ui s)) as [c |]; [| exact G].
  destruct (streamRef (ui s)); [| exact G].
  destruct (isUserDisconnectingRef (ui s)); [exact G |].
  cbn [fst snd].
  destruct (faults (createScriptProcessor (next_handle (env s)) c));
    cbn -[store greeting_first greeted];
    apply (mic_gated_after s _
             [(clock (env s), createScriptProcessor (next_handle (env s)) c)] G);
    cbn -[store greeting_first greeted]; auto;
    try (apply greeting_first_quiet; [apply G | reflexivity]).
  intros p sid' c' Hin. apply in_store in Hin.
  destruct Hin as [Hin | Hin]; [| left; exact Hin].
  injection Hin as -> -> ->. right. apply greeted_more. exact Hg.
Qed.

Lemma harmless_mark_speech (b : bool) now :
  steady harmless (when_ b (put (set_lastSpeechTimeRef now) ;; resetIdleTimer faults)).
Proof. harmlessly. Qed.

Lemma mic_gated_forward sid frame s :
  mic_gated s -> greeted (calls (env s)) sid (clock (env s)) ->
  mic_gated
    (exec (promise_then
             (try_catch (just faults (send_media sid frame))
                (fun _ => just faults (console_error "Error sending audio:"))))
       s).
Proof.
  intros G Hg. unfold exec, promise_then, try_catch, just, invoke.
  cbn [fst snd].
  assert (Hsend : greeting_first
                    (calls (env s) ++ [(clock (env s), send_media sid frame)]))
    by (apply greeting_first_send; [apply G | exact Hg]).
  assert (Hboth : greeting_first
                    (calls (env s)
                     ++ [(clock (env s), send_media sid frame);
                         (clock (env s), console_error "Error sending audio:")])).
  { change (greeting_first
              (calls (env s)
               ++ [(clock (env s), send_media sid frame)]
               ++ [(clock (env s), console_error "Error sending audio:")])).
    rewrite app_assoc. apply greeting_first_quiet; [exact Hsend | reflexivity]. }
  destruct (faults (send_media sid frame)); cbn [fst snd].
  - destruct (faults (console_error "Error sending audio:")); cbn [fst snd];
      apply (mic_gated_after s _
               [(clock (env s), send_media sid frame);
                (clock (env s), console_error "Error sending audio:")] G);
      cbn -[greeting_first greeted]; rewrite <- ?app_assoc; auto.
  - apply (mic_gated_after s _ [(clock (env s), send_media sid frame)] G);
      cbn -[greeting_first greeted]; auto.
Qed.

Lemma mic_gated_onaudioprocess sid frame s :
  mic_gated s -> greeted (calls (env s)) sid (clock (env s)) ->
  mic_gated (exec (onaudioprocess faults sid frame) s).
Proof.
  intros G Hg. unfold exec, onaudioprocess, Date_now.
  unfold bind at 1. unfold look. cbn [fst snd].
  unfold bind at 1.
  pose proof (harmless_mark_speech (is_speech frame) (clock (env s)) s) as H.
  unfold exec in H.
  destruct (when_ (is_speech frame)
              (put (set_lastSpeechTimeRef (clock (env s))) ;;
               resetIdleTimer faults) s) as [[[] | e] s1]; cbn [fst snd] in *.
  - pose proof (mic_gated_harmless s s1 G H) as G1.
    assert (Hg1 : greeted (calls (env s1)) sid (clock (env s1))).
    { destruct H as (Hc & (d & E & _) & _). rewrite E, Hc.
      apply greeted_more. exact Hg. }
    unfold bind, get. cbn [fst snd].
    destruct (clock (env s) - lastSpeechTimeRef (ui s1) <? SPEECH_HANGOVER_MS);
      cbn [when_].
    + apply (mic_gated_forward sid frame s1 G1 Hg1).
    + exact G1.
  - exact (mic_gated_harmless s s1 G H).
Qed.

Lemma lookup_In {V} k (v : V) l : lookup k l = Some v -> In (k, v) l.
Proof.
  induction l as [| [k' v'] l IH]; cbn; [discriminate |].
  destruct (Nat.eqb k k') eqn:E.
  - apply Nat.eqb_eq in E. intros [= ->]. left. congruence.
  - intro H. right. exact (IH H).
Qed.

Lemma mic_gated_at_time t s s' :
  mic_gated s -> at_time t s = Some s' -> mic_gated s'.
Proof.
  unfold at_time. intros [Ht Hp Hl] H.
  destruct (clock (env s) <=? t) eqn:E; [| discriminate].
  injection H as <-. apply Z.leb_le in E. constructor; cbn.
  - exact Ht.
  - intros p sid c Hin. exact (greeted_later _ _ _ _ (Hp p sid c Hin) E).
  - exact Hl.
Qed.

Lemma mic_gated_step e s s' :
  mic_gated s -> step faults config e s = Some s' -> mic_gated s'.
Proof.
  intros G H. destruct e; cbn [step] in H.
  - injection H as <-.
    eapply mic_gated_harmless; [exact G | apply harmless_startLiveSession].
  - destruct (existsb _ _); [| discriminate]. injection H as <-.
    eapply mic_gated_harmless; [| apply harmless_after_resume].
    eapply mic_gated_harmless; [exact G | apply harmless_set_env; discreet_note].
  - destruct (existsb _ _); [| discriminate]. injection H as <-.
    eapply mic_gated_harmless; [| apply harmless_after_getUserMedia].
    eapply mic_gated_harmless; [exact G | apply harmless_set_env; discreet_note].
  - destruct (lookup s0 (sessions (env s))) as [ss |]; [| discriminate].
    destruct (opened ss); [discriminate |]. injection H as <-.
    apply mic_gated_onopen.
    eapply mic_gated_harmless; [exact G | apply harmless_set_env; discreet_note].
  - destruct (lookup s0 (sessions (env s))) as [ss |]; [| discriminate].
    destruct (opened ss); [| discriminate]. injection H as <-.
    eapply mic_gated_harmless; [exact G | apply harmless_onmessage].
  - destruct (lookup s0 (sessions (env s))) as [ss |]; [| discriminate].
    injection H as <-.
    eapply mic_gated_harmless; [| apply harmless_onclose].
    eapply mic_gated_harmless; [exact G | apply harmless_set_env; discreet_note].
  - destruct (lookup s0 (sessions (env s))) as [ss |]; [| discriminate].
    injection H as <-.
    eapply mic_gated_harmless; [exact G | apply harmless_onerror].
  - destruct (lookup t (timers (env s))) as [tm |] eqn:L; [| discriminate].
    destruct (due tm <=? clock (env s)) eqn:D; [| discriminate].
    injection H as <-. apply Z.leb_le in D. apply lookup_In in L.
    destruct tm as [d ev j]. destruct j as [| sid |]; cbn [runs].
    + eapply mic_gated_harmless; [| apply harmless_idle_timeout].
      eapply mic_gated_harmless; [exact G |].
      apply harmless_set_env. unfold fired. cbn [every runs]. discreet_note.
    + destruct (gate_timers s G t _ sid L eq_refl) as (He & Hg).
      cbn [every due] in He, Hg. subst ev.
      assert (G1 : mic_gated
                     (set_env (fired t {| due := d; every := None;
                                          runs := mic_job sid |}) s)).
      { eapply mic_gated_harmless; [exact G |].
        apply harmless_set_env. unfold fired. cbn [every runs]. discreet_note. }
      apply mic_gated_attach; [exact G1 |].
      cbn. exact (greeted_later _ _ _ _ Hg D).
    + eapply mic_gated_harmless; [| apply harmless_keepalive].
      eapply mic_gated_harmless; [exact G |].
      apply harmless_set_env. unfold fired. cbn [every runs]. discreet_note.
  - destruct (lookup p (processors (env s))) as [[sid c] |] eqn:L; [| discriminate].
    injection H as <-. apply lookup_In in L.
    apply mic_gated_onaudioprocess; [exact G |].
    exact (gate_processors s G p sid c L).
  - injection H as <-.
    eapply mic_gated_harmless; [exact G | apply harmless_onended].
  - injection H as <-.
    eapply mic_gated_harmless; [exact G | apply harmless_stopLiveSession].
Qed.

Lemma mic_gated_run h s s' :
  mic_gated s -> run faults config h s = Some s' -> mic_gated s'.
Proof.
  revert s. induction h as [| [t e] h IH]; intros s G H; cbn [run] in H.
  - injection H as <-. exact G.
  - destruct (at_time t s) as [s1 |] eqn:A; [| discriminate].
    destruct (step faults config e s1) as [s2 |] eqn:S; [| discriminate].
    apply (IH s2); [| exact H].
    exact (mic_gated_step e s1 s2 (mic_gated_at_time t s s1 G A) S).
Qed.

End Gated.

Lemma mic_gated_initial t0 : mic_gated (initial t0).
Proof.
  constructor; cbn.
  - intros t tm sid [].
  - intros p sid c [].
  - intros pre t1 sid frame post E. destruct pre; discriminate.
Qed.



Definition is_exchange (c : call) : bool :=
  match c with
  | send_text _ _ | send_media _ _ => true
  | _ => false
  end.

Example demo_greeting_then_frame :
  filter (fun tc => is_exchange (snd tc)) (calls (env live_demo))
  = [ (2000, send_text 6%nat greeting_instruction);
      (2900, send_media 6%nat loud) ].
Proof. vm_compute. reflexivity. Qed.

(* ================================================================== *)
(** * Further properties of the voice session                          *)
(* ================================================================== *)

(** Edge cases of the voice-activity detector, what a failed start leaves
    behind, the callbacks that arrive after a teardown, two invariants of
    the timers, and what the widget shows when a session ends. *)
(* ================================================================== *)
(** ** Frames that are never speech                                    *)
(* ================================================================== *)

(** A sample that compares equal to zero: [0] or [-0]. *)
Definition is_zero (x : float) : bool := (x =? 0)%float.

Lemma is_zero_cases x : is_zero x = true -> x = 0%float \/ x = (-0)%float.
Proof.
  unfold is_zero. rewrite eqb_spec. intro H.
  rewrite <- (SF2Prim_Prim2SF x).
  destruct (Prim2SF x) as [[|] | [|] | | s m e]; try discriminate H.
  - right. reflexivity.
  - left. reflexivity.
  - destruct s; discriminate H.
Qed.

Lemma sum_of_zeros frame :
  forallb is_zero frame = true ->
  fold_left (fun sum x => sum + x * x)%float frame 0%float = 0%float.
Proof.
  induction frame as [| x r IH]; cbn [forallb fold_left]; [reflexivity |].
  intro H. apply andb_prop in H. destruct H as [Hx Hr].
  destruct (is_zero_cases x Hx) as [-> | ->].
  - change (0 + 0 * 0)%float with 0%float. exact (IH Hr).
  - change (0 + -0 * -0)%float with 0%float. exact (IH Hr).
Qed.

(** X1. A frame whose samples are all zero ([0] or [-0]), of any length,
    the empty frame included, is never speech: [calculateRMS] yields [0]
    (or [NaN] for the empty frame, [0 / 0]) and the comparison with
    [SILENCE_THRESHOLD] is false. *)
Theorem digital_silence_is_never_speech (frame : list float) :
  forallb is_zero frame = true -> is_speech frame = false.
Proof.
  intro H. unfold is_speech, calculateRMS. cbv zeta.
  rewrite (sum_of_zeros frame H).
  rewrite ltb_spec, sqrt_spec, div_spec.
  change (Prim2SF 0) with (S754_zero false).
  destruct (Prim2SF (of_uint63 (Uint63.of_Z (Z.of_nat (List.length frame)))))
    as [s | s | | s m e]; cbn; try reflexivity.
Qed.

Lemma digital_silence_is_never_speech_witness :
  forallb is_zero [0%float; (-0)%float; 0%float] = true
  /\ is_speech [0%float; (-0)%float; 0%float] = false.
Proof.
  split; [reflexivity |].
  apply (digital_silence_is_never_speech [0%float; (-0)%float; 0%float]).
  reflexivity.
Defined.

(** The empty frame: [0 / 0]. *)
Example empty_frame_rms : is_nan (calculateRMS []) = true.
Proof. reflexivity. Qed.

Lemma is_nan_spec x : is_nan x = true -> Prim2SF x = S754_nan.
Proof.
  unfold is_nan. rewrite eqb_spec. intro H. apply negb_true_iff in H.
  destruct (Prim2SF x) as [s | s | | s m e]; try reflexivity; exfalso.
  - discriminate H.
  - destruct s; discriminate H.
  - unfold SFeqb, SFcompare in H. rewrite Z.compare_refl in H.
    change (PosDef.Pos.compare_cont Eq m m) with (Pos.compare m m) in H.
    rewrite Pos.compare_refl in H. destruct s; discriminate H.
Qed.

Lemma add_square_nan acc x :
  Prim2SF acc = S754_nan \/ Prim2SF x = S754_nan ->
  Prim2SF (acc + x * x) = S754_nan.
Proof.
  intro H. rewrite add_spec, mul_spec. destruct H as [H | H]; rewrite H.
  - reflexivity.
  - cbn. destruct (Prim2SF acc); reflexivity.
Qed.

Lemma sum_nan frame : forall acc,
  Prim2SF acc = S754_nan \/ existsb is_nan frame = true ->
  Prim2SF (fold_left (fun sum x => sum + x * x)%float frame acc) = S754_nan.
Proof.
  induction frame as [| x r IH]; intros acc H; cbn [fold_left existsb] in *.
  - destruct H as [H | H]; [exact H | discriminate H].
  - apply IH. destruct H as [H | H].
    + left. apply add_square_nan. left. exact H.
    + apply orb_prop in H. destruct H as [H | H].
      * left. apply add_square_nan. right. apply is_nan_spec. exact H.
      * right. exact H.
Qed.

(** X2. A frame that holds a [NaN] sample is never speech, however loud
    its other samples: the sum of squares is [NaN] from that sample on, so
    is the root, and [NaN > SILENCE_THRESHOLD] is false. *)
Theorem nan_sample_is_never_speech (frame : list float) :
  existsb is_nan frame = true -> is_speech frame = false.
Proof.
  intro H. unfold is_speech, calculateRMS. cbv zeta.
  rewrite ltb_spec, sqrt_spec, div_spec.
  rewrite (sum_nan frame 0%float (or_intror H)). reflexivity.
Qed.

Lemma nan_sample_is_never_speech_witness :
  existsb is_nan [0.5%float; nan; (-0.5)%float] = true
  /\ is_speech [0.5%float; nan; (-0.5)%float] = false.
Proof.
  split; [reflexivity |].
  apply (nan_sample_is_never_speech [0.5%float; nan; (-0.5)%float]).
  reflexivity.
Defined.

(* ================================================================== *)
(** ** A start that fails                                              *)
(* ================================================================== *)

(** What the [catch] of [startLiveSession] shows for a rejected [await]:
    the text after "Connection failed: ". *)
Definition surfaced (e : event) : option string :=
  match e with
  | getUserMedia_settled (Some err) =>
      Some (if is_denial err then mic_denied_message
            else or_default (message err) "Unknown error")
  | resume_settled _ (Some err) =>
      Some (or_default (message err) "Unknown error")
  | _ => None
  end.

(** The component after the [catch] (lines 339-344). *)
Definition start_failed (txt : string) (w : widget) : widget :=
  set_errorMsg (Some ("Connection failed: " ++ txt)%string)
    (set_isLiveActive false (set_connectionStatus disconnected w)).

Lemma start_failure_step
    (faults : call -> bool) (config : BusinessConfig)
    (e : event) (txt : string) (s s' : world) :
  only_throws guarded faults ->
  surfaced e = Some txt ->
  step faults config e s = Some s' ->
  ui s' = start_failed txt (ui s)
  /\ made s' = made s ++ [console_error "Failed to start live session:"]
  /\ timers (env s') = timers (env s)
  /\ contexts (env s') = contexts (env s)
  /\ sessions (env s') = sessions (env s)
  /\ clock (env s') = clock (env s).
Proof.
  intros Hf Hsurf Hstep.
  assert (Hlog : faults (console_error "Failed to start live session:") = false)
    by (apply (spared guarded faults _ Hf); reflexivity).
  destruct e as [| c [err |] | [err |] | | | | | | | |]; try discriminate Hsurf;
    cbn [surfaced] in Hsurf; injection Hsurf as <-; cbn [step] in Hstep;
    destruct (existsb _ _); try discriminate Hstep; injection Hstep as <-;
    unfold exec, after_resume, after_getUserMedia, start_guarded, just;
    unfold try_catch, throw, bind, put, invoke; cbn [fst snd].
  - rewrite Hlog. cbn. unfold made. cbn. rewrite map_app.
    repeat apply conj; reflexivity.
  - destruct (is_denial err); cbn [fst snd]; rewrite Hlog; cbn; unfold made; cbn;
      rewrite map_app; repeat apply conj; reflexivity.
Qed.

(** X3. When an [await] of [startLiveSession] is rejected (the microphone
    request, or resuming the output context), the [catch] logs the error,
    sets the status to [disconnected], clears [isLiveActive] and shows
    "Connection failed: " followed by the error's message, by "Unknown
    error" when the message is empty, or by the microphone-permission
    text when the error is a [NotAllowedError] or [PermissionDeniedError].
    It releases nothing: no other call is made, the pending timers, the
    audio contexts and the transports are as before, and every ref still
    holds what it held, so the releases a teardown owes are the same. *)
Theorem failed_start_releases_nothing
    (faults : call -> bool) (config : BusinessConfig)
    (e : event) (txt : string) (s s' : world) :
  only_throws guarded faults ->
  surfaced e = Some txt ->
  step faults config e s = Some s' ->
  errorMsg (ui s') = Some ("Connection failed: " ++ txt)%string
  /\ connectionStatus (ui s') = disconnected
  /\ isLiveActive (ui s') = false
  /\ made s' = made s ++ [console_error "Failed to start live session:"]
  /\ timers (env s') = timers (env s)
  /\ contexts (env s') = contexts (env s)
  /\ sessions (env s') = sessions (env s)
  /\ teardown_calls (ui s') = teardown_calls (ui s).
Proof.
  intros Hf Hsurf Hstep.
  destruct (start_failure_step faults config e txt s s' Hf Hsurf Hstep)
    as (Hui & Hmade & Ht & Hc & Hs & _).
  rewrite Hui. repeat apply conj; try reflexivity; assumption.
Qed.

Definition denial : exn :=
  {| name := "NotAllowedError"; message := "Permission denied" |}.

(** The sample start, waiting for the microphone permission. *)
Definition demo_prompting : world :=
  after reliable [ (1000, click_start true running) ].

Lemma failed_start_releases_nothing_witness :
  only_throws guarded reliable
  /\ surfaced (getUserMedia_settled (Some denial)) = Some mic_denied_message
  /\ exists s',
       step reliable demo_config (getUserMedia_settled (Some denial))
         demo_prompting = Some s'
       /\ errorMsg (ui s')
          = Some ("Connection failed: " ++ mic_denied_message)%string
       /\ teardown_calls (ui s') = teardown_calls (ui demo_prompting).
Proof.
  split; [apply reliable_only_throws |]. split; [reflexivity |].
  destruct (step reliable demo_config (getUserMedia_settled (Some denial))
              demo_prompting) as [s' |] eqn:E;
    [| vm_compute in E; discriminate E].
  exists s'. split; [reflexivity |].
  destruct (failed_start_releases_nothing reliable demo_config
              (getUserMedia_settled (Some denial)) mic_denied_message
              demo_prompting s' (reliable_only_throws guarded) eq_refl E)
    as (Herr & _ & _ & _ & _ & _ & _ & Hcalls).
  split; assumption.
Defined.

(** What the failed start of the sample still holds: the keep-alive
    interval, the idle timer and both audio contexts. *)
Example demo_prompting_owes :
  teardown_calls (ui demo_prompting)
  = [clearInterval 4; clearTimeout 1; context_close 2; context_close 3]%nat.
Proof. vm_compute. reflexivity. Qed.

(** X4. After a start that failed, what it had acquired is released only
    when the idle timer armed by that start fires, not before its
    deadline: the handler then makes every release the failed start owed,
    and the failure message is replaced by "Session ended due to
    inactivity.". *)
Theorem failed_start_is_cleaned_up_by_idle_timer
    (faults : call -> bool) (config : BusinessConfig)
    (e : event) (txt : string) (i : handle) (tm : timer) (t t' : Z)
    (s s2 : world) :
  only_throws guarded faults ->
  surfaced e = Some txt ->
  isUserDisconnectingRef (ui s) = false ->
  lookup i (timers (env s)) = Some tm ->
  runs tm = idle_job ->
  run faults config [(t, e); (t', timer_fires i)] s = Some s2 ->
  due tm <= t'
  /\ (exists s1,
        run faults config [(t, e)] s = Some s1
        /\ errorMsg (ui s1) = Some ("Connection failed: " ++ txt)%string
        /\ made s1 = made s ++ [console_error "Failed to start live session:"])
  /\ errorMsg (ui s2) = Some inactivity_message
  /\ ui s2 = released (ui s2)
  /\ made s2
     = made s
       ++ console_error "Failed to start live session:"
          :: console_log "Idle timeout reached - closing session"
          :: teardown_calls (ui s).
Proof.
  intros Hf Hsurf Hflag Hi Hjob Hrun.
  apply run_cons_inv in Hrun. destruct Hrun as (s1 & Hstep & Ht & Hrun).
  assert (Hone : run faults config [(t, e)] s = Some s1).
  { cbn [run]. unfold at_time.
    apply Z.leb_le in Ht. rewrite Ht. rewrite Hstep. reflexivity. }
  destruct (start_failure_step faults config e txt _ s1 Hf Hsurf Hstep)
    as (Hui & Hmade & Htm & _ & _ & Hck).
  cbn [ui env set_env timers set_clock clock] in Hui, Htm, Hck.
  unfold made in Hmade at 2. cbn [env set_env calls set_clock] in Hmade.
  fold (made s) in Hmade.
  apply run_one_inv in Hrun. destruct Hrun as (_ & Hfire).
  cbn [step] in Hfire.
  change (timers (env (set_env (set_clock t') s1))) with (timers (env s1))
    in Hfire.
  rewrite Htm, Hi in Hfire.
  change (clock (env (set_env (set_clock t') s1))) with t' in Hfire.
  destruct (due tm <=? t') eqn:Hdue; [| discriminate].
  injection Hfire as <-. rewrite Hjob. cbn [run_job].
  match goal with
  | |- context [exec (idle_timeout faults) ?x] =>
      destruct (idle_timeout_performs faults Hf x) as (_ & H2 & H3);
      assert (Hm : made x = made s1)
        by (unfold made, fired; destruct (every tm); reflexivity);
      assert (Hu : ui x = ui s1) by reflexivity
  end.
  unfold exec. rewrite Hm, Hu in H3. rewrite Hu in H2.
  assert (Hflag1 : isUserDisconnectingRef (ui s1) = false)
    by (rewrite Hui; exact Hflag).
  assert (Howed : teardown_calls (ui s1) = teardown_calls (ui s))
    by (rewrite Hui; reflexivity).
  repeat apply conj.
  - apply Z.leb_le. exact Hdue.
  - exists s1. repeat apply conj; try assumption. rewrite Hui. reflexivity.
  - rewrite H2. unfold after_idle. rewrite Hflag1. reflexivity.
  - rewrite H2. reflexivity.
  - rewrite H3, Hmade, Howed, <- app_assoc. reflexivity.
Qed.

Lemma failed_start_is_cleaned_up_by_idle_timer_witness :
  only_throws guarded reliable
  /\ surfaced (getUserMedia_settled (Some denial)) = Some mic_denied_message
  /\ isUserDisconnectingRef (ui demo_prompting) = false
  /\ lookup 1%nat (timers (env demo_prompting))
     = Some {| due := 91000; every := None; runs := idle_job |}
  /\ exists s2,
       run reliable demo_config
         [ (1500, getUserMedia_settled (Some denial));
           (91000, timer_fires 1%nat) ] demo_prompting = Some s2
       /\ errorMsg (ui s2) = Some inactivity_message
       /\ made s2
          = made demo_prompting
            ++ console_error "Failed to start live session:"
               :: console_log "Idle timeout reached - closing session"
               :: teardown_calls (ui demo_prompting).
Proof.
  assert (Hi : lookup 1%nat (timers (env demo_prompting))
               = Some {| due := 91000; every := None; runs := idle_job |})
    by (vm_compute; reflexivity).
  split; [apply reliable_only_throws |]. split; [reflexivity |].
  split; [vm_compute; reflexivity |]. split; [exact Hi |].
  destruct (run reliable demo_config
              [ (1500, getUserMedia_settled (Some denial));
                (91000, timer_fires 1%nat) ] demo_prompting)
    as [s2 |] eqn:E; [| vm_compute in E; discriminate E].
  exists s2. split; [reflexivity |].
  destruct (failed_start_is_cleaned_up_by_idle_timer reliable demo_config
              (getUserMedia_settled (Some denial)) mic_denied_message
              1%nat {| due := 91000; every := None; runs := idle_job |}
              1500 91000 demo_prompting s2
              (reliable_only_throws guarded) eq_refl eq_refl Hi eq_refl E)
    as (_ & _ & Herr & _ & Hmade).
  split; assumption.
Defined.

(* ================================================================== *)
(** ** The transport's error event                                     *)
(* ================================================================== *)



(* ================================================================== *)
(** ** Callbacks that arrive after the teardown                        *)
(* ================================================================== *)

(** Callbacks of a session that may still be delivered once the session is
    gone: a message of its transport, the 800 ms microphone timer, a tick
    of a keep-alive interval, the end of a playback source. *)
Definition late (e : event) (s : world) : bool :=
  match e with
  | transport_message _ _ _ _ | source_ended _ => true
  | timer_fires t =>
      match lookup t (timers (env s)) with
      | Some tm => match runs tm with
                   | idle_job => false
                   | _ => true
                   end
      | None => false
      end
  | _ => false
  end.

Definition carries_citations (e : event) : bool :=
  match e with
  | transport_message _ msg _ _ =>
      match groundingChunks msg with
      | Some (_ :: _) => true
      | _ => false
      end
  | _ => false
  end.

Lemma released_set_messages (w : widget) (l : list ChatMessage) :
  w = released w -> set_messages l w = released (set_messages l w).
Proof.
  intro H. destruct w. unfold released in *. cbn in *.
  injection H as -> -> -> -> -> -> -> -> -> -> ->. reflexivity.
Qed.

(** X6. Once the component is torn down (every ref cleared), a callback of
    the old session that is still delivered does nothing: a message of the
    transport schedules no audio and arms no idle timer, the 800 ms timer
    attaches no microphone, a keep-alive tick plays no tone, the end of a
    playback source changes nothing. No call is made, the refs stay
    cleared and the error message stays; the one effect left is that a
    message with grounding chunks still attaches its citations. *)
Theorem late_callbacks_do_nothing
    (faults : call -> bool) (config : BusinessConfig)
    (e : event) (s s' : world) :
  ui s = released (ui s) ->
  late e s = true ->
  step faults config e s = Some s' ->
  calls (env s') = calls (env s)
  /\ ui s' = released (ui s')
  /\ errorMsg (ui s') = errorMsg (ui s)
  /\ (carries_citations e = false -> ui s' = ui s).
Proof.
  intros Hrel Hlate Hstep.
  assert (Hoc : outputContextRef (ui s) = None) by (rewrite Hrel; reflexivity).
  assert (Hic : inputContextRef (ui s) = None) by (rewrite Hrel; reflexivity).
  assert (Hsrc : sourcesRef (ui s) = []) by (rewrite Hrel; reflexivity).
  destruct e; try discriminate Hlate; cbn [step late] in Hstep, Hlate.
  - (* a message *)
    destruct (lookup s0 (sessions (env s))) as [ss |]; [| discriminate].
    destruct (opened ss); [| discriminate]. injection Hstep as <-.
    unfold exec, onmessage, enqueue_audio, attach_citations.
    unfold bind, get, put, ret. cbn [fst snd carries_citations]. rewrite Hoc.
    destruct (truthy (inlineData msg)); cbn [fst snd];
      destruct (groundingChunks msg) as [[| ch chs] |]; cbn [fst snd];
      try (repeat apply conj; auto; exact Hrel).
    all: destruct (newSources_of (ch :: chs)); cbn [fst snd].
    all: repeat apply conj; auto; try discriminate; try exact Hrel.
    all: apply released_set_messages; exact Hrel.
  - (* a timer *)
    destruct (lookup t (timers (env s))) as [tm |] eqn:L; [| discriminate].
    destruct (due tm <=? clock (env s)); [| discriminate].
    injection Hstep as <-.
    destruct (runs tm) eqn:Rn; try discriminate Hlate; cbn [run_job].
    + unfold exec, attach_microphone, bind, get, ret. cbn [fst snd ui set_env].
      rewrite Hic. cbn [fst snd].
      repeat apply conj; auto.
      unfold fired. destruct (every tm); reflexivity.
    + unfold exec, keepalive, bind, get, ret. cbn [fst snd ui set_env].
      rewrite Hoc. cbn [fst snd].
      repeat apply conj; auto.
      unfold fired. destruct (every tm); reflexivity.
  - (* a source has ended *)
    injection Hstep as <-. unfold exec, onended, put. cbn [fst snd].
    assert (E : set_ui (fun w => set_sourcesRef (remove_once src (sourcesRef w)) w) s
                = s).
    { destruct s as [w b]. unfold set_ui. cbn [ui env] in *. f_equal.
      rewrite Hsrc. cbn. rewrite Hrel. reflexivity. }
    rewrite E. repeat apply conj; auto.
Qed.

Definition demo_ended : world :=
  after reliable (demo_session ++ [ (5000, click_stop) ]).

Lemma late_callbacks_do_nothing_witness :
  ui demo_ended = released (ui demo_ended)
  /\ late (transport_message 6%nat (audio_message "UklGRg==") 5 (Some 3%float))
       demo_ended = true
  /\ exists s',
       step reliable demo_config
         (transport_message 6%nat (audio_message "UklGRg==") 5 (Some 3%float))
         demo_ended = Some s'
       /\ calls (env s') = calls (env demo_ended)
       /\ ui s' = ui demo_ended.
Proof.
  assert (Hrel : ui demo_ended = released (ui demo_ended))
    by (vm_compute; reflexivity).
  split; [exact Hrel |]. split; [reflexivity |].
  destruct (step reliable demo_config
              (transport_message 6%nat (audio_message "UklGRg==") 5 (Some 3%float))
              demo_ended) as [s' |] eqn:E; [| vm_compute in E; discriminate E].
  exists s'. split; [reflexivity |].
  destruct (late_callbacks_do_nothing reliable demo_config
              (transport_message 6%nat (audio_message "UklGRg==") 5 (Some 3%float))
              demo_ended s' Hrel eq_refl E) as (Hcalls & _ & _ & Hui).
  split; [exact Hcalls | exact (Hui eq_refl)].
Defined.

(* ================================================================== *)
(** ** The inactivity message and the closed event                     *)
(* ================================================================== *)



(* ================================================================== *)
(** ** State invariants                                                *)
(* ================================================================== *)

(** A predicate on states that a computation preserves, as a relation
    between the state before and the state after. *)
Definition keeps (I : world -> Prop) : world -> world -> Prop :=
  fun s s' => I s -> I s'.

#[export] Instance keeps_pre (I : world -> Prop) : PreOrder (keeps I).
Proof.
  split.
  - intros s H. exact H.
  - intros a b c Hab Hbc H. exact (Hbc (Hab H)).
Qed.

(** One step of [steady_split]. *)
Ltac steady_step :=
  lazymatch goal with
  | |- steady _ (match None with _ => _ end) => cbv beta iota
  | |- steady _ (match Some _ with _ => _ end) => cbv beta iota
  | |- steady _ (ret _) => rule steady_ret
  | |- steady _ (throw _) => rule steady_throw
  | |- steady _ (get _) => rule steady_get
  | |- steady _ (look _) => rule steady_look
  | |- steady _ (swallow _) => rule steady_swallow
  | |- steady _ (promise_then _) => rule steady_promise_then
  | |- steady _ (when_ true _) => unfold when_
  | |- steady _ (when_ false _) => unfold when_
  | |- steady _ (when_ _ _) => rule steady_when
  | |- steady _ (for_each _ _) => rule steady_for_each; intro
  | |- steady _ (stop_source _ _) => unfold stop_source, just
  | |- steady _ (bind _ _) => rule steady_bind; [| intro]
  | |- steady _ (try_catch _ _) => rule steady_try_catch; [| intro]
  | |- steady _ (match ?x with _ => _ end) => destruct x
  end.

(** The handlers, down to the timer operations and [resetIdleTimer]. *)
Ltac unfold_to_timers :=
  unfold onmessage, enqueue_audio, attach_citations, onaudioprocess, onopen,
    onclose, onerror, onended, idle_timeout, keepalive, attach_microphone,
    startLiveSession, open_contexts, after_resume, after_getUserMedia,
    start_guarded, start_microphone, stopLiveSession, Session_close,
    ScriptProcessor_disconnect, AudioContext_close, AudioContext_new,
    AudioContext_state, Date_now, just.

(* ================================================================== *)
(** ** One idle timer at a time                                        *)
(* ================================================================== *)

Definition is_idle (j : job) : bool :=
  match j with
  | idle_job => true
  | _ => false
  end.

(** The pending idle timers. *)
Definition idle_timers (s : world) : list (handle * timer) :=
  filter (fun x => is_idle (runs (snd x))) (timers (env s)).

(** Timers are kept under distinct handles, and a pending idle timer is the
    one [idleTimerRef] holds. *)
Record idle_tracked (s : world) : Prop := {
  it_keys : NoDup (map fst (timers (env s)));
  it_ref :
    forall t tm, In (t, tm) (timers (env s)) -> runs tm = idle_job ->
                 idleTimerRef (ui s) = Some t
}.

Lemma in_drop_neq {V} k k' (v : V) l : In (k', v) (drop k l) -> k' <> k.
Proof.
  unfold drop. intro H. apply filter_In in H. destruct H as [_ H].
  cbn in H. apply negb_true_iff in H. apply Nat.eqb_neq in H. congruence.
Qed.

Lemma keys_filter {V} (f : handle * V -> bool) (l : list (handle * V)) :
  NoDup (map fst l) -> NoDup (map fst (filter f l)).
Proof.
  induction l as [| [k' v] l IH]; cbn; [auto |].
  intro H. inversion H as [| ? ? Hn Hd]; subst.
  destruct (f (k', v)); cbn; [| auto].
  constructor; [| auto].
  intro Hin. apply Hn. apply in_map_iff in Hin.
  destruct Hin as ([k2 v2] & E & Hin). cbn in E. subst k2.
  apply filter_In in Hin. apply in_map_iff. exists (k', v2). tauto.
Qed.

Lemma keys_drop {V} k (l : list (handle * V)) :
  NoDup (map fst l) -> NoDup (map fst (drop k l)).
Proof. apply keys_filter. Qed.

Lemma keys_store {V} k (v : V) l :
  NoDup (map fst l) -> NoDup (map fst (store k v l)).
Proof.
  intro H. unfold store. cbn. constructor; [| apply keys_drop; exact H].
  intro Hin. apply in_map_iff in Hin. destruct Hin as ([k2 v2] & E & Hin).
  cbn in E. subst k2. exact (in_drop_neq k k v2 l Hin eq_refl).
Qed.

(** What a call may do to the timer table without disturbing the
    invariant: cancel timers, or add timers that are not idle timers. *)
Definition tame (l l' : list (handle * timer)) : Prop :=
  (NoDup (map fst l) -> NoDup (map fst l'))
  /\ (forall x, In x l' -> runs (snd x) = idle_job -> In x l).

Lemma tame_same l : tame l l.
Proof. split; auto. Qed.

Lemma tame_drop k l : tame l (drop k l).
Proof. split; [apply keys_drop | intros x H _; exact (in_drop k x l H)]. Qed.

Lemma tame_store k v l : runs v <> idle_job -> tame l (store k v l).
Proof.
  intro Hv. split; [apply keys_store |].
  intros x H Hx. apply in_store in H. destruct H as [-> | H]; [| exact H].
  contradiction.
Qed.

Section Tracked.

Variable faults : call -> bool.
Variable config : BusinessConfig.

Lemma tracked_tame s s' :
  idleTimerRef (ui s') = idleTimerRef (ui s) ->
  tame (timers (env s)) (timers (env s')) ->
  keeps idle_tracked s s'.
Proof.
  intros Hr [Hk Hi] [Ik Ir]. constructor; [auto |].
  intros t tm Hin Hj. rewrite Hr. apply (Ir t tm); [| exact Hj].
  exact (Hi (t, tm) Hin Hj).
Qed.

Lemma tracked_put g :
  (forall w, idleTimerRef (g w) = idleTimerRef w) ->
  steady (keeps idle_tracked) (put g).
Proof. intros Hg s. apply tracked_tame; [apply Hg | apply tame_same]. Qed.

Lemma tracked_allocate : steady (keeps idle_tracked) allocate.
Proof. intro s. apply tracked_tame; [reflexivity | apply tame_same]. Qed.

Lemma tracked_browser_update f :
  (forall b, tame (timers b) (timers (f b))) ->
  steady (keeps idle_tracked) (browser_update f).
Proof. intros Hf s. apply tracked_tame; [reflexivity | apply Hf]. Qed.

Lemma tracked_invoke c note :
  (forall b, tame (timers b) (timers (note b))) ->
  steady (keeps idle_tracked) (invoke faults c note).
Proof.
  intros Hn s. unfold invoke.
  pose proof (Hn (set_calls (calls (env s) ++ [(clock (env s), c)]) (env s))) as H.
  destruct (faults c); apply tracked_tame; try reflexivity; cbn [snd env].
  - apply tame_same.
  - exact H.
Qed.

Lemma tracked_setTimeout j ms :
  j <> idle_job -> steady (keeps idle_tracked) (window_setTimeout faults j ms).
Proof.
  intro Hj. unfold window_setTimeout, Date_now. steady_split.
  - apply tracked_allocate.
  - apply tracked_invoke. intro b. apply tame_store. exact Hj.
Qed.

Lemma tracked_setInterval j ms :
  j <> idle_job -> steady (keeps idle_tracked) (window_setInterval faults j ms).
Proof.
  intro Hj. unfold window_setInterval, Date_now. steady_split.
  - apply tracked_allocate.
  - apply tracked_invoke. intro b. apply tame_store. exact Hj.
Qed.

Lemma tracked_clearTimeout t :
  steady (keeps idle_tracked) (window_clearTimeout faults t).
Proof. apply tracked_invoke. intro b. apply tame_drop. Qed.

Lemma tracked_clearInterval t :
  steady (keeps idle_tracked) (window_clearInterval faults t).
Proof. apply tracked_invoke. intro b. apply tame_drop. Qed.

(** No idle timer is left once the one [idleTimerRef] holds is cancelled. *)
Lemma none_left s :
  idle_tracked s ->
  forall x,
    In x (match idleTimerRef (ui s) with
          | Some h => drop h (timers (env s))
          | None => timers (env s)
          end) ->
    runs (snd x) = idle_job -> False.
Proof.
  intros [_ Ir] [h' tm] Hin Hj. cbn in Hj.
  destruct (idleTimerRef (ui s)) as [h |] eqn:Ht.
  - pose proof (in_drop_neq h h' tm _ Hin) as Hne.
    apply in_drop in Hin. pose proof (Ir h' tm Hin Hj) as E. congruence.
  - pose proof (Ir h' tm Hin Hj) as E. discriminate.
Qed.

(** [resetIdleTimer] cancels the timer the ref holds before it arms the
    next one. *)
Lemma tracked_resetIdleTimer : steady (keeps idle_tracked) (resetIdleTimer faults).
Proof.
  intros s I. pose proof (none_left s I) as Hnone.
  unfold resetIdleTimer, window_clearTimeout, window_setTimeout, Date_now.
  unfold bind, get, put, look, ret, allocate, invoke. cbn [fst snd].
  destruct I as [Ik Ir].
  destruct (idleTimerRef (ui s)) as [t |] eqn:Ht; cbn [fst snd].
  - destruct (faults (clearTimeout t)); cbn [fst snd].
    + constructor; cbn; [exact Ik |]. intros h tm Hin Hj. rewrite Ht.
      exact (Ir h tm Hin Hj).
    + destruct (faults (setTimeout _ _)); cbn [fst snd].
      * constructor; cbn -[drop]; [apply keys_drop; exact Ik |].
        intros h tm Hin Hj. exfalso. exact (Hnone (h, tm) Hin Hj).
      * constructor; cbn -[store drop]; [apply keys_store, keys_drop; exact Ik |].
        intros h tm Hin Hj. apply in_store in Hin.
        destruct Hin as [E | Hin]; [injection E as -> _; reflexivity |].
        exfalso. exact (Hnone (h, tm) Hin Hj).
  - destruct (faults (setTimeout _ _)); cbn [fst snd].
    + constructor; cbn; [exact Ik |].
      intros h tm Hin Hj. exfalso. exact (Hnone (h, tm) Hin Hj).
    + constructor; cbn -[store drop]; [apply keys_store; exact Ik |].
      intros h tm Hin Hj. apply in_store in Hin.
      destruct Hin as [E | Hin]; [injection E as -> _; reflexivity |].
      exfalso. exact (Hnone (h, tm) Hin Hj).
Qed.

(** The idle-timer block of [stopLiveSession] (lines 361-364). *)
Lemma tracked_clear_idle (rest : M unit) :
  steady (keeps idle_tracked) rest ->
  steady (keeps idle_tracked)
    (i <- get idleTimerRef ;;
     match i with
     | Some t => window_clearTimeout faults t ;; put (set_idleTimerRef None)
     | None => ret tt
     end ;;
     rest).
Proof.
  intros Hrest s I. pose proof (none_left s I) as Hnone.
  unfold window_clearTimeout. unfold bind at 1 2. unfold get. cbn [fst snd].
  destruct I as [Ik Ir].
  destruct (idleTimerRef (ui s)) as [t |] eqn:Ht.
  - unfold bind, put, invoke. cbn [fst snd].
    destruct (faults (clearTimeout t)); cbn [fst snd].
    + constructor; cbn; [exact Ik |]. intros h tm Hin Hj. rewrite Ht.
      exact (Ir h tm Hin Hj).
    + apply Hrest. constructor; cbn -[drop]; [apply keys_drop; exact Ik |].
      intros h tm Hin Hj. exfalso. exact (Hnone (h, tm) Hin Hj).
  - cbn [ret fst snd]. apply Hrest. constructor; [exact Ik |].
    intros h tm Hin Hj. rewrite Ht. exact (Ir h tm Hin Hj).
Qed.

End Tracked.

Ltac tame_note :=
  let b := fresh "b" in
  intro b;
  repeat match goal with
         | |- context [match ?y with _ => _ end] => destruct y
         end;
  cbn -[store drop];
  first [ apply tame_same | apply tame_drop | apply tame_store; discriminate ].

Ltac tracked :=
  unfold_to_timers;
  repeat first
    [ apply tracked_clear_idle
    | apply tracked_resetIdleTimer
    | apply tracked_setTimeout; discriminate
    | apply tracked_setInterval; discriminate
    | apply tracked_clearInterval
    | apply tracked_put; reflexivity
    | apply tracked_allocate
    | apply tracked_browser_update; tame_note
    | apply tracked_invoke; tame_note
    | steady_step ].

Section TrackedHandlers.

Variable faults : call -> bool.
Variable config : BusinessConfig.

Lemma tracked_stopLiveSession b :
  steady (keeps idle_tracked) (stopLiveSession faults b).
Proof. tracked. Qed.

Lemma tracked_startLiveSession k c :
  steady (keeps idle_tracked) (startLiveSession faults k c).
Proof. tracked. Qed.

Lemma tracked_after_resume c r :
  steady (keeps idle_tracked) (after_resume faults c r).
Proof. tracked. Qed.

Lemma tracked_after_getUserMedia r :
  steady (keeps idle_tracked) (after_getUserMedia faults config r).
Proof. tracked. Qed.

Lemma tracked_onopen sid : steady (keeps idle_tracked) (onopen faults sid).
Proof. tracked. Qed.

Lemma tracked_onmessage m t d :
  steady (keeps idle_tracked) (onmessage faults m t d).
Proof. tracked. Qed.

Lemma tracked_onclose : steady (keeps idle_tracked) (onclose faults).
Proof. tracked. Qed.

Lemma tracked_onerror m : steady (keeps idle_tracked) (onerror faults m).
Proof. tracked. Qed.

Lemma tracked_run_job j : steady (keeps idle_tracked) (run_job faults j).
Proof. destruct j; cbn [run_job]; tracked. Qed.

Lemma tracked_onaudioprocess sid f :
  steady (keeps idle_tracked) (onaudioprocess faults sid f).
Proof. tracked. Qed.

Lemma tracked_onended src : steady (keeps idle_tracked) (onended src).
Proof. tracked. Qed.

Lemma tracked_fired t tm s :
  idle_tracked s -> lookup t (timers (env s)) = Some tm ->
  idle_tracked (set_env (fired t tm) s).
Proof.
  intros [Ik Ir] L. apply lookup_In in L. unfold fired.
  destruct (every tm) as [ms |]; constructor; cbn -[store drop].
  - apply keys_store. exact Ik.
  - intros h tm' Hin Hj. apply in_store in Hin. destruct Hin as [E | Hin].
    + injection E as -> ->. cbn in Hj. exact (Ir t tm L Hj).
    + exact (Ir h tm' Hin Hj).
  - apply keys_drop. exact Ik.
  - intros h tm' Hin Hj. apply in_drop in Hin. exact (Ir h tm' Hin Hj).
Qed.

Lemma tracked_env f s :
  (forall b, timers (f b) = timers b) ->
  idle_tracked s -> idle_tracked (set_env f s).
Proof.
  intros Hf [Ik Ir]. constructor; cbn; rewrite Hf; assumption.
Qed.

Lemma tracked_step e s s' :
  idle_tracked s -> step faults config e s = Some s' -> idle_tracked s'.
Proof.
  intros I H. destruct e; cbn [step] in H.
  - injection H as <-. exact (tracked_startLiveSession _ _ s I).
  - destruct (existsb _ _); [| discriminate]. injection H as <-.
    apply tracked_after_resume. apply tracked_env; [reflexivity | exact I].
  - destruct (existsb _ _); [| discriminate]. injection H as <-.
    apply tracked_after_getUserMedia. apply tracked_env; [reflexivity | exact I].
  - destruct (lookup s0 (sessions (env s))) as [ss |]; [| discriminate].
    destruct (opened ss); [discriminate |]. injection H as <-.
    apply tracked_onopen. apply tracked_env; [reflexivity | exact I].
  - destruct (lookup s0 (sessions (env s))) as [ss |]; [| discriminate].
    destruct (opened ss); [| discriminate]. injection H as <-.
    exact (tracked_onmessage _ _ _ s I).
  - destruct (lookup s0 (sessions (env s))) as [ss |]; [| discriminate].
    injection H as <-.
    apply tracked_onclose. apply tracked_env; [reflexivity | exact I].
  - destruct (lookup s0 (sessions (env s))) as [ss |]; [| discriminate].
    injection H as <-. exact (tracked_onerror _ s I).
  - destruct (lookup t (timers (env s))) as [tm |] eqn:L; [| discriminate].
    destruct (due tm <=? clock (env s)); [| discriminate].
    injection H as <-. apply tracked_run_job. exact (tracked_fired t tm s I L).
  - destruct (lookup p (processors (env s))) as [[sid c] |]; [| discriminate].
    injection H as <-. exact (tracked_onaudioprocess _ _ s I).
  - injection H as <-. exact (tracked_onended _ s I).
  - injection H as <-. exact (tracked_stopLiveSession _ s I).
Qed.

Lemma tracked_run h s s' :
  idle_tracked s -> run faults config h s = Some s' -> idle_tracked s'.
Proof.
  revert s. induction h as [| [t e] h IH]; intros s I H; cbn [run] in H.
  - injection H as <-. exact I.
  - unfold at_time in H. destruct (clock (env s) <=? t); [| discriminate].
    destruct (step faults config e (set_env (set_clock t) s)) as [s2 |] eqn:S;
      [| discriminate].
    apply (IH s2); [| exact H].
    apply (tracked_step e (set_env (set_clock t) s) s2); [| exact S].
    apply tracked_env; [reflexivity | exact I].
Qed.

End TrackedHandlers.

Lemma tracked_initial t0 : idle_tracked (initial t0).
Proof. constructor; cbn; [constructor | intros t tm []]. Qed.

Lemma one_key {V} (k : handle) (l : list (handle * V)) :
  NoDup (map fst l) -> (forall x, In x l -> fst x = k) ->
  (List.length l <= 1)%nat.
Proof.
  destruct l as [| x [| y r]]; cbn; intros Hk Hall; try lia.
  exfalso. inversion Hk as [| ? ? Hn _]; subst. apply Hn. left.
  rewrite (Hall x), (Hall y); auto.
Qed.

(** X8. In every state the component reaches from its initial state, by
    any history of events and whichever calls throw, at most one idle timer
    is pending, and it is the one [idleTimerRef] holds: [resetIdleTimer]
    and the teardown cancel the timer the ref holds before the ref is
    overwritten or cleared. So an idle timer that fires is always the one
    armed last. *)
Theorem one_idle_timer_at_a_time
    (faults : call -> bool) (config : BusinessConfig)
    (h : list (Z * event)) (t0 : Z) (s : world) :
  run faults config h (initial t0) = Some s ->
  (List.length (idle_timers s) <= 1)%nat
  /\ (forall t tm, In (t, tm) (idle_timers s) -> idleTimerRef (ui s) = Some t)
  /\ (idleTimerRef (ui s) = None -> idle_timers s = []).
Proof.
  intro H.
  destruct (tracked_run faults config h (initial t0) s (tracked_initial t0) H)
    as [Ik Ir].
  assert (Href : forall t tm, In (t, tm) (idle_timers s) ->
                              idleTimerRef (ui s) = Some t).
  { intros t tm Hin. unfold idle_timers in Hin. apply filter_In in Hin.
    destruct Hin as [Hin Hj]. cbn in Hj. apply (Ir t tm Hin).
    destruct (runs tm); try discriminate. reflexivity. }
  repeat apply conj.
  - destruct (idleTimerRef (ui s)) as [i |] eqn:Ei.
    + apply (one_key i); [apply keys_filter; exact Ik |].
      intros [t tm] Hin. pose proof (Href t tm Hin) as E. cbn. congruence.
    + destruct (idle_timers s) as [| [t tm] r] eqn:El; cbn; [lia |].
      pose proof (Href t tm (or_introl eq_refl)) as E. discriminate.
  - exact Href.
  - intro Hnone. destruct (idle_timers s) as [| [t tm] r] eqn:El; [reflexivity |].
    pose proof (Href t tm (or_introl eq_refl)) as E. congruence.
Qed.

Lemma one_idle_timer_at_a_time_witness :
  (List.length (idle_timers live_demo) <= 1)%nat
  /\ (forall t tm, In (t, tm) (idle_timers live_demo) ->
                   idleTimerRef (ui live_demo) = Some t)
  /\ (idleTimerRef (ui live_demo) = None -> idle_timers live_demo = []).
Proof.
  apply (one_idle_timer_at_a_time reliable demo_config demo_session 0 live_demo).
  vm_compute. reflexivity.
Defined.

(** In the sample session the idle timer was armed three times (at the
    start, by the loud frame and by the audio message); the last one is
    pending. *)
Example demo_idle_timers :
  idle_timers live_demo
  = [ (10%nat, {| due := 93900; every := None; runs := idle_job |}) ]
  /\ idle_armings live_demo = 3%nat.
Proof. split; vm_compute; reflexivity. Qed.

(* ================================================================== *)
(** ** A keep-alive interval nobody holds                              *)
(* ================================================================== *)

(** The interval [k] is pending, and neither [keepAliveIntervalRef] nor
    [idleTimerRef] holds it. *)
Record orphaned (k : handle) (s : world) : Prop := {
  or_old : (k < next_handle (env s))%nat;
  or_keepalive : keepAliveIntervalRef (ui s) <> Some k;
  or_idle : idleTimerRef (ui s) <> Some k;
  or_pending :
    exists due_k,
      lookup k (timers (env s))
      = Some {| due := due_k; every := Some KEEPALIVE_MS; runs := keepalive_job |}
}.

Lemma orphaned_next k s s' :
  orphaned k s ->
  (next_handle (env s) <= next_handle (env s'))%nat ->
  keepAliveIntervalRef (ui s') <> Some k ->
  idleTimerRef (ui s') <> Some k ->
  lookup k (timers (env s')) = lookup k (timers (env s)) ->
  orphaned k s'.
Proof.
  intros [Ho Hk Hi Hp] Hn Hk' Hi' Hl. constructor; try assumption.
  - lia.
  - rewrite Hl. exact Hp.
Qed.

Section Orphan.

Variable faults : call -> bool.
Variable config : BusinessConfig.
Variable k : handle.

Lemma orphaned_put g :
  (forall w, keepAliveIntervalRef (g w) = keepAliveIntervalRef w) ->
  (forall w, idleTimerRef (g w) = idleTimerRef w) ->
  steady (keeps (orphaned k)) (put g).
Proof.
  intros H1 H2 s I. apply (orphaned_next k s); cbn; rewrite ?H1, ?H2;
    try apply I; auto.
Qed.

Lemma orphaned_allocate : steady (keeps (orphaned k)) allocate.
Proof. intros s I. apply (orphaned_next k s); cbn; try apply I; auto. Qed.

(** A note that leaves the timers and the handle counter alone. *)
Definition timeless (note : browser -> browser) : Prop :=
  forall b, next_handle (note b) = next_handle b /\ timers (note b) = timers b.

Lemma orphaned_browser_update f :
  timeless f -> steady (keeps (orphaned k)) (browser_update f).
Proof.
  intros Hf s I. destruct (Hf (env s)) as [H1 H2].
  apply (orphaned_next k s); cbn; rewrite ?H1, ?H2; try apply I; auto.
Qed.

Lemma orphaned_invoke c note :
  timeless note -> steady (keeps (orphaned k)) (invoke faults c note).
Proof.
  intros Hn s I. unfold invoke.
  destruct (Hn (set_calls (calls (env s) ++ [(clock (env s), c)]) (env s)))
    as [H1 H2].
  destruct (faults c); apply (orphaned_next k s); cbn [snd env ui];
    rewrite ?H1, ?H2; try apply I; auto.
Qed.

Lemma orphaned_setTimeout j ms :
  steady (keeps (orphaned k)) (window_setTimeout faults j ms).
Proof.
  intros s I. pose proof (or_old k s I) as Ho.
  unfold window_setTimeout, Date_now, bind, look, ret, allocate, invoke.
  cbn [fst snd].
  destruct (faults (setTimeout _ _)); cbn [fst snd];
    apply (orphaned_next k s); cbn -[store]; try apply I; auto.
  apply lookup_store_neq. lia.
Qed.

Lemma orphaned_resetIdleTimer : steady (keeps (orphaned k)) (resetIdleTimer faults).
Proof.
  intros s I. pose proof (or_old k s I) as Ho. pose proof (or_idle k s I) as Hi.
  unfold resetIdleTimer, window_clearTimeout, window_setTimeout, Date_now.
  unfold bind, get, put, look, ret, allocate, invoke. cbn [fst snd].
  destruct (idleTimerRef (ui s)) as [t |] eqn:Ht; cbn [fst snd];
    repeat match goal with
           | |- context [if faults ?c then _ else _] =>
               destruct (faults c); cbn [fst snd]
           end;
    apply (orphaned_next k s); cbn -[store drop]; rewrite ?Ht; try apply I; auto;
    try (intro E; injection E as E; lia);
    rewrite ?lookup_store_neq by lia;
    rewrite ?lookup_drop_neq by congruence; reflexivity.
Qed.

(** Lines 168-185: the new interval takes the place of whatever
    [keepAliveIntervalRef] held. *)
Lemma orphaned_start_microphone :
  steady (keeps (orphaned k)) (start_microphone faults).
Proof.
  intros s I. pose proof (or_old k s I) as Ho.
  unfold start_microphone, window_setInterval, Date_now.
  unfold bind, get, put, look, ret, allocate, invoke. cbn [fst snd].
  repeat match goal with
         | |- context [if faults ?c then _ else _] =>
             destruct (faults c); cbn [fst snd]
         end;
    apply (orphaned_next k s); cbn -[store drop]; try apply I; auto;
    try (intro E; injection E as E; lia);
    rewrite ?lookup_store_neq by lia; reflexivity.
Qed.

Lemma orphaned_clear_idle (rest : M unit) :
  steady (keeps (orphaned k)) rest ->
  steady (keeps (orphaned k))
    (i <- get idleTimerRef ;;
     match i with
     | Some t => window_clearTimeout faults t ;; put (set_idleTimerRef None)
     | None => ret tt
     end ;;
     rest).
Proof.
  intros Hrest s I. pose proof (or_idle k s I) as Hi.
  unfold window_clearTimeout. unfold bind at 1 2. unfold get. cbn [fst snd].
  destruct (idleTimerRef (ui s)) as [t |] eqn:Ht.
  - unfold bind, put, invoke. cbn [fst snd].
    destruct (faults (clearTimeout t)); cbn [fst snd].
    + apply (orphaned_next k s); cbn; rewrite ?Ht; try apply I; auto.
    + apply Hrest. apply (orphaned_next k s); cbn -[drop]; try apply I; auto.
      * discriminate.
      * apply lookup_drop_neq. congruence.
  - cbn [ret fst snd]. apply Hrest. exact I.
Qed.

Lemma orphaned_clear_keepalive (rest : M unit) :
  steady (keeps (orphaned k)) rest ->
  steady (keeps (orphaned k))
    (i <- get keepAliveIntervalRef ;;
     match i with
     | Some t =>
         window_clearInterval faults t ;; put (set_keepAliveIntervalRef None)
     | None => ret tt
     end ;;
     rest).
Proof.
  intros Hrest s I. pose proof (or_keepalive k s I) as Hi.
  unfold window_clearInterval. unfold bind at 1 2. unfold get. cbn [fst snd].
  destruct (keepAliveIntervalRef (ui s)) as [t |] eqn:Ht.
  - unfold bind, put, invoke. cbn [fst snd].
    destruct (faults (clearInterval t)); cbn [fst snd].
    + apply (orphaned_next k s); cbn; rewrite ?Ht; try apply I; auto.
    + apply Hrest. apply (orphaned_next k s); cbn -[drop]; try apply I; auto.
      * discriminate.
      * apply lookup_drop_neq. congruence.
  - cbn [ret fst snd]. apply Hrest. exact I.
Qed.

End Orphan.

Ltac timeless_note :=
  let b := fresh "b" in
  intro b;
  repeat match goal with
         | |- context [match ?y with _ => _ end] => destruct y
         end;
  split; reflexivity.

Ltac orphan :=
  unfold onmessage, enqueue_audio, attach_citations, onaudioprocess, onopen,
    onclose, onerror, onended, idle_timeout, keepalive, attach_microphone,
    startLiveSession, open_contexts, after_resume, after_getUserMedia,
    start_guarded, stopLiveSession, Session_close,
    ScriptProcessor_disconnect, AudioContext_close, AudioContext_new,
    AudioContext_state, Date_now, just;
  repeat first
    [ apply orphaned_clear_idle
    | apply orphaned_clear_keepalive
    | apply orphaned_resetIdleTimer
    | apply orphaned_start_microphone
    | apply orphaned_setTimeout
    | apply orphaned_put; reflexivity
    | apply orphaned_allocate
    | apply orphaned_browser_update; timeless_note
    | apply orphaned_invoke; timeless_note
    | steady_step ].

Section OrphanHandlers.

Variable faults : call -> bool.
Variable config : BusinessConfig.
Variable k : handle.

Lemma orphaned_stopLiveSession b :
  steady (keeps (orphaned k)) (stopLiveSession faults b).
Proof. orphan. Qed.

Lemma orphaned_startLiveSession key c :
  steady (keeps (orphaned k)) (startLiveSession faults key c).
Proof. orphan. Qed.

Lemma orphaned_after_resume c r :
  steady (keeps (orphaned k)) (after_resume faults c r).
Proof. orphan. Qed.

Lemma orphaned_after_getUserMedia r :
  steady (keeps (orphaned k)) (after_getUserMedia faults config r).
Proof. orphan. Qed.

Lemma orphaned_onopen sid : steady (keeps (orphaned k)) (onopen faults sid).
Proof. orphan. Qed.

Lemma orphaned_onmessage m t d :
  steady (keeps (orphaned k)) (onmessage faults m t d).
Proof. orphan. Qed.

Lemma orphaned_onclose : steady (keeps (orphaned k)) (onclose faults).
Proof. orphan. Qed.

Lemma orphaned_onerror m : steady (keeps (orphaned k)) (onerror faults m).
Proof. orphan. Qed.

Lemma orphaned_run_job j : steady (keeps (orphaned k)) (run_job faults j).
Proof. destruct j; cbn [run_job]; orphan. Qed.

Lemma orphaned_onaudioprocess sid f :
  steady (keeps (orphaned k)) (onaudioprocess faults sid f).
Proof. orphan. Qed.

Lemma orphaned_onended src : steady (keeps (orphaned k)) (onended src).
Proof. orphan. Qed.

Lemma orphaned_env f s :
  timeless f -> orphaned k s -> orphaned k (set_env f s).
Proof.
  intros Hf I. destruct (Hf (env s)) as [H1 H2].
  apply (orphaned_next k s); cbn; rewrite ?H1, ?H2; try apply I; auto.
Qed.

Lemma orphaned_fired t tm s :
  orphaned k s -> lookup t (timers (env s)) = Some tm ->
  orphaned k (set_env (fired t tm) s).
Proof.
  intros I L. destruct (or_pending k s I) as (due_k & Hk).
  destruct (Nat.eq_dec t k) as [-> | Hne].
  - rewrite Hk in L. injection L as <-. unfold fired. cbn [every runs].
    constructor; cbn -[store]; try apply I.
    eexists. apply lookup_store_eq.
  - apply (orphaned_next k s); try apply I; unfold fired;
      destruct (every tm); cbn -[store drop]; auto.
    + apply lookup_store_neq. congruence.
    + apply lookup_drop_neq. congruence.
Qed.

Lemma orphaned_step e s s' :
  orphaned k s -> step faults config e s = Some s' -> orphaned k s'.
Proof.
  intros I H. destruct e; cbn [step] in H.
  - injection H as <-. exact (orphaned_startLiveSession _ _ s I).
  - destruct (existsb _ _); [| discriminate]. injection H as <-.
    apply orphaned_after_resume. apply orphaned_env; [timeless_note | exact I].
  - destruct (existsb _ _); [| discriminate]. injection H as <-.
    apply orphaned_after_getUserMedia.
    apply orphaned_env; [timeless_note | exact I].
  - destruct (lookup s0 (sessions (env s))) as [ss |]; [| discriminate].
    destruct (opened ss); [discriminate |]. injection H as <-.
    apply orphaned_onopen. apply orphaned_env; [timeless_note | exact I].
  - destruct (lookup s0 (sessions (env s))) as [ss |]; [| discriminate].
    destruct (opened ss); [| discriminate]. injection H as <-.
    exact (orphaned_onmessage _ _ _ s I).
  - destruct (lookup s0 (sessions (env s))) as [ss |]; [| discriminate].
    injection H as <-.
    apply orphaned_onclose. apply orphaned_env; [timeless_note | exact I].
  - destruct (lookup s0 (sessions (env s))) as [ss |]; [| discriminate].
    injection H as <-. exact (orphaned_onerror _ s I).
  - destruct (lookup t (timers (env s))) as [tm |] eqn:L; [| discriminate].
    destruct (due tm <=? clock (env s)); [| discriminate].
    injection H as <-. apply orphaned_run_job. exact (orphaned_fired t tm s I L).
  - destruct (lookup p (processors (env s))) as [[sid c] |]; [| discriminate].
    injection H as <-. exact (orphaned_onaudioprocess _ _ s I).
  - injection H as <-. exact (orphaned_onended _ s I).
  - injection H as <-. exact (orphaned_stopLiveSession _ s I).
Qed.

Lemma orphaned_run h s s' :
  orphaned k s -> run faults config h s = Some s' -> orphaned k s'.
Proof.
  revert s. induction h as [| [t e] h IH]; intros s I H; cbn [run] in H.
  - injection H as <-. exact I.
  - unfold at_time in H. destruct (clock (env s) <=? t); [| discriminate].
    destruct (step faults config e (set_env (set_clock t) s)) as [s2 |] eqn:S;
      [| discriminate].
    apply (IH s2); [| exact H].
    apply (orphaned_step e (set_env (set_clock t) s) s2); [| exact S].
    apply orphaned_env; [timeless_note | exact I].
Qed.

End OrphanHandlers.

(** X9. Only the interval [keepAliveIntervalRef] holds is ever cleared. A
    keep-alive interval that is pending while the ref holds another handle
    or none (as after a start that follows a failed start, which
    overwrites the ref without clearing) stays pending through every later
    event, whichever calls throw, and the releases a teardown makes never
    include it. *)
Theorem orphaned_keepalive_is_never_cleared
    (faults : call -> bool) (config : BusinessConfig)
    (k : handle) (h : list (Z * event)) (s s' : world) :
  orphaned k s ->
  run faults config h s = Some s' ->
  orphaned k s'
  /\ ~ In (clearInterval k) (teardown_calls (ui s')).
Proof.
  intros I H.
  pose proof (orphaned_run faults config k h s s' I H) as I'.
  split; [exact I' |].
  pose proof (or_keepalive k s' I') as Hk.
  unfold teardown_calls. rewrite !in_app_iff.
  intros [Hin | [Hin | [Hin | [Hin | [Hin | [Hin | [Hin | Hin]]]]]]].
  - destruct (keepAliveIntervalRef (ui s')) as [x |]; cbn in Hin; [| exact Hin].
    destruct Hin as [E | []]. injection E as ->. congruence.
  - destruct (idleTimerRef (ui s')); cbn in Hin; [| exact Hin].
    destruct Hin as [E | []]. discriminate E.
  - destruct (sessionPromiseRef (ui s')); cbn in Hin; [| exact Hin].
    destruct Hin as [E | []]. discriminate E.
  - destruct (streamRef (ui s')); cbn in Hin; [| exact Hin].
    destruct Hin as [E | []]. discriminate E.
  - destruct (scriptProcessorRef (ui s')); cbn in Hin; [| exact Hin].
    destruct Hin as [E | []]. discriminate E.
  - apply in_map_iff in Hin. destruct Hin as (x & E & _). discriminate E.
  - destruct (inputContextRef (ui s')); cbn in Hin; [| exact Hin].
    destruct Hin as [E | []]. discriminate E.
  - destruct (outputContextRef (ui s')); cbn in Hin; [| exact Hin].
    destruct Hin as [E | []]. discriminate E.
Qed.

(** A start that fails for lack of a microphone, then a second start: the
    interval of the first start (handle 4) is no longer held. *)
Definition demo_retry : world :=
  after reliable [ (1000, click_start true running);
                   (1500, getUserMedia_settled (Some denial));
                   (3000, click_start true running) ].

Lemma demo_retry_orphan : orphaned 4%nat demo_retry.
Proof.
  constructor.
  - vm_compute. lia.
  - vm_compute. discriminate.
  - vm_compute. discriminate.
  - exists 5000. vm_compute. reflexivity.
Qed.

Lemma orphaned_keepalive_is_never_cleared_witness :
  orphaned 4%nat demo_retry
  /\ exists s',
       run reliable demo_config
         [ (3500, getUserMedia_settled None); (4000, transport_open 10%nat);
           (6000, click_stop) ] demo_retry = Some s'
       /\ orphaned 4%nat s'
       /\ ~ In (clearInterval 4%nat) (teardown_calls (ui s')).
Proof.
  split; [exact demo_retry_orphan |].
  destruct (run reliable demo_config
              [ (3500, getUserMedia_settled None); (4000, transport_open 10%nat);
                (6000, click_stop) ] demo_retry) as [s' |] eqn:E;
    [| vm_compute in E; discriminate E].
  exists s'. split; [reflexivity |].
  exact (orphaned_keepalive_is_never_cleared reliable demo_config 4%nat _
           demo_retry s' demo_retry_orphan E).
Defined.

(** After the second call is ended by the user, two timers are still
    pending: the 800 ms microphone timer of the second call, which will
    fire once and attach nothing, and the interval of the first start. *)
Example demo_retry_leftover :
  map fst (timers (env (after reliable
                          [ (1000, click_start true running);
                            (1500, getUserMedia_settled (Some denial));
                            (3000, click_start true running);
                            (3500, getUserMedia_settled None);
                            (4000, transport_open 10%nat);
                            (6000, click_stop) ])))
  = [11%nat; 4%nat].
Proof. vm_compute. reflexivity. Qed.

(* ================================================================== *)
(** ** What the widget shows (lines 502-580)                           *)
(* ================================================================== *)

(** The status display: the visualizer while a call is live, otherwise
    the error message if there is one, otherwise "Ready to connect". *)
Inductive Panel :=
| visualizer_panel
| error_panel (msg : string)
| ready_panel.

Definition status_display (w : widget) : Panel :=
  if isLiveActive w then visualizer_panel
  else match errorMsg w with
       | Some msg => if truthy (Some msg) then error_panel msg else ready_panel
       | None => ready_panel
       end.

(** The action area: the start button with its two labels while no call
    is live, the "End Call" button otherwise. *)
Inductive Action :=
| start_button (label hint : string)
| end_call_button.

Definition action_area (w : widget) : Action :=
  if negb (isLiveActive w)
  then start_button
         (if truthy (errorMsg w) then "Resume Call" else "Chat with Emma")
         (if truthy (errorMsg w) then "Click to reconnect"
          else "Instant replies - no waiting")
  else end_call_button.

(** What is shown once the event [e] has ended a session. *)
Definition shown_after (e : event) : Panel * Action :=
  let resume := start_button "Resume Call" "Click to reconnect" in
  match e with
  | transport_close _ => (error_panel timed_out_message, resume)
  | transport_error _ err_message =>
      (error_panel ("Session Error: "
                    ++ or_default err_message "Connection interrupted")%string,
       resume)
  | timer_fires _ => (error_panel inactivity_message, resume)
  | _ => (ready_panel,
          start_button "Chat with Emma" "Instant replies - no waiting")
  end.

(** X18. How a session that ends shows. While the user is not
    disconnecting, an event that ends the session (the user's stop, the
    transport closing or failing, an idle timer firing) leaves the start
    button in place of "End Call". After the user's stop it reads "Chat
    with Emma" over "Ready to connect"; after each of the others it reads
    "Resume Call" and the status display shows the message of that event:
    "Session timed out. Please resume.", "Session Error: ..." or "Session
    ended due to inactivity.". *)
Theorem ended_session_offers_resume
    (faults : call -> bool) (config : BusinessConfig)
    (e : event) (s s' : world) :
  only_throws guarded faults ->
  isUserDisconnectingRef (ui s) = false ->
  ends_session e s = true ->
  step faults config e s = Some s' ->
  (status_display (ui s'), action_area (ui s')) = shown_after e.
Proof.
  intros Hf Hflag Hend Hstep.
  destruct e; try discriminate Hend; cbn [shown_after].
  - destruct (step_transport_close faults Hf config s0 s s' Hstep) as (Hui & _).
    rewrite Hui. unfold after_close. rewrite Hflag. reflexivity.
  - cbn [step] in Hstep.
    destruct (lookup s0 (sessions (env s))); [| discriminate].
    injection Hstep as <-. unfold exec.
    destruct (onerror_performs faults err_message Hf s) as (_ & Hui & _).
    rewrite Hui. reflexivity.
  - cbn [step ends_session] in Hstep, Hend.
    destruct (lookup t (timers (env s))) as [tm |]; [| discriminate].
    destruct (due tm <=? clock (env s)); [| discriminate].
    injection Hstep as <-.
    destruct (runs tm); try discriminate Hend. cbn [run_job]. unfold exec.
    destruct (idle_timeout_performs faults Hf (set_env (fired t tm) s))
      as (_ & Hui & _).
    rewrite Hui. cbn [ui set_env]. unfold after_idle. rewrite Hflag. reflexivity.
  - destruct (step_click_stop faults Hf config s s' Hstep) as (Hui & _).
    rewrite Hui. reflexivity.
Qed.

Lemma ended_session_offers_resume_witness :
  only_throws guarded reliable
  /\ isUserDisconnectingRef (ui live_demo) = false
  /\ ends_session (transport_close 6%nat) live_demo = true
  /\ exists s',
       step reliable demo_config (transport_close 6%nat) live_demo = Some s'
       /\ (status_display (ui s'), action_area (ui s'))
          = (error_panel timed_out_message,
             start_button "Resume Call" "Click to reconnect").
Proof.
  split; [apply reliable_only_throws |].
  split; [vm_compute; reflexivity |]. split; [reflexivity |].
  destruct (step reliable demo_config (transport_close 6%nat) live_demo)
    as [s' |] eqn:E; [| vm_compute in E; discriminate E].
  exists s'. split; [reflexivity |].
  assert (Hflag : isUserDisconnectingRef (ui live_demo) = false)
    by (vm_compute; reflexivity).
  exact (ended_session_offers_resume reliable demo_config
           (transport_close 6%nat) live_demo s'
           (reliable_only_throws guarded) Hflag eq_refl E).
Defined.

(* ================================================================== *)
(** * The text chat, the prompt and the stored configuration           *)
(* ================================================================== *)

(** The rest of [ChatWidget.tsx] that computes: [getSystemInstruction] and
    [handleSendMessage]; and, of [src/unnamed/part_000], the state
    initialiser of [App] with [DEFAULT_CONFIG] and the handlers of
    [SetupPanel]. *)

From Stdlib Require Import Ascii DecimalString DecimalZ DecimalPos.

(* ================================================================== *)
(** ** Strings as JavaScript has them                                  *)
(* ================================================================== *)

(** A string is the list of its code units; the operations below are those
    of JavaScript on strings whose code units are all below 256. *)

Definition nl : string := String "010" EmptyString.   (* line feed *)
Definition dq : string := String "034" EmptyString.   (* double quote *)

(** White space and line terminators below 256: tab, line feed, vertical
    tab, form feed, carriage return, space, no-break space. *)
Definition is_space (a : ascii) : bool :=
  let n := nat_of_ascii a in
  ((9 <=? n) && (n <=? 13) || (n =? 32) || (n =? 160))%nat.

Fixpoint trimStart (s : string) : string :=
  match s with
  | String a r => if is_space a then trimStart r else s
  | EmptyString => EmptyString
  end.

Definition reverse (s : string) : string :=
  string_of_list_ascii (rev (list_ascii_of_string s)).

Definition trimEnd (s : string) : string := reverse (trimStart (reverse s)).

(** [s.trim()] *)
Definition trim (s : string) : string := trimEnd (trimStart s).

(** [!s.trim()] *)
Definition blank (s : string) : bool :=
  match trim s with
  | EmptyString => true
  | _ => false
  end.

(** [c.toLowerCase()] on one code unit below 256: [A]-[Z] and the
    capital letters of Latin-1 ([U+00C0]-[U+00DE] but the multiplication
    sign [U+00D7]) move 32 up. *)
Definition lower (a : ascii) : ascii :=
  let n := nat_of_ascii a in
  if ((65 <=? n) && (n <=? 90)
      || (192 <=? n) && (n <=? 222) && negb (n =? 215))%nat
  then ascii_of_nat (n + 32)
  else a.

Fixpoint toLowerCase (s : string) : string :=
  match s with
  | String a r => String (lower a) (toLowerCase r)
  | EmptyString => EmptyString
  end.

(** [s.includes(search)] *)
Fixpoint includes (s search : string) : bool :=
  if String.prefix search s then true
  else match s with
       | String _ r => includes r search
       | EmptyString => false
       end.

(** [n.toString()] of an integer. *)
Definition toString (n : Z) : string := NilZero.string_of_int (Z.to_int n).

(** [`${v}`] of an optional string. *)
Definition interpolate (v : option string) : string :=
  match v with
  | Some s => s
  | None => "undefined"
  end.

(* ================================================================== *)
(** ** [BusinessConfig] in full ([types.ts])                           *)
(* ================================================================== *)

Module Full.

Record BusinessConfig := {
  businessName : string;
  tradeType : string;
  contactName : string;
  services : string;
  availability : string;
  pricing : string;
  knowledgeBaseText : option string;
  sitemapUrl : option string
}.

End Full.

(** What the voice session reads of it. *)
Definition session_config (config : Full.BusinessConfig) : BusinessConfig :=
  {| sitemapUrl := Full.sitemapUrl config |}.

(* ================================================================== *)
(** ** The system instruction (lines 13-26 and 63-92)                  *)
(* ================================================================== *)

(** [EMMA_VOICE_CONFIG.systemInstruction] *)
Definition systemInstruction (config : Full.BusinessConfig) : string :=
  (nl ++
    "    *** CRITICAL INSTRUCTION: VOICE & ACCENT ***" ++ nl ++
    "    You are " ++ dq ++ "Emma" ++ dq ++ ". You MUST speak with a CLEAR, AUTHENTIC BRITISH ENGLISH ACCENT (Received Pronunciation / BBC Style)." ++ nl ++
    "    - DO NOT speak with an American accent." ++ nl ++
    "    - Use British vocabulary: 'mobile' not 'cell', 'lift' not 'elevator', 'pavement' not 'sidewalk', 'flat' not 'apartment'." ++ nl ++
    "    - Your tone is professional, warm, and polite." ++ nl ++
    nl ++
    "    IDENTITY:" ++ nl ++
    "    - You are a helpful, friendly receptionist for " ++ Full.businessName config ++ "." ++ nl ++
    "  ")%string.

(** The template of lines 66-81. *)
Definition context_and_rules (config : Full.BusinessConfig) : string :=
  (nl ++
    "    CONTEXT:" ++ nl ++
    "    You work for " ++ Full.businessName config ++ ", a " ++ Full.tradeType config ++ " business run by " ++ Full.contactName config ++ "." ++ nl ++
    "    " ++ nl ++
    "    Business Details:" ++ nl ++
    "    - Services: " ++ Full.services config ++ nl ++
    "    - Pricing: " ++ Full.pricing config ++ nl ++
    "    - Availability: " ++ Full.availability config ++ nl ++
    "    " ++ nl ++
    "    CRITICAL RULES:" ++ nl ++
    "    1. GREETING: You MUST start the conversation. As soon as you connect, say exactly: " ++ dq ++ "Hi, how can I help you?" ++ dq ++ ". Do not wait for the user to speak." ++ nl ++
    "    2. OFF-THE-SHELF ITEMS: If a user asks about the price of 'off-the-shelf' stickers or stock items, DO NOT QUOTE A PRICE. Instead, say: " ++ dq ++ "For our off-the-shelf range, please check the Shop link in the navigation menu for the most up-to-date pricing." ++ dq ++ nl ++
    "    3. CUSTOM ITEMS: DO NOT QUOTE PRICES for custom stickers. Explain that custom prices depend on size, material, and other factors. Instruct the user to use the contact form, email us, or call 07544683677 to get a quote." ++ nl ++
    "    4. WEBSITE KNOWLEDGE: You have access to the website (" ++ interpolate (Full.sitemapUrl config) ++ "). Use the Google Search tool to look up blog posts, pages, and specific details to answer ANY question about the business or website content." ++ nl ++
    "    5. CONTACT INFO: If a user asks for contact info, say: " ++ dq ++ "Our contact details are available on the website, or you can call 07544683677." ++ dq ++ " You can also offer: " ++ dq ++ "Or if you prefer, please leave your name and number or email, and " ++ Full.contactName config ++ " will get back to you." ++ dq ++ nl ++
    "    ")%string.

Definition getSystemInstruction (config : Full.BusinessConfig) : string :=
  let instruction := systemInstruction config in
  let instruction := (instruction ++ context_and_rules config)%string in
  let instruction :=
    if truthy (Full.knowledgeBaseText config)
    then (instruction ++ nl ++ nl ++ "Additional Business Knowledge:" ++ nl
            ++ interpolate (Full.knowledgeBaseText config))%string
    else instruction in
  let instruction :=
    if truthy (Full.sitemapUrl config)
    then (instruction ++ nl ++ nl ++ "Website URL: "
            ++ interpolate (Full.sitemapUrl config)
            ++ ". Use this URL as your primary source of truth.")%string
    else instruction in
  instruction.

(* ================================================================== *)
(** ** The text chat: [handleSendMessage] (lines 399-471)              *)
(* ================================================================== *)

(** What [ai.chats.create] and [chat.sendMessage] are given. [chat_tools]
    tells whether [tools] is [[{ googleSearch: {} }]] or [undefined]. *)
Record ChatRequest := {
  chat_systemInstruction : string;
  chat_tools : bool;
  chat_history : list (Role * string);
  chat_message : string
}.

(** What the handler reads of the response: [response.text] and the
    grounding chunks of the first candidate. *)
Record ChatResponse := {
  response_text : option string;
  response_groundingChunks : option (list GroundingChunk)
}.

(** The component with the state of the text form: the voice session and
    the transcript ([live]), the input field, the busy flag, whether the
    form is shown, the requests made so far and how many of them have not
    settled yet. *)
Record page := {
  live : world;
  inputText : string;
  isLoading : bool;
  showTextInput : bool;
  outbox : list (Z * ChatRequest);
  unsettled : nat
}.

Definition fresh_page (t0 : Z) : page :=
  {| live := initial t0; inputText := ""; isLoading := false;
     showTextInput := false; outbox := []; unsettled := 0 |}.

Definition set_live (f : world -> world) (p : page) : page :=
  {| live := f (live p); inputText := inputText p; isLoading := isLoading p;
     showTextInput := showTextInput p; outbox := outbox p;
     unsettled := unsettled p |}.

Definition set_inputText (v : string) (p : page) : page :=
  {| live := live p; inputText := v; isLoading := isLoading p;
     showTextInput := showTextInput p; outbox := outbox p;
     unsettled := unsettled p |}.

Definition set_isLoading (v : bool) (p : page) : page :=
  {| live := live p; inputText := inputText p; isLoading := v;
     showTextInput := showTextInput p; outbox := outbox p;
     unsettled := unsettled p |}.

Definition set_showTextInput (v : bool) (p : page) : page :=
  {| live := live p; inputText := inputText p; isLoading := isLoading p;
     showTextInput := v; outbox := outbox p; unsettled := unsettled p |}.

Definition transcript (p : page) : list ChatMessage := messages (ui (live p)).
Definition now (p : page) : Z := clock (env (live p)).

(** [setMessages(prev => [...prev, m])] *)
Definition say (m : ChatMessage) (p : page) : page :=
  set_live (set_ui (fun w => set_messages (messages w ++ [m]) w)) p.

(** [chat.sendMessage(...)]: the request leaves; its promise is pending. *)
Definition send (r : ChatRequest) (p : page) : page :=
  {| live := live p; inputText := inputText p; isLoading := isLoading p;
     showTextInput := showTextInput p;
     outbox := outbox p ++ [(now p, r)];
     unsettled := S (unsettled p) |}.

(** The [catch] and the [finally] (lines 460-470). [console.error] is
    taken not to throw. *)
Definition answer_error (error : exn) (p : page) : page :=
  let p := set_live (exec (just reliable (console_error (message error)))) p in
  let p :=
    say {| id := toString (now p + 1); role := model;
           text := ("Error: "
                    ++ or_default (message error) "Could not connect to AI.")%string;
           timestamp := now p; sources := None |} p in
  set_isLoading false p.

(** Lines 441-459, then the [finally]. *)
Definition answer (response : ChatResponse) (p : page) : page :=
  let sources :=
    match response_groundingChunks response with
    | Some groundingChunks => newSources_of groundingChunks
    | None => []
    end in
  let p :=
    say {| id := toString (now p + 1); role := model;
           text := string_or (response_text response) "I didn't get that.";
           timestamp := now p;
           sources := match sources with
                      | [] => None
                      | _ => Some sources
                      end |} p in
  set_isLoading false p.

(** [handleSendMessage] up to its [await]. [apiKey]: whether
    [process.env.API_KEY] is set; [setup]: the exception, if any, thrown
    by the synchronous part of the [try] block (creating the client or
    the chat). *)
Definition handleSendMessage (config : Full.BusinessConfig)
    (apiKey : bool) (setup : option exn) (p : page) : page :=
  if blank (inputText p) || isLoading p then p else
  if negb apiKey
  then say {| id := toString (now p); role := model;
              text := "Error: Missing API Key."; timestamp := now p;
              sources := None |} p
  else
    let userMsg := {| id := toString (now p); role := user;
                      text := inputText p; timestamp := now p;
                      sources := None |} in
    let history := map (fun m => (role m, text m)) (transcript p) in
    let p := set_isLoading true (set_inputText "" (say userMsg p)) in
    match setup with
    | Some error => answer_error error p
    | None =>
        send {| chat_systemInstruction := getSystemInstruction config;
                chat_tools := truthy (Full.sitemapUrl config);
                chat_history := history;
                chat_message := text userMsg |} p
    end.

(** After the [await]: the promise of [chat.sendMessage] has settled. *)
Definition settled (r : exn + ChatResponse) (p : page) : page :=
  let p := {| live := live p; inputText := inputText p;
              isLoading := isLoading p; showTextInput := showTextInput p;
              outbox := outbox p; unsettled := pred (unsettled p) |} in
  match r with
  | inl error => answer_error error p
  | inr response => answer response p
  end.

(** What can happen to the page: an event of the voice session, the
    "Type instead" toggle, typing, submitting the form, a reply. The
    toggle is rendered while no call is live, the form while it is
    switched on and no call is live. *)
Inductive page_event :=
| session_event (e : event)
| toggle_keyboard
| type_text (v : string)
| submit (apiKey : bool) (setup : option exn)
| reply (r : exn + ChatResponse).

Definition form_shown (p : page) : bool :=
  showTextInput p && negb (isLiveActive (ui (live p))).

Definition page_step (faults : call -> bool) (config : Full.BusinessConfig)
    (e : page_event) (p : page) : option page :=
  match e with
  | session_event e =>
      match step faults (session_config config) e (live p) with
      | Some s => Some (set_live (fun _ => s) p)
      | None => None
      end
  | toggle_keyboard =>
      if isLiveActive (ui (live p)) then None
      else Some (set_showTextInput (negb (showTextInput p)) p)
  | type_text v =>
      if form_shown p then Some (set_inputText v p) else None
  | submit apiKey setup =>
      if form_shown p then Some (handleSendMessage config apiKey setup p)
      else None
  | reply r =>
      match unsettled p with
      | O => None
      | S _ => Some (settled r p)
      end
  end.

Definition page_at (t : Z) (p : page) : option page :=
  match at_time t (live p) with
  | Some s => Some (set_live (fun _ => s) p)
  | None => None
  end.

Fixpoint page_run (faults : call -> bool) (config : Full.BusinessConfig)
    (h : list (Z * page_event)) (p : page) : option page :=
  match h with
  | [] => Some p
  | (t, e) :: r =>
      match page_at t p with
      | Some p1 =>
          match page_step faults config e p1 with
          | Some p2 => page_run faults config r p2
          | None => None
          end
      | None => None
      end
  end.

(* ================================================================== *)
(** ** The app and the setup panel ([src/unnamed/part_000])            *)
(* ================================================================== *)

Definition DEFAULT_CONFIG : Full.BusinessConfig :=
  {| Full.businessName := "QR Code Stickers";
     Full.tradeType := "Custom Printing & Labels";
     Full.contactName := "Simon";
     Full.services := "Custom QR code stickers, waterproof asset tags, vehicle decals, NFC smart stickers. We also have Off-the-shelf QR Code stickers available on the Shop (link in the navigation menu) for next day delivery.";
     Full.pricing := "Custom orders: Quotes are strictly on-demand as they depend on size, material, and other factors. Please contact us via the form, email, or call 07544683677 for a quote. Off-the-shelf: Check Shop for prices.";
     Full.availability := "Mon-Fri 9am-5pm GMT. Phone: 07544683677. Online ordering 24/7.";
     Full.sitemapUrl := Some "https://qrcodestickers.co.uk"%string;
     Full.knowledgeBaseText :=
       Some (nl ++
             "  FAQ: What size are the off the shelf stickers you provide?" ++ nl ++
             "  Answer: Our standard off the shelf stickers are sized at 30x40mm (portrait, not landscape) and include a unique number on each. These sequentially numbered QR code stickers feature the QR code and the number in plain text. They are conveniently sized to fit on fire doors and small items that require auditing or tracking. Printed on white self-adhesive vinyl, they are laminated and kiss cut with radius corners making them robust enough for use in outdoor environments." ++ nl ++
             "  ")%string |}.

(** [{ ...a, ...b }] on two configurations: every key [b] has wins. *)
Definition spread (a b : Full.BusinessConfig) : Full.BusinessConfig :=
  {| Full.businessName := Full.businessName b;
     Full.tradeType := Full.tradeType b;
     Full.contactName := Full.contactName b;
     Full.services := Full.services b;
     Full.pricing := Full.pricing b;
     Full.availability := Full.availability b;
     Full.sitemapUrl :=
       match Full.sitemapUrl b with
       | Some v => Some v
       | None => Full.sitemapUrl a
       end;
     Full.knowledgeBaseText :=
       match Full.knowledgeBaseText b with
       | Some v => Some v
       | None => Full.knowledgeBaseText a
       end |}.

(** The migration check of the state initialiser of [App]. *)
Definition needs_migration (parsed : Full.BusinessConfig) : bool :=
  negb (String.eqb (Full.contactName parsed) "Simon")
  || negb (includes (toLowerCase (Full.services parsed)) "off-the-shelf")
  || negb (includes (Full.pricing parsed) "07544683677")
  || negb (truthy (Full.sitemapUrl parsed))
  || negb (match Full.knowledgeBaseText parsed with
           | Some kb => includes kb "30x40mm"
           | None => false
           end).

(** The initialiser of the [config] state. [saved] is what
    [JSON.parse(localStorage.getItem('tradeTalkConfig'))] yields when the
    item is there: the configuration [JSON.stringify] was given. *)
Definition initial_config (saved : option Full.BusinessConfig)
  : Full.BusinessConfig :=
  match saved with
  | Some parsed =>
      if needs_migration parsed then spread parsed DEFAULT_CONFIG else parsed
  | None => DEFAULT_CONFIG
  end.

(** The [useEffect] that stores the configuration, seen from the next
    load. *)
Definition persisted (config : Full.BusinessConfig)
  : option Full.BusinessConfig := Some config.

(** [{ ...prev, [name]: value }] (lines 86-89); a name
    that is no key of [BusinessConfig] adds a property no code reads. *)
Definition pick (name value key old : string) : string :=
  if String.eqb name key then value else old.

Definition pick_opt (name value key : string) (old : option string)
  : option string :=
  if String.eqb name key then Some value else old.

Definition handleChange (name value : string) (prev : Full.BusinessConfig)
  : Full.BusinessConfig :=
  {| Full.businessName :=
       pick name value "businessName" (Full.businessName prev);
     Full.tradeType := pick name value "tradeType" (Full.tradeType prev);
     Full.contactName := pick name value "contactName" (Full.contactName prev);
     Full.services := pick name value "services" (Full.services prev);
     Full.pricing := pick name value "pricing" (Full.pricing prev);
     Full.availability :=
       pick name value "availability" (Full.availability prev);
     Full.sitemapUrl := pick_opt name value "sitemapUrl" (Full.sitemapUrl prev);
     Full.knowledgeBaseText :=
       pick_opt name value "knowledgeBaseText" (Full.knowledgeBaseText prev) |}.

(** [formData[key]] *)
Definition field (key : string) (c : Full.BusinessConfig) : option string :=
  if String.eqb key "businessName" then Some (Full.businessName c)
  else if String.eqb key "tradeType" then Some (Full.tradeType c)
  else if String.eqb key "contactName" then Some (Full.contactName c)
  else if String.eqb key "services" then Some (Full.services c)
  else if String.eqb key "pricing" then Some (Full.pricing c)
  else if String.eqb key "availability" then Some (Full.availability c)
  else if String.eqb key "sitemapUrl" then Full.sitemapUrl c
  else if String.eqb key "knowledgeBaseText" then Full.knowledgeBaseText c
  else None.

Definition set_knowledgeBaseText (v : option string)
    (prev : Full.BusinessConfig) : Full.BusinessConfig :=
  {| Full.businessName := Full.businessName prev;
     Full.tradeType := Full.tradeType prev;
     Full.contactName := Full.contactName prev;
     Full.services := Full.services prev;
     Full.pricing := Full.pricing prev;
     Full.availability := Full.availability prev;
     Full.sitemapUrl := Full.sitemapUrl prev;
     Full.knowledgeBaseText := v |}.

(** The file picked in the upload field: its MIME type and what
    [FileReader.readAsText] reads from it. *)
Record File := { file_type : string; file_text : string }.

(** [handleFileChange], with the [onload] of its reader: the form data
    and the text alerted, if any. *)
Definition handleFileChange (file : option File) (prev : Full.BusinessConfig)
  : Full.BusinessConfig * option string :=
  match file with
  | None => (prev, None)
  | Some f =>
      if negb (String.eqb (file_type f) "text/plain")
      then (prev, Some "Please upload a .txt file"%string)
      else (set_knowledgeBaseText (Some (file_text f)) prev, None)
  end.

Definition clearKnowledgeBase (prev : Full.BusinessConfig)
  : Full.BusinessConfig :=
  set_knowledgeBaseText (Some ""%string) prev.

(** [handleSubmit]: [onSave(formData)] is [setConfig] of [App]. *)
Definition handleSubmit (formData : Full.BusinessConfig)
  : Full.BusinessConfig := formData.

(* ================================================================== *)
(** ** Facts about the string operations                               *)
(* ================================================================== *)

Lemma toString_injective a b : toString a = toString b -> a = b.
Proof.
  unfold toString. intro H.
  assert (Hn : forall z, Z.to_int z <> Decimal.Pos Decimal.Nil
                         /\ Z.to_int z <> Decimal.Neg Decimal.Nil).
  { intros [| p | p]; cbn; split; try discriminate;
      intro E; injection E as E; exact (Unsigned.to_uint_nonnil p E). }
  pose proof (NilZero.isi (Z.to_int a) (proj1 (Hn a)) (proj2 (Hn a))) as Ha.
  pose proof (NilZero.isi (Z.to_int b) (proj1 (Hn b)) (proj2 (Hn b))) as Hb.
  rewrite H in Ha. rewrite Ha in Hb. injection Hb as Hb.
  rewrite <- (DecimalZ.of_to a), <- (DecimalZ.of_to b), Hb. reflexivity.
Qed.

Lemma trimStart_spaces s :
  forallb is_space (list_ascii_of_string s) = true -> trimStart s = EmptyString.
Proof.
  induction s as [| a r IH]; cbn [list_ascii_of_string forallb trimStart];
    [reflexivity |].
  intro H. apply andb_prop in H. destruct H as [Ha Hr]. rewrite Ha. exact (IH Hr).
Qed.

Lemma trimStart_other s :
  forallb is_space (list_ascii_of_string s) = false ->
  exists a r, trimStart s = String a r /\ is_space a = false.
Proof.
  induction s as [| a r IH]; cbn [list_ascii_of_string forallb trimStart];
    [discriminate |].
  destruct (is_space a) eqn:Ha; cbn [andb]; [exact IH |].
  intros _. exists a, r. auto.
Qed.

Lemma reverse_cons a r :
  list_ascii_of_string (reverse (String a r))
  = rev (list_ascii_of_string r) ++ [a].
Proof.
  unfold reverse. rewrite list_ascii_of_string_of_list_ascii. reflexivity.
Qed.

Lemma reverse_empty s : reverse s = EmptyString -> s = EmptyString.
Proof.
  destruct s as [| a r]; [reflexivity |]. intro H.
  pose proof (reverse_cons a r) as E. rewrite H in E. cbn in E.
  destruct (rev (list_ascii_of_string r)); discriminate E.
Qed.

(** [!s.trim()] holds exactly of the strings made of white space only,
    the empty string among them. *)
Lemma blank_spec s : blank s = forallb is_space (list_ascii_of_string s).
Proof.
  unfold blank, trim, trimEnd.
  destruct (forallb is_space (list_ascii_of_string s)) eqn:E.
  - rewrite (trimStart_spaces s E). reflexivity.
  - destruct (trimStart_other s E) as (a & r & -> & Ha).
    assert (Hr : forallb is_space (list_ascii_of_string (reverse (String a r)))
                 = false).
    { rewrite reverse_cons, forallb_app. cbn. rewrite Ha.
      rewrite andb_false_r. reflexivity. }
    destruct (trimStart_other _ Hr) as (b & q & -> & _).
    destruct (reverse (String b q)) eqn:R; [| reflexivity].
    apply reverse_empty in R. discriminate R.
Qed.

Lemma blank_nonempty s : blank s = false -> s <> EmptyString.
Proof. intros H ->. discriminate H. Qed.

(* ================================================================== *)
(** ** The text chat                                                   *)
(* ================================================================== *)

(** The message a submit appends for the user at time [t]. *)
Definition question (t : Z) (input : string) : ChatMessage :=
  {| id := toString t; role := user; text := input; timestamp := t;
     sources := None |}.

(** The text shown for a reply: an error's message or the response's
    text, each with its fallback. *)
Definition reply_text (r : exn + ChatResponse) : string :=
  match r with
  | inl error =>
      ("Error: " ++ or_default (message error) "Could not connect to AI.")%string
  | inr response => string_or (response_text response) "I didn't get that."
  end.

Definition reply_sources (r : exn + ChatResponse) : option (list Citation) :=
  match r with
  | inl _ => None
  | inr response =>
      match response_groundingChunks response with
      | Some groundingChunks =>
          match newSources_of groundingChunks with
          | [] => None
          | newSources => Some newSources
          end
      | None => None
      end
  end.

(** The message appended for the model when the reply [r] is handled at
    time [t]. *)
Definition answer_message (t : Z) (r : exn + ChatResponse) : ChatMessage :=
  {| id := toString (t + 1); role := model; text := reply_text r;
     timestamp := t; sources := reply_sources r |}.

Definition missing_key_answer (t : Z) : ChatMessage :=
  {| id := toString t; role := model; text := "Error: Missing API Key.";
     timestamp := t; sources := None |}.

(** X10. Submitting the form changes nothing at all when the input is
    empty or white space only, or while a reply is awaited. Without an
    API key, a submit of a proper input appends one message of the model,
    "Error: Missing API Key.", sends no request, keeps the input in the
    field and does not turn the busy flag on. *)
Theorem submit_without_request
    (config : Full.BusinessConfig) (apiKey : bool) (setup : option exn)
    (p : page) :
  (forallb is_space (list_ascii_of_string (inputText p)) = true
   \/ isLoading p = true ->
   handleSendMessage config apiKey setup p = p)
  /\ (blank (inputText p) = false -> isLoading p = false ->
      let p' := handleSendMessage config false setup p in
      transcript p' = transcript p ++ [missing_key_answer (now p)]
      /\ outbox p' = outbox p
      /\ unsettled p' = unsettled p
      /\ inputText p' = inputText p
      /\ isLoading p' = false
      /\ made (live p') = made (live p)).
Proof.
  split.
  - intro H. unfold handleSendMessage. rewrite blank_spec.
    destruct H as [-> | ->]; [reflexivity | rewrite orb_true_r; reflexivity].
  - intros Hb Hl. unfold handleSendMessage. rewrite Hb, Hl. cbn.
    repeat apply conj; reflexivity || assumption.
Qed.

Section Exchange.

Variable faults : call -> bool.
Variable config : Full.BusinessConfig.

Lemma page_run_cons t e r p p' :
  page_run faults config ((t, e) :: r) p = Some p' ->
  exists p1,
    clock (env (live p)) <= t
    /\ page_step faults config e (set_live (set_env (set_clock t)) p) = Some p1
    /\ page_run faults config r p1 = Some p'.
Proof.
  cbn [page_run]. unfold page_at, at_time.
  destruct (clock (env (live p)) <=? t) eqn:E; [| discriminate].
  change (set_live (fun _ => set_env (set_clock t) (live p)) p)
    with (set_live (set_env (set_clock t)) p).
  destruct (page_step faults config e (set_live (set_env (set_clock t)) p))
    as [p1 |]; [| discriminate].
  intro H. exists p1. apply Z.leb_le in E. auto.
Qed.

Lemma submit_accepted t p p1 :
  blank (inputText p) = false -> isLoading p = false ->
  page_step faults config (submit true None) (set_live (set_env (set_clock t)) p)
  = Some p1 ->
  transcript p1 = transcript p ++ [question t (inputText p)]
  /\ outbox p1
     = outbox p
       ++ [(t, {| chat_systemInstruction := getSystemInstruction config;
                  chat_tools := truthy (Full.sitemapUrl config);
                  chat_history := map (fun m => (role m, text m)) (transcript p);
                  chat_message := inputText p |})]
  /\ inputText p1 = EmptyString
  /\ isLoading p1 = true
  /\ unsettled p1 = S (unsettled p)
  /\ now p1 = t
  /\ made (live p1) = made (live p)
  /\ showTextInput p1 = showTextInput p.
Proof.
  intros Hb Hl. cbn [page_step]. destruct (form_shown _); [| discriminate].
  intro H. injection H as <-. unfold handleSendMessage.
  cbn [inputText isLoading set_live]. rewrite Hb, Hl. cbn.
  repeat apply conj; reflexivity.
Qed.

Lemma reply_handled t r p p2 :
  page_step faults config (reply r) (set_live (set_env (set_clock t)) p)
  = Some p2 ->
  transcript p2 = transcript p ++ [answer_message t r]
  /\ outbox p2 = outbox p
  /\ inputText p2 = inputText p
  /\ isLoading p2 = false
  /\ unsettled p2 = pred (unsettled p)
  /\ (0 < unsettled p)%nat
  /\ made (live p2)
     = made (live p) ++ match r with
                        | inl error => [console_error (message error)]
                        | inr _ => []
                        end
  /\ showTextInput p2 = showTextInput p.
Proof.
  cbn [page_step unsettled set_live].
  destruct (unsettled p) as [| n] eqn:En; [discriminate |].
  intro H. injection H as <-. unfold settled.
  destruct r as [error | response]; cbn.
  - unfold made. cbn. rewrite map_app, En.
    repeat apply conj; try reflexivity; lia.
  - unfold made. cbn. rewrite app_nil_r, En.
    unfold answer_message, reply_sources, transcript. cbn.
    repeat apply conj; try reflexivity; try lia.
    destruct (response_groundingChunks response) as [chunks |];
      [destruct (newSources_of chunks) |]; reflexivity.
Qed.

End Exchange.

(** X11. One exchange of the text chat. A submit of a proper input, made
    with an API key while no reply is awaited, appends the user's message
    with the input as typed (not trimmed), clears the field and sends one
    request: its history is the transcript as it was before that message,
    its message is the input, and the search tool is configured exactly
    when the sitemap URL is truthy. Whatever the reply, handling it
    appends exactly one message of the model: the response's text, or "I
    didn't get that." when it has none, with the cited sources when there
    are any; or, for a failure, "Error: " and the error's message, or
    "Could not connect to AI." when that is empty. The busy flag is off
    again in both cases, and the two messages have different ids. *)
Theorem text_exchange_appends_question_and_answer
    (faults : call -> bool) (config : Full.BusinessConfig)
    (p p2 : page) (t0 t1 : Z) (r : exn + ChatResponse) :
  blank (inputText p) = false ->
  isLoading p = false ->
  page_run faults config [(t0, submit true None); (t1, reply r)] p = Some p2 ->
  transcript p2
  = transcript p ++ [question t0 (inputText p); answer_message t1 r]
  /\ outbox p2
     = outbox p
       ++ [(t0, {| chat_systemInstruction := getSystemInstruction config;
                   chat_tools := truthy (Full.sitemapUrl config);
                   chat_history :=
                     map (fun m => (role m, text m)) (transcript p);
                   chat_message := inputText p |})]
  /\ inputText p2 = EmptyString
  /\ isLoading p2 = false
  /\ unsettled p2 = unsettled p
  /\ id (question t0 (inputText p)) <> id (answer_message t1 r)
  /\ made (live p2)
     = made (live p) ++ match r with
                        | inl error => [console_error (message error)]
                        | inr _ => []
                        end.
Proof.
  intros Hb Hl Hrun.
  apply page_run_cons in Hrun. destruct Hrun as (p1 & _ & Hs & Hrun).
  apply page_run_cons in Hrun. destruct Hrun as (p2' & Ht & Hr & Hrun).
  cbn [page_run] in Hrun. injection Hrun as ->.
  destruct (submit_accepted faults config t0 p p1 Hb Hl Hs)
    as (S1 & S2 & S3 & S4 & S5 & S6 & S7 & _).
  destruct (reply_handled faults config t1 r p1 p2 Hr)
    as (R1 & R2 & R3 & R4 & R5 & _ & R7 & _).
  repeat apply conj.
  - rewrite R1, S1, <- app_assoc. reflexivity.
  - rewrite R2. exact S2.
  - rewrite R3. exact S3.
  - exact R4.
  - rewrite R5, S5. reflexivity.
  - cbn. intro E. apply toString_injective in E.
    unfold now in S6. lia.
  - rewrite R7, S7. reflexivity.
Qed.

(** The form switched on, with an input typed in. *)
Definition demo_page : page :=
  set_inputText " Do you ship to Wales? "
    (set_showTextInput true (fresh_page 0)).

Definition demo_reply : exn + ChatResponse :=
  inr {| response_text := Some "We do."%string;
         response_groundingChunks := None |}.

Lemma text_exchange_appends_question_and_answer_witness :
  blank (inputText demo_page) = false
  /\ isLoading demo_page = false
  /\ exists p2,
       page_run reliable DEFAULT_CONFIG
         [(1000, submit true None); (2500, reply demo_reply)] demo_page
       = Some p2
       /\ transcript p2
          = transcript demo_page
            ++ [question 1000 (inputText demo_page);
                answer_message 2500 demo_reply]
       /\ isLoading p2 = false.
Proof.
  split; [reflexivity |]. split; [reflexivity |].
  destruct (page_run reliable DEFAULT_CONFIG
              [(1000, submit true None); (2500, reply demo_reply)] demo_page)
    as [p2 |] eqn:E; [| vm_compute in E; discriminate E].
  exists p2. split; [reflexivity |].
  destruct (text_exchange_appends_question_and_answer reliable DEFAULT_CONFIG
              demo_page p2 1000 2500 demo_reply eq_refl eq_refl E)
    as (H1 & _ & _ & H4 & _).
  split; assumption.
Defined.

Example demo_exchange :
  map (fun m => (id m, role m, text m))
    [question 1000 (inputText demo_page); answer_message 2500 demo_reply]
  = [ ("1000", user, " Do you ship to Wales? "); ("2501", model, "We do.") ]%string.
Proof. reflexivity. Qed.

(* ================================================================== *)
(** ** One request at a time                                           *)
(* ================================================================== *)

(** The busy flag is on exactly while one request has not settled. *)
Definition one_in_flight (p : page) : Prop :=
  unsettled p = if isLoading p then 1%nat else 0%nat.

Lemma one_in_flight_step faults config e p p' :
  one_in_flight p -> page_step faults config e p = Some p' -> one_in_flight p'.
Proof.
  unfold one_in_flight. intros I H. destruct e; cbn [page_step] in H.
  - destruct (step _ _ _ _); [| discriminate]. injection H as <-. exact I.
  - destruct (isLiveActive _); [discriminate |]. injection H as <-. exact I.
  - destruct (form_shown p); [| discriminate]. injection H as <-. exact I.
  - destruct (form_shown p); [| discriminate]. injection H as <-.
    unfold handleSendMessage.
    destruct (blank (inputText p)); cbn [orb]; [exact I |].
    destruct (isLoading p) eqn:L; [rewrite L; exact I |].
    destruct apiKey; cbn [negb]; [| cbn; rewrite L; exact I].
    destruct setup; cbn; exact I || (rewrite I; reflexivity).
  - destruct (unsettled p) as [| n] eqn:U; [discriminate |].
    injection H as <-. destruct (isLoading p); [| discriminate I].
    injection I as ->. unfold settled. destruct r; cbn; rewrite U; reflexivity.
Qed.

Lemma one_in_flight_run faults config h : forall p p',
  one_in_flight p -> page_run faults config h p = Some p' -> one_in_flight p'.
Proof.
  induction h as [| [t e] h IH]; intros p p' I H; cbn [page_run] in H.
  - injection H as <-. exact I.
  - unfold page_at in H. destruct (at_time t (live p)); [| discriminate].
    destruct (page_step faults config e _) as [p2 |] eqn:S; [| discriminate].
    apply (IH p2 p'); [| exact H].
    exact (one_in_flight_step faults config e (set_live _ p) p2 I S).
Qed.

(** X12. In every state the page reaches from its initial state, whatever
    the user, the voice session and the replies do, at most one request of
    the text chat has not settled, and the busy flag is on exactly then: a
    submit made while a reply is awaited is never sent. *)
Theorem one_text_request_in_flight
    (faults : call -> bool) (config : Full.BusinessConfig)
    (h : list (Z * page_event)) (t0 : Z) (p : page) :
  page_run faults config h (fresh_page t0) = Some p ->
  (unsettled p <= 1)%nat
  /\ (isLoading p = true <-> unsettled p = 1%nat)
  /\ (forall apiKey setup,
        isLoading p = true ->
        handleSendMessage config apiKey setup p = p).
Proof.
  intro H.
  pose proof (one_in_flight_run faults config h (fresh_page t0) p eq_refl H) as I.
  unfold one_in_flight in I. split; [| split].
  - destruct (isLoading p); lia.
  - destruct (isLoading p); split; intro E; try exact I; try reflexivity;
      try discriminate E. rewrite I in E. discriminate E.
  - intros apiKey setup L. unfold handleSendMessage. rewrite L, orb_true_r.
    reflexivity.
Qed.

Definition demo_typing : list (Z * page_event) :=
  [ (500, toggle_keyboard);
    (900, type_text " Do you ship to Wales? ");
    (1000, submit true None);
    (1200, type_text "Hello?");
    (1300, submit true None) ].

Definition demo_waiting : page :=
  match page_run reliable DEFAULT_CONFIG demo_typing (fresh_page 0) with
  | Some p => p
  | None => fresh_page 0
  end.

Lemma one_text_request_in_flight_witness :
  (unsettled demo_waiting <= 1)%nat
  /\ (isLoading demo_waiting = true <-> unsettled demo_waiting = 1%nat)
  /\ (forall apiKey setup,
        isLoading demo_waiting = true ->
        handleSendMessage DEFAULT_CONFIG apiKey setup demo_waiting
        = demo_waiting).
Proof.
  apply (one_text_request_in_flight reliable DEFAULT_CONFIG demo_typing 0
           demo_waiting).
  vm_compute. reflexivity.
Defined.

(** The second submit of the sample was not sent; its text is still in
    the field. *)
Example demo_waiting_state :
  (List.length (outbox demo_waiting), unsettled demo_waiting,
   isLoading demo_waiting, inputText demo_waiting,
   map text (transcript demo_waiting))
  = (1%nat, 1%nat, true, "Hello?", [" Do you ship to Wales? "])%string.
Proof. vm_compute. reflexivity. Qed.

(* ================================================================== *)
(** ** The transcript                                                  *)
(* ================================================================== *)

(** A message as the component writes them: it has a text, it is the
    user's or the model's, its sources are absent or not empty, and a
    message of the user is not blank and cites nothing. *)
Definition well_formed (m : ChatMessage) : Prop :=
  text m <> EmptyString
  /\ sources m <> Some []
  /\ role m <> system
  /\ (role m = user -> blank (text m) = false /\ sources m = None).

Definition tidy (s : world) : Prop := Forall well_formed (messages (ui s)).

Lemma well_formed_cited m c l :
  well_formed m -> Role_eqb (role m) model = true ->
  well_formed (with_sources m (c :: l)).
Proof.
  intros (H1 & H2 & H3 & H4) Hr. unfold well_formed, with_sources. cbn.
  repeat apply conj; try assumption; try discriminate.
  intro Hu. rewrite Hu in Hr. discriminate Hr.
Qed.

Lemma tidy_attach c l prev :
  Forall well_formed prev -> Forall well_formed (attach_sources (c :: l) prev).
Proof.
  intro H. induction prev as [| m init _] using rev_ind; [exact H |].
  rewrite attach_sources_snoc.
  destruct (Role_eqb (role m) model) eqn:R; [| exact H].
  apply Forall_app in H. destruct H as [Hi Hm].
  apply Forall_app. split; [exact Hi |]. constructor; [| constructor].
  apply well_formed_cited; [| exact R]. inversion Hm. assumption.
Qed.

Section Tidy.

Variable faults : call -> bool.

Lemma tidy_same s s' : messages (ui s') = messages (ui s) -> keeps tidy s s'.
Proof. unfold keeps, tidy. intros ->. auto. Qed.

Lemma tidy_put g :
  (forall w, messages (g w) = messages w) -> steady (keeps tidy) (put g).
Proof. intros Hg s. apply tidy_same. apply Hg. Qed.

Lemma tidy_cite c l :
  steady (keeps tidy)
    (put (fun w => set_messages (attach_sources (c :: l) (messages w)) w)).
Proof. intros s H. unfold tidy in *. cbn. apply tidy_attach. exact H. Qed.

Lemma tidy_allocate : steady (keeps tidy) allocate.
Proof. intro s. apply tidy_same. reflexivity. Qed.

Lemma tidy_browser_update f : steady (keeps tidy) (browser_update f).
Proof. intro s. apply tidy_same. reflexivity. Qed.

Lemma tidy_invoke c note : steady (keeps tidy) (invoke faults c note).
Proof.
  intro s. apply tidy_same. unfold invoke. destruct (faults c); reflexivity.
Qed.

End Tidy.

Ltac tidily :=
  unfold_handlers;
  repeat first
    [ apply tidy_cite
    | apply tidy_put; reflexivity
    | apply tidy_allocate
    | apply tidy_browser_update
    | apply tidy_invoke
    | steady_step ].

Section TidyHandlers.

Variable faults : call -> bool.
Variable config : BusinessConfig.

Lemma tidy_step e s s' :
  tidy s -> step faults config e s = Some s' -> tidy s'.
Proof.
  intros I H.
  assert (Henv : forall f, tidy (set_env f s)) by (intro f; exact I).
  destruct e; cbn [step] in H;
    repeat match type of H with
           | (if ?b then _ else _) = _ => destruct b; try discriminate H
           | match ?x with _ => _ end = _ =>
               destruct x eqn:?; try discriminate H
           end;
    injection H as <-;
    match goal with
    | |- tidy (exec ?m ?x) =>
        assert (Hm : steady (keeps tidy) m);
        [ try (destruct (runs _); cbn [run_job]); tidily
        | apply (Hm x); first [exact I | apply Henv] ]
    end.
Qed.

End TidyHandlers.

Lemma well_formed_question t input :
  blank input = false -> well_formed (question t input).
Proof.
  intro H. unfold well_formed, question. cbn.
  repeat apply conj; try discriminate; auto.
  exact (blank_nonempty input H).
Qed.

Lemma well_formed_answer t r : well_formed (answer_message t r).
Proof.
  unfold well_formed, answer_message. cbn. repeat apply conj; try discriminate.
  - destruct r as [e | resp]; cbn; [discriminate |].
    unfold string_or, or_default.
    destruct (response_text resp) as [[| a x] |]; discriminate.
  - destruct r as [e | resp]; cbn; [discriminate |].
    destruct (response_groundingChunks resp) as [chunks |]; [| discriminate].
    destruct (newSources_of chunks); discriminate.
Qed.

Lemma well_formed_missing_key t : well_formed (missing_key_answer t).
Proof.
  unfold well_formed, missing_key_answer. cbn.
  repeat apply conj; discriminate.
Qed.

Lemma tidy_say m p :
  tidy (live p) -> well_formed m -> tidy (live (say m p)).
Proof.
  unfold tidy. intros H Hm. cbn. apply Forall_app. split; [exact H |].
  constructor; [exact Hm | constructor].
Qed.

Lemma tidy_answer_error e p :
  tidy (live p) -> tidy (live (answer_error e p)).
Proof.
  intro H. unfold answer_error. cbn [live set_isLoading].
  apply (tidy_say _ _); [exact H |].
  exact (well_formed_answer _ (inl e)).
Qed.

Lemma answer_says resp p :
  answer resp p
  = set_isLoading false (say (answer_message (now p) (inr resp)) p).
Proof.
  unfold answer, answer_message, reply_sources. cbn.
  destruct (response_groundingChunks resp) as [chunks |];
    [destruct (newSources_of chunks) |]; reflexivity.
Qed.

Lemma tidy_answer resp p : tidy (live p) -> tidy (live (answer resp p)).
Proof.
  intro H. rewrite answer_says. cbn [live set_isLoading].
  apply (tidy_say _ _); [exact H |].
  exact (well_formed_answer _ (inr resp)).
Qed.

Lemma tidy_page_step faults config e p p' :
  tidy (live p) -> page_step faults config e p = Some p' -> tidy (live p').
Proof.
  intros I H. destruct e; cbn [page_step] in H.
  - destruct (step _ _ _ _) as [s |] eqn:S; [| discriminate].
    injection H as <-. exact (tidy_step faults _ e (live p) s I S).
  - destruct (isLiveActive _); [discriminate |]. injection H as <-. exact I.
  - destruct (form_shown p); [| discriminate]. injection H as <-. exact I.
  - destruct (form_shown p); [| discriminate]. injection H as <-.
    unfold handleSendMessage.
    destruct (blank (inputText p)) eqn:B; cbn [orb]; [exact I |].
    destruct (isLoading p); [exact I |].
    destruct apiKey; cbn [negb].
    + assert (Hq : tidy (live (set_isLoading true
                                 (set_inputText ""
                                    (say (question (now p) (inputText p)) p))))).
      { cbn [live set_isLoading set_inputText].
        apply tidy_say; [exact I | apply well_formed_question; exact B]. }
      destruct setup; [apply tidy_answer_error; exact Hq | exact Hq].
    + apply tidy_say; [exact I | apply well_formed_missing_key].
  - destruct (unsettled p); [discriminate |]. injection H as <-.
    unfold settled. destruct r; [apply tidy_answer_error | apply tidy_answer];
      exact I.
Qed.

Lemma tidy_page_run faults config h : forall p p',
  tidy (live p) -> page_run faults config h p = Some p' -> tidy (live p').
Proof.
  induction h as [| [t e] h IH]; intros p p' I H; cbn [page_run] in H.
  - injection H as <-. exact I.
  - unfold page_at, at_time in H.
    destruct (clock (env (live p)) <=? t); [| discriminate].
    destruct (page_step faults config e _) as [p2 |] eqn:S; [| discriminate].
    apply (IH p2 p'); [| exact H].
    exact (tidy_page_step faults config e
             (set_live (fun _ => set_env (set_clock t) (live p)) p) p2 I S).
Qed.

(** X13. In every state the page reaches from its initial state, by any
    history of the user, the voice session and the replies and whichever
    calls throw, every message of the transcript has a text that is not
    empty, is the user's or the model's (never [system]), and has either
    no sources or at least one; a message of the user is not blank and has
    no sources. *)
Theorem transcript_is_well_formed
    (faults : call -> bool) (config : Full.BusinessConfig)
    (h : list (Z * page_event)) (t0 : Z) (p : page) :
  page_run faults config h (fresh_page t0) = Some p ->
  Forall well_formed (transcript p).
Proof.
  intros H.
  assert (I : tidy (live (fresh_page t0))) by constructor.
  exact (tidy_page_run faults config h (fresh_page t0) p I H).
Qed.

Definition demo_grounded_reply : exn + ChatResponse :=
  inr {| response_text := None;
         response_groundingChunks :=
           Some [ {| web := Some {| web_title := None;
                                    web_uri := Some "https://qrcodestickers.co.uk/shop"%string |} |};
                  {| web := None |} ] |}.

Definition demo_answered : page :=
  match page_run reliable DEFAULT_CONFIG
          (demo_typing ++ [ (2500, reply demo_grounded_reply) ]) (fresh_page 0)
  with
  | Some p => p
  | None => fresh_page 0
  end.

Lemma transcript_is_well_formed_witness :
  Forall well_formed (transcript demo_answered).
Proof.
  apply (transcript_is_well_formed reliable DEFAULT_CONFIG
           (demo_typing ++ [ (2500, reply demo_grounded_reply) ]) 0
           demo_answered).
  vm_compute. reflexivity.
Defined.

(** A response without text and with one usable chunk. *)
Example demo_answered_transcript :
  map (fun m => (id m, role m, text m, sources m)) (transcript demo_answered)
  = [ ("1000", user, " Do you ship to Wales? ", None);
      ("2501", model, "I didn't get that.",
       Some [ {| title := "Source";
                 uri := "https://qrcodestickers.co.uk/shop" |} ]) ]%string.
Proof. vm_compute. reflexivity. Qed.

(* ================================================================== *)
(** ** The system instruction                                          *)
(* ================================================================== *)

Lemma includes_unfold s x :
  includes s x
  = String.prefix x s
    || match s with
       | String _ r => includes r x
       | EmptyString => false
       end.
Proof.
  destruct s; cbn [includes]; destruct (String.prefix x _); reflexivity.
Qed.

Lemma prefix_here x b : String.prefix x (x ++ b) = true.
Proof.
  induction x as [| a x IH]; cbn; [destruct b; reflexivity |].
  destruct (ascii_dec a a) as [_ | N]; [exact IH | contradiction].
Qed.

Lemma prefix_app x : forall s b,
  String.prefix x s = true -> String.prefix x (s ++ b) = true.
Proof.
  induction x as [| a x IH]; intros s b H;
    [destruct (s ++ b)%string; reflexivity |].
  destruct s as [| c s]; [discriminate H |].
  cbn in H |- *. destruct (ascii_dec a c); [| discriminate H].
  exact (IH s b H).
Qed.

Lemma includes_here x b : includes (x ++ b) x = true.
Proof. rewrite includes_unfold, prefix_here. reflexivity. Qed.

Lemma includes_right a s x : includes s x = true -> includes (a ++ s) x = true.
Proof.
  intro H. induction a as [| c a IH]; cbn [String.append]; [exact H |].
  rewrite includes_unfold, IH. apply orb_true_r.
Qed.

Lemma includes_left s b x : includes s x = true -> includes (s ++ b) x = true.
Proof.
  induction s as [| c s IH]; rewrite includes_unfold; intro H.
  - rewrite orb_false_r in H. rewrite includes_unfold.
    rewrite (prefix_app x EmptyString b H). reflexivity.
  - apply orb_prop in H. destruct H as [H | H].
    + rewrite includes_unfold, (prefix_app x _ b H). reflexivity.
    + change (String c s ++ b)%string with (String c (s ++ b)).
      rewrite includes_unfold, (IH H). apply orb_true_r.
Qed.

Lemma instruction_names_undefined_website config :
  Full.sitemapUrl config = None ->
  includes (getSystemInstruction config)
    "You have access to the website (undefined). Use the Google Search tool"
  = true.
Proof.
  intro Hnone. unfold getSystemInstruction. rewrite Hnone. cbv zeta.
  cbn [truthy].
  destruct (truthy (Full.knowledgeBaseText config)); [apply includes_left |];
    apply includes_right; unfold context_and_rules; rewrite Hnone;
    repeat match goal with
           | |- includes (?a ++ _) _ = true =>
               lazymatch a with
               | Full.availability _ => fail
               | _ => apply includes_right
               end
           end;
    apply includes_right; vm_compute; reflexivity.
Qed.

(** X14. Without a sitemap URL the request of the text chat configures no
    search tool, yet the system instruction it carries still says "You
    have access to the website (undefined). Use the Google Search tool":
    rule 4 of the instruction is written whether or not the URL is set,
    and the template prints the missing URL as "undefined". *)
Theorem instruction_promises_search_without_tool
    (config : Full.BusinessConfig) (p : page) :
  Full.sitemapUrl config = None ->
  blank (inputText p) = false ->
  isLoading p = false ->
  exists r,
    outbox (handleSendMessage config true None p) = outbox p ++ [(now p, r)]
    /\ chat_tools r = false
    /\ includes (chat_systemInstruction r)
         "You have access to the website (undefined). Use the Google Search tool"
       = true.
Proof.
  intros Hnone Hb Hl. unfold handleSendMessage. rewrite Hb, Hl. cbn.
  eexists. split; [reflexivity |]. cbn. rewrite Hnone. split; [reflexivity |].
  apply instruction_names_undefined_website. exact Hnone.
Qed.

(** A configuration without a website. *)
Definition demo_offline : Full.BusinessConfig :=
  {| Full.businessName := "Dave's Electrical";
     Full.tradeType := "Residential Electrician";
     Full.contactName := "Dave";
     Full.services := "Panel upgrades, rewiring";
     Full.pricing := "Hourly rate 80";
     Full.availability := "Mon-Fri 8am-6pm";
     Full.sitemapUrl := None;
     Full.knowledgeBaseText := None |}.

Lemma instruction_promises_search_without_tool_witness :
  Full.sitemapUrl demo_offline = None
  /\ blank (inputText demo_page) = false
  /\ isLoading demo_page = false
  /\ exists r,
       outbox (handleSendMessage demo_offline true None demo_page)
       = outbox demo_page ++ [(now demo_page, r)]
       /\ chat_tools r = false
       /\ includes (chat_systemInstruction r)
            "You have access to the website (undefined). Use the Google Search tool"
          = true.
Proof.
  split; [reflexivity |]. split; [reflexivity |]. split; [reflexivity |].
  exact (instruction_promises_search_without_tool demo_offline demo_page
           eq_refl eq_refl eq_refl).
Defined.

(* ================================================================== *)
(** ** The stored configuration                                        *)
(* ================================================================== *)

Lemma default_is_current : needs_migration DEFAULT_CONFIG = false.
Proof. vm_compute. reflexivity. Qed.

Lemma spread_default parsed : spread parsed DEFAULT_CONFIG = DEFAULT_CONFIG.
Proof. reflexivity. Qed.


Lemma includes_empty x : includes EmptyString x = true -> x = EmptyString.
Proof.
  rewrite includes_unfold, orb_false_r. destruct x; [reflexivity | discriminate].
Qed.

(** X16. What the setup panel saves does not always survive a reload. A
    form whose contact name was changed to anything but "Simon", or whose
    knowledge base was cleared, or replaced by a file that does not
    mention "30x40mm", fails the migration check when the app next
    starts: every field, edited or not, is then back at its default. *)
Theorem setup_edits_are_undone_at_reload (formData : Full.BusinessConfig) :
  (forall value,
      value <> "Simon"%string ->
      initial_config
        (persisted (handleSubmit (handleChange "contactName" value formData)))
      = DEFAULT_CONFIG)
  /\ initial_config (persisted (handleSubmit (clearKnowledgeBase formData)))
     = DEFAULT_CONFIG
  /\ (forall f,
        file_type f = "text/plain"%string ->
        includes (file_text f) "30x40mm" = false ->
        initial_config
          (persisted (handleSubmit (fst (handleFileChange (Some f) formData))))
        = DEFAULT_CONFIG).
Proof.
  repeat apply conj.
  - intros value Hv. unfold persisted, handleSubmit. cbn [initial_config].
    assert (E : needs_migration (handleChange "contactName" value formData)
                = true).
    { unfold needs_migration, handleChange, pick. cbn.
      destruct (String.eqb value "Simon") eqn:Q; [| reflexivity].
      apply String.eqb_eq in Q. contradiction. }
    rewrite E. apply spread_default.
  - unfold persisted, handleSubmit. cbn [initial_config].
    assert (E : needs_migration (clearKnowledgeBase formData) = true).
    { unfold needs_migration, clearKnowledgeBase, set_knowledgeBaseText. cbn.
      rewrite !orb_true_r. reflexivity. }
    rewrite E. apply spread_default.
  - intros f Ht Hk. unfold persisted, handleSubmit, handleFileChange.
    rewrite Ht, String.eqb_refl. cbn [negb fst initial_config].
    assert (E : needs_migration
                  (set_knowledgeBaseText (Some (file_text f)) formData) = true).
    { unfold needs_migration, set_knowledgeBaseText. cbn. rewrite Hk.
      rewrite !orb_true_r. reflexivity. }
    rewrite E. apply spread_default.
Qed.

(** The keys of [BusinessConfig]. *)
Definition keys : list string :=
  [ "businessName"; "tradeType"; "contactName"; "services"; "pricing";
    "availability"; "sitemapUrl"; "knowledgeBaseText" ]%string.

